(** * A shallow embedding of the [lang] package: lexer, parser, AST.

    The Python sources are [lang/consts.py], [lang/lexer.py],
    [lang/parser.py] and [lang/ast.py].  Every definition below carries
    the name of the Python function it follows. *)

From Stdlib Require Import ZArith String Ascii List Bool Lia DecimalString.
From Stdlib Require Import Floats.SpecFloat.
From stdpp Require Import gmap strings.
Import ListNotations.

Local Open Scope string_scope.
Local Open Scope nat_scope.

Set Warnings "-register-all".

(** Source text is a [string] holding one [ascii] per source character
    (code points below 256). *)

Definition NL : ascii := "010"%char.

(** ** lang/consts.py *)

Definition ID_VALID_START_CHARS : string :=
  "abcdefghijklmnopqrstuvwxyzABCDEFGHIJKLMNOPQRSTUVWXYZ_".
Definition ID_VALID_CHARS : string :=
  "abcdefghijklmnopqrstuvwxyzABCDEFGHIJKLMNOPQRSTUVWXYZ_0123456789".
Definition KEYWORDS : list string :=
  ["let"; "if"; "elif"; "else"; "and"; "or"; "not"; "repeat"].

(** [c in s] for a single character [c]. *)
Fixpoint char_in (c : ascii) (s : string) : bool :=
  match s with
  | EmptyString => false
  | String d s' => Ascii.eqb c d || char_in c s'
  end.

(** [x in xs] for a list of strings. *)
Definition str_in (x : string) (xs : list string) : bool :=
  existsb (String.eqb x) xs.

(** [needle in hay] for two strings: the substring test. *)
Fixpoint substring_in (needle hay : string) : bool :=
  String.prefix needle hay
  || match hay with
     | EmptyString => false
     | String _ hay' => substring_in needle hay'
     end.

(** ** lang/lexer.py *)

Inductive TokenType :=
  | LET | IF | ELIF | ELSE | ID | STRING | INT | REPEAT
  | L_BRACE | R_BRACE | L_PAREN | R_PAREN
  | LT | GT | EQUAL
  | PLUS | MINUS | MUL | DIV
  | SEMICOLON | COLON | TERNARY.

Definition TokenType_members : list TokenType :=
  [LET; IF; ELIF; ELSE; ID; STRING; INT; REPEAT; L_BRACE; R_BRACE; L_PAREN;
   R_PAREN; LT; GT; EQUAL; PLUS; MINUS; MUL; DIV; SEMICOLON; COLON; TERNARY].

Definition TokenType_value (t : TokenType) : string :=
  match t with
  | LET => "let" | IF => "if" | ELIF => "elif" | ELSE => "else"
  | ID => "ID" | STRING => "STRING" | INT => "INT" | REPEAT => "repeat"
  | L_BRACE => "{" | R_BRACE => "}" | L_PAREN => "(" | R_PAREN => ")"
  | LT => "<" | GT => ">" | EQUAL => "="
  | PLUS => "+" | MINUS => "-" | MUL => "*" | DIV => "/"
  | SEMICOLON => ";" | COLON => ":" | TERNARY => "?"
  end.

Scheme Equality for TokenType.

(** [TokenType.get]: the member whose value is [value], if any. *)
Definition TokenType_get (value : string) : option TokenType :=
  find (fun t => String.eqb (TokenType_value t) value) TokenType_members.

(** [Token.value] is an [int] for INT tokens and a [str] otherwise. *)
Inductive TokenValue :=
  | IntValue (z : Z)
  | StrValue (s : string).

(** [Token.type] is [None] for the keywords and, or, not: they are in
    KEYWORDS but [TokenType.get] knows no member for them. *)
Record Token := mkToken {
  type : option TokenType;
  value : TokenValue;
  line : nat;
  col : nat
}.

(** ** Python outcomes *)

(** What a message of a [ValueError] raised by the package says. *)
Inductive Message :=
  | NotAccepted (c : ascii) (line col : nat)
      (* <char> wird nicht akzeptiert (<line>:<column>) *)
  | InvalidLiteral (s : string)
      (* raised by the builtin int(...) *)
  | Expected (token_types : list TokenType) (got : Token)
      (* Expected <token_types joined>, got <value> (<line>:<col>) *)
  | BadStatement
      (* Statement must be an assignment, a conditional or an expression *)
  | CantAssign
      (* Can not assign to comparison. *)
  | NoMessage
      (* a bare [raise ValueError] *)
  | VariableNotFound (name : string).
      (* Variable <name> not found *)

Inductive Exn :=
  | IndexError
  | EOFError
  | ValueError (m : Message)
  | KeyError (key : string)
  | TypeError
  | ZeroDivisionError
  | OverflowError
  | Unmodelled (why : string).
      (* not a Python exception: the input left the domain of the model *)

Inductive Result (A : Type) :=
  | Ok (a : A)
  | Raise (e : Exn).
Arguments Ok {A} a.
Arguments Raise {A} e.

(** The lexer state.  [pending] is [source_code[pos:]]; the attribute
    [char] is its first character, [None] once it is empty. *)
Record Lexer := mkLexer {
  pending : string;
  lx_line : nat;
  column : nat
}.

Definition char (lx : Lexer) : option ascii :=
  match pending lx with
  | EmptyString => None
  | String c _ => Some c
  end.

(** [Lexer.__init__]: [source_code[0]] raises on the empty text. *)
Definition Lexer_init (source_code : string) : Result Lexer :=
  match source_code with
  | EmptyString => Raise IndexError
  | _ => Ok (mkLexer source_code 1 1)
  end.

Definition advance (lx : Lexer) : Lexer :=
  let '(l, c) :=
    match char lx with
    | Some ch => if Ascii.eqb ch NL then (lx_line lx + 1, 1)
                 else (lx_line lx, column lx)
    | None => (lx_line lx, column lx)
    end in
  mkLexer (match pending lx with
           | EmptyString => EmptyString
           | String _ s => s
           end) l (c + 1).

(** [str.isspace] and [str.isdigit] on one character below 256. *)
Definition isspace (c : ascii) : bool :=
  let n := nat_of_ascii c in
  ((9 <=? n) && (n <=? 13)) || ((28 <=? n) && (n <=? 32))
  || (n =? 133) || (n =? 160).

Definition isdigit (c : ascii) : bool :=
  let n := nat_of_ascii c in
  ((48 <=? n) && (n <=? 57)) || (n =? 178) || (n =? 179) || (n =? 185).

(** [while self.char and cond(self.char): self.advance()], by recursion
    on the number of pending characters. *)
Fixpoint advance_while (n : nat) (cond : ascii -> bool) (lx : Lexer) : Lexer :=
  match n with
  | O => lx
  | S n' =>
      match char lx with
      | Some c => if cond c then advance_while n' cond (advance lx) else lx
      | None => lx
      end
  end.

Definition skip_whitespace (lx : Lexer) : Lexer :=
  advance_while (String.length (pending lx)) isspace lx.

Definition skip_comment (lx : Lexer) : Lexer :=
  advance_while (String.length (pending lx))
    (fun c => negb (Ascii.eqb c NL)) lx.

(** The characters yielded by [get_chars(condition=...)], joined. *)
Fixpoint get_chars_loop (n : nat) (condition : ascii -> bool) (lx : Lexer)
  : string * Lexer :=
  match n with
  | O => (EmptyString, lx)
  | S n' =>
      match char lx with
      | Some c =>
          if condition c then
            let '(s, lx') := get_chars_loop n' condition (advance lx) in
            (String c s, lx')
          else (EmptyString, lx)
      | None => (EmptyString, lx)
      end
  end.

Definition get_chars (condition : ascii -> bool) (lx : Lexer) : string * Lexer :=
  get_chars_loop (String.length (pending lx)) condition lx.

(** The builtin [int] on a string of characters accepted by [isdigit]:
    the superscript digits pass [isdigit] but are no decimal literal. *)
Definition ascii_digit (c : ascii) : option Z :=
  let n := nat_of_ascii c in
  if (48 <=? n) && (n <=? 57) then Some (Z.of_nat (n - 48)) else None.

Fixpoint int_of_digits (acc : Z) (s : string) : option Z :=
  match s with
  | EmptyString => Some acc
  | String c s' =>
      match ascii_digit c with
      | Some d => int_of_digits (10 * acc + d)%Z s'
      | None => None
      end
  end.

Definition py_int (s : string) : Result Z :=
  match int_of_digits 0%Z s with
  | Some z => Ok z
  | None => Raise (ValueError (InvalidLiteral s))
  end.

(** [Lexer.tokenize]: the loop [while self.char is not None].  [None]
    means the fuel ran out; [tokenize] below gives it enough. *)
Fixpoint tokenize_loop (fuel : nat) (lx : Lexer) (tokens : list Token)
  : option (Result (list Token)) :=
  match char lx with
  | None => Some (Ok tokens)
  | Some c =>
      match fuel with
      | O => None
      | S fuel' =>
          let line := lx_line lx in
          let column := column lx in
          if isdigit c then
            let '(integer, lx') := get_chars isdigit lx in
            match py_int integer with
            | Ok z =>
                tokenize_loop fuel' lx'
                  (tokens ++ [mkToken (Some INT) (IntValue z) line column])
            | Raise e => Some (Raise e)
            end
          else if char_in c ID_VALID_START_CHARS then
            let '(identifier, lx') :=
              get_chars (fun c => char_in c ID_VALID_CHARS) lx in
            let t_type :=
              if str_in identifier KEYWORDS then TokenType_get identifier
              else Some ID in
            tokenize_loop fuel' lx'
              (tokens ++ [mkToken t_type (StrValue identifier) line column])
          else
            match TokenType_get (String c EmptyString) with
            | Some t_type =>
                tokenize_loop fuel' (advance lx)
                  (tokens ++ [mkToken (Some t_type)
                                (StrValue (TokenType_value t_type)) line column])
            | None =>
                if isspace c then tokenize_loop fuel' (skip_whitespace lx) tokens
                else if Ascii.eqb c "#"%char then
                  tokenize_loop fuel' (skip_comment lx) tokens
                else Some (Raise (ValueError (NotAccepted c line column)))
            end
      end
  end.

(** [Lexer(source_code).tokenize()]. *)
Definition tokenize (source_code : string) : option (Result (list Token)) :=
  match Lexer_init source_code with
  | Ok lx => tokenize_loop (String.length source_code) lx []
  | Raise e => Some (Raise e)
  end.


(** ** lang/ast.py: the nodes *)

(** One type for every node class, as in Python, where any node may stand
    in any place.  [standalone] is the attribute of [LogMixin]; [op] is the
    operator text the parser took from the token. *)
Inductive Node :=
  | Module (statements : list Node)
  | Reference (name : string) (standalone : bool)
  | Literal (value : Z) (standalone : bool)
  | ArithmeticOp (left : Node) (op : string) (right : Node) (standalone : bool)
  | CompOp (left : Node) (op : string) (right : Node)
  | Assignment (name : string) (value : Node)
  | Ternary (condition if_truthy if_falsy : Node)
  | IfStatement (condition : Node) (block : list Node)
      (elseif_statements : list Node) (else_block : list Node)
  | Repeat (times : Node) (block : list Node).

(** [node.standalone = True]: read only by the three [LogMixin] classes. *)
Definition set_standalone (node : Node) : Node :=
  match node with
  | Reference name _ => Reference name true
  | Literal value _ => Literal value true
  | ArithmeticOp l op r _ => ArithmeticOp l op r true
  | other => other
  end.

(** [isinstance(value, ast.CompOp)] *)
Definition is_CompOp (node : Node) : bool :=
  match node with
  | CompOp _ _ _ => true
  | _ => false
  end.

(** ** lang/parser.py *)

(** The parser state [(tokens, pos)] is kept as the unread tokens
    [tokens[pos:]]: the parser reads [tokens[pos]] and increments [pos],
    nothing else.  A parser returns [None] when its fuel runs out. *)
Definition Parser (A : Type) : Type :=
  list Token -> option (Result (A * list Token)).

Definition ret {A} (a : A) : Parser A := fun ts => Some (Ok (a, ts)).

Definition fail {A} (e : Exn) : Parser A := fun _ => Some (Raise e).

Definition out_of_fuel {A} : Parser A := fun _ => None.

Definition bind {A B} (p : Parser A) (f : A -> Parser B) : Parser B :=
  fun ts =>
    match p ts with
    | Some (Ok (a, ts')) => f a ts'
    | Some (Raise e) => Some (Raise e)
    | None => None
    end.

Declare Scope parser_scope.
Delimit Scope parser_scope with parser.
Notation "x <- p ;; q" := (bind p (fun x => q))
  (at level 100, p at next level, right associativity) : parser_scope.
Notation "p ;; q" := (bind p (fun _ => q))
  (at level 100, right associativity) : parser_scope.
Local Open Scope parser_scope.

Definition get_token : Parser (option Token) :=
  fun ts => Some (Ok (head ts, ts)).

Definition type_in (t : option TokenType) (token_types : list TokenType) : bool :=
  match t with
  | Some t => existsb (TokenType_beq t) token_types
  | None => false
  end.

Definition eat (token_types : list TokenType) : Parser unit :=
  fun ts =>
    match ts with
    | [] => Some (Raise EOFError)
    | curr_token :: rest =>
        if type_in (type curr_token) token_types then Some (Ok (tt, rest))
        else Some (Raise (ValueError (Expected token_types curr_token)))
    end.

(** The lexer gives INT tokens an [int] and every other token a [str];
    a token list that breaks this is outside the model. *)
Definition int_value (token : Token) : Parser Z :=
  match value token with
  | IntValue z => ret z
  | StrValue _ => fail (Unmodelled "INT token without an int")
  end.

Definition str_value (token : Token) : Parser string :=
  match value token with
  | StrValue s => ret s
  | IntValue _ => fail (Unmodelled "token without a str")
  end.

(** [s * n] on a [str] *)
Definition str_mul (s : string) (n : Z) : string :=
  Nat.iter (Z.to_nat n) (String.append s) EmptyString.

(** [TOKEN_NODE_MAPPING[token.type](token.value * factor)], after
    [eat(INT, ID)] has let the token through. *)
Definition TOKEN_NODE (token : option Token) (factor : Z) : Parser Node :=
  match token with
  | Some token =>
      match type token with
      | Some INT => z <- int_value token ;; ret (Literal (z * factor) false)
      | Some ID => s <- str_value token ;; ret (Reference (str_mul s factor) false)
      | _ => fail (KeyError EmptyString)
      end
  | None => fail EOFError
  end.

(** The loop shared by [mult], [expr] and [comparison_expr]:
    [while (token := get_token()) and token.type in ops:
       eat(token.type); node = mk(node, token.value, operand())] *)
Fixpoint while_op (fuel : nat) (ops : list TokenType)
    (mk : Node -> string -> Node -> Node) (operand : Parser Node) (node : Node)
  : Parser Node :=
  match fuel with
  | O => out_of_fuel
  | S fuel' =>
      token <- get_token ;;
      match token with
      | Some token =>
          if type_in (type token) ops then
            eat (match type token with Some t => [t] | None => [] end) ;;
            r <- operand ;;
            op <- str_value token ;;
            while_op fuel' ops mk operand (mk node op r)
          else ret node
      | None => ret node
      end
  end.

Definition mkArithmeticOp (l : Node) (op : string) (r : Node) : Node :=
  ArithmeticOp l op r false.

Fixpoint factor (fuel : nat) : Parser Node :=
  match fuel with
  | O => out_of_fuel
  | S fuel' =>
      token <- get_token ;;
      match token with
      | None => fail (ValueError NoMessage)
      | Some token =>
          match type token with
          | Some L_PAREN =>
              eat [L_PAREN] ;;
              expression_node <- expr fuel' ;;
              eat [R_PAREN] ;;
              ret expression_node
          | _ =>
              factor <- match type token with
                        | Some MINUS => eat [MINUS] ;; ret (-1)%Z
                        | _ => ret 1%Z
                        end ;;
              match type token with
              | Some PLUS => eat [PLUS]
              | _ => ret tt
              end ;;
              token <- get_token ;;
              eat [INT; ID] ;;
              TOKEN_NODE token factor
          end
      end
  end
with mult (fuel : nat) : Parser Node :=
  match fuel with
  | O => out_of_fuel
  | S fuel' =>
      node <- factor fuel' ;;
      while_op fuel' [MUL; DIV] mkArithmeticOp (factor fuel') node
  end
with expr (fuel : nat) : Parser Node :=
  match fuel with
  | O => out_of_fuel
  | S fuel' =>
      node <- mult fuel' ;;
      while_op fuel' [PLUS; MINUS] mkArithmeticOp (mult fuel') node
  end.

Definition comparison_expr (fuel : nat) : Parser Node :=
  node <- expr fuel ;;
  while_op fuel [GT; LT] CompOp (expr fuel) node.

Definition ternary (fuel : nat) (condition : option Node) : Parser Node :=
  condition <- match condition with
               | Some c => ret c
               | None => comparison_expr fuel
               end ;;
  eat [TERNARY] ;;
  if_truthy <- expr fuel ;;
  eat [COLON] ;;
  if_falsy <- expr fuel ;;
  ret (Ternary condition if_truthy if_falsy).

Definition is_type (t : TokenType) (token : option Token) : bool :=
  match token with
  | Some token => type_in (type token) [t]
  | None => false
  end.

Definition assignment (fuel : nat) : Parser Node :=
  eat [LET] ;;
  token <- get_token ;;
  eat [ID] ;;
  eat [EQUAL] ;;
  value <- comparison_expr fuel ;;
  tern_token <- get_token ;;
  value <- (if is_type TERNARY tern_token then ternary fuel (Some value)
            else ret value) ;;
  if is_CompOp value then fail (ValueError CantAssign)
  else
    match token with
    | Some token => name <- str_value token ;; ret (Assignment name value)
    | None => fail EOFError
    end.

Definition ConditionT : Type := Token -> bool.

Definition NOT_R_BRACE_CONDITION : ConditionT :=
  fun t => negb (type_in (type t) [R_BRACE]).

Definition ALWAYS : ConditionT := fun _ => true.

(** [statements] is its own loop: [stats] is the list built so far. *)
Fixpoint statements (fuel : nat) (condition : ConditionT) (stats : list Node)
  : Parser (list Node) :=
  match fuel with
  | O => out_of_fuel
  | S fuel' =>
      token <- get_token ;;
      match token with
      | None => ret stats
      | Some token =>
          if condition token then
            match type token with
            | Some INT | Some ID | Some L_PAREN =>
                node <- expr fuel' ;;
                eat [SEMICOLON] ;;
                statements fuel' condition (stats ++ [set_standalone node])
            | Some LET =>
                node <- assignment fuel' ;;
                eat [SEMICOLON] ;;
                statements fuel' condition (stats ++ [node])
            | Some REPEAT =>
                node <- repeat fuel' ;;
                statements fuel' condition (stats ++ [node])
            | Some IF =>
                node <- if_statement fuel' ;;
                statements fuel' condition (stats ++ [node])
            | _ => fail (ValueError BadStatement)
            end
          else ret stats
      end
  end
with repeat (fuel : nat) : Parser Node :=
  match fuel with
  | O => out_of_fuel
  | S fuel' =>
      eat [REPEAT] ;;
      times <- expr fuel' ;;
      eat [L_BRACE] ;;
      block <- statements fuel' NOT_R_BRACE_CONDITION [] ;;
      eat [R_BRACE] ;;
      ret (Repeat times block)
  end
with if_statement (fuel : nat) : Parser Node :=
  match fuel with
  | O => out_of_fuel
  | S fuel' =>
      eat [IF; ELIF] ;;
      condition <- comparison_expr fuel' ;;
      eat [L_BRACE] ;;
      stats <- statements fuel' NOT_R_BRACE_CONDITION [] ;;
      eat [R_BRACE] ;;
      elif_statements <- elif_loop fuel' [] ;;
      token <- get_token ;;
      else_block <- (if is_type ELSE token then
                       eat [ELSE] ;;
                       eat [L_BRACE] ;;
                       else_block <- statements fuel' NOT_R_BRACE_CONDITION [] ;;
                       eat [R_BRACE] ;;
                       ret else_block
                     else ret []) ;;
      ret (IfStatement condition stats elif_statements else_block)
  end
with elif_loop (fuel : nat) (elif_statements : list Node) : Parser (list Node) :=
  match fuel with
  | O => out_of_fuel
  | S fuel' =>
      token <- get_token ;;
      if is_type ELIF token then
        node <- if_statement fuel' ;;
        elif_loop fuel' (elif_statements ++ [node])
      else ret elif_statements
  end.

(** [Parser(tokens).parse()].  Each call passes its fuel less one, and
    between two tokens at most a fixed number of calls nest. *)
Definition parse_fuel (tokens : list Token) : nat := 8 * length tokens + 8.

Definition parse (tokens : list Token) : option (Result Node) :=
  match statements (parse_fuel tokens) ALWAYS [] tokens with
  | Some (Ok (stats, _)) => Some (Ok (Module stats))
  | Some (Raise e) => Some (Raise e)
  | None => None
  end.


Local Close Scope parser_scope.

(** ** Python values *)

(** The values a node evaluates to, apart from [None]: an evaluation
    result is an [option Value], with Rocq's [None] for Python's. *)
Inductive Value :=
  | VInt (z : Z)
  | VFloat (f : spec_float)
  | VBool (b : bool).

(** A [float] is an IEEE 754 binary64 number. *)
Definition prec : Z := 53.
Definition emax : Z := 1024.

(** [bool] is a subclass of [int]. *)
Definition number (v : option Value) : Result (Z + spec_float) :=
  match v with
  | Some (VInt z) => Ok (inl z)
  | Some (VBool b) => Ok (inl (if b then 1 else 0)%Z)
  | Some (VFloat f) => Ok (inr f)
  | None => Raise TypeError
  end.

(** [float(z)]: the nearest binary64 number, ties to even. *)
Definition float_of_int (z : Z) : Result spec_float :=
  match binary_normalize prec emax z 0 false with
  | S754_infinity _ => Raise OverflowError
  | f => Ok f
  end.

Definition to_float (n : Z + spec_float) : Result spec_float :=
  match n with
  | inl z => float_of_int z
  | inr f => Ok f
  end.

(** [x + y], [x - y], [x * y]: on two ints the exact integer, otherwise
    the float operation after both operands become floats. *)
Definition arith (int_op : Z -> Z -> Z)
    (float_op : spec_float -> spec_float -> spec_float)
    (x y : option Value) : Result Value :=
  match number x, number y with
  | Ok (inl a), Ok (inl b) => Ok (VInt (int_op a b))
  | Ok a, Ok b =>
      match to_float a, to_float b with
      | Ok fa, Ok fb => Ok (VFloat (float_op fa fb))
      | Raise e, _ => Raise e
      | _, Raise e => Raise e
      end
  | Raise e, _ => Raise e
  | _, Raise e => Raise e
  end.

(** [a / b] on two ints, [b] not zero: the quotient rounded once. *)
Definition int_true_divide (a b : Z) : Result Value :=
  if (a =? 0)%Z then Ok (VFloat (S754_zero (b <? 0)%Z))
  else
    match SFdiv prec emax
            (S754_finite (a <? 0)%Z (Z.to_pos (Z.abs a)) 0)
            (S754_finite (b <? 0)%Z (Z.to_pos (Z.abs b)) 0) with
    | S754_infinity _ => Raise OverflowError
    | f => Ok (VFloat f)
    end.

Definition float_is_zero (f : spec_float) : bool :=
  match f with
  | S754_zero _ => true
  | _ => false
  end.

(** [x / y] *)
Definition truediv (x y : option Value) : Result Value :=
  match number x, number y with
  | Ok (inl a), Ok (inl b) =>
      if (b =? 0)%Z then Raise ZeroDivisionError else int_true_divide a b
  | Ok a, Ok b =>
      match to_float a, to_float b with
      | Ok fa, Ok fb =>
          if float_is_zero fb then Raise ZeroDivisionError
          else Ok (VFloat (SFdiv prec emax fa fb))
      | Raise e, _ => Raise e
      | _, Raise e => Raise e
      end
  | Raise e, _ => Raise e
  | _, Raise e => Raise e
  end.

(** An int against a float is compared exactly, without rounding. *)
Definition compare_int_float (x : Z) (f : spec_float) : option comparison :=
  match f with
  | S754_nan => None
  | S754_infinity s => Some (if s then Gt else Lt)
  | S754_zero _ => Some (x ?= 0)%Z
  | S754_finite s m e =>
      let v := if s then Z.neg m else Z.pos m in
      Some (if (0 <=? e)%Z then (x ?= v * 2 ^ e)%Z
            else (x * 2 ^ (- e) ?= v)%Z)
  end.

Definition compare_num (a b : Z + spec_float) : option comparison :=
  match a, b with
  | inl x, inl y => Some (x ?= y)%Z
  | inr f, inr g => SFcompare f g
  | inl x, inr g => compare_int_float x g
  | inr f, inl y => option_map CompOpp (compare_int_float y f)
  end.

Definition compare_with (want : comparison) (x y : option Value) : Result Value :=
  match number x, number y with
  | Ok a, Ok b =>
      Ok (VBool match compare_num a b with
                | Some c => if comparison_eq_dec c want then true else false
                | None => false
                end)
  | Raise e, _ => Raise e
  | _, Raise e => Raise e
  end.

Definition BinOp : Type := option Value -> option Value -> Result Value.

Definition ARITHMETIC_OP_MAPPINGS (op : string) : option BinOp :=
  if String.eqb op "+" then Some (arith Z.add (SFadd prec emax))
  else if String.eqb op "-" then Some (arith Z.sub (SFsub prec emax))
  else if String.eqb op "*" then Some (arith Z.mul (SFmul prec emax))
  else if String.eqb op "/" then Some truediv
  else None.

Definition COMP_OP_MAPPINGS (op : string) : option BinOp :=
  if String.eqb op ">" then Some (compare_with Gt)
  else if String.eqb op "<" then Some (compare_with Lt)
  else None.

(** The truth value of an object, as [if] takes it. *)
Definition truthy (v : option Value) : bool :=
  match v with
  | None => false
  | Some (VBool b) => b
  | Some (VInt z) => negb (z =? 0)%Z
  | Some (VFloat f) => negb (float_is_zero f)
  end.

(** [range(v)]: the numbers it yields; only an int is accepted. *)
Definition range (v : option Value) : Result (list Z) :=
  match v with
  | Some (VInt z) => Ok (map Z.of_nat (seq 0 (Z.to_nat z)))
  | Some (VBool b) => Ok (if b then [0%Z] else [])
  | _ => Raise TypeError
  end.

(** ** lang/ast.py: the symbol table and evaluation *)

(** What one traversal threads along: the dict of the [SymbolTable], the
    lines printed so far, and the identifiers that [_id_gen] will draw
    (rendering only).

    Every read of the dict is [symbols.get(name)] compared with [None], so
    a name bound to [None] cannot be told from a name never bound:
    [symbols] holds the names whose [get] is not [None]. *)
Record State := mkState {
  symbols : gmap string Value;
  stdout : list Value;
  draws : list string
}.

Definition M (A : Type) : Type := State -> Result A * State.

Definition pure {A} (a : A) : M A := fun st => (Ok a, st).

Definition raise {A} (e : Exn) : M A := fun st => (Raise e, st).

Definition lift {A} (r : Result A) : M A := fun st => (r, st).

Definition and_then {A B} (m : M A) (f : A -> M B) : M B :=
  fun st =>
    match m st with
    | (Ok a, st') => f a st'
    | (Raise e, st') => (Raise e, st')
    end.

Declare Scope py_scope.
Delimit Scope py_scope with py.
Notation "x <- p ;; q" := (and_then p (fun x => q))
  (at level 100, p at next level, right associativity) : py_scope.
Notation "p ;; q" := (and_then p (fun _ => q))
  (at level 100, right associativity) : py_scope.
Local Open Scope py_scope.

(** [SymbolTable.add] *)
Definition add (name : string) (value : option Value) : M unit :=
  fun st =>
    (Ok tt,
     mkState (match value with
              | Some v => <[name := v]> (symbols st)
              | None => delete name (symbols st)
              end) (stdout st) (draws st)).

(** [SymbolTable.get_or_raise] *)
Definition get_or_raise (name : string) : M Value :=
  fun st =>
    match symbols st !! name with
    | None => (Raise (ValueError (VariableNotFound name)), st)
    | Some node => (Ok node, st)
    end.

(** [print(value)] *)
Definition print (value : Value) : M unit :=
  fun st => (Ok tt, mkState (symbols st) (stdout st ++ [value]) (draws st)).

(** [LogMixin.log] *)
Definition log (standalone : bool) (value : Value) : M (option Value) :=
  (if standalone then print value else pure tt) ;;
  pure (Some value).

(** [MAPPINGS[op]], a [KeyError] when the operator is no key. *)
Definition subscript (mappings : string -> option BinOp) (op : string) : M BinOp :=
  match mappings op with
  | Some f => pure f
  | None => raise (KeyError op)
  end.

(** [for x in xs: body(x)] *)
Definition for_each {A X} (body : X -> M A) : list X -> M unit :=
  fix loop (xs : list X) : M unit :=
    match xs with
    | [] => pure tt
    | x :: xs' => body x ;; loop xs'
    end.

(** [for node in nodes: if node.eval(env): return True], else [False] *)
Definition first_truthy {X} (body : X -> M (option Value)) : list X -> M bool :=
  fix loop (xs : list X) : M bool :=
    match xs with
    | [] => pure false
    | x :: xs' => v <- body x ;; if truthy v then pure true else loop xs'
    end.

Fixpoint eval (node : Node) : M (option Value) :=
  match node with
  | Module statements =>
      for_each eval statements ;;
      pure None
  | Reference name standalone =>
      v <- get_or_raise name ;;
      log standalone v
  | Literal value standalone =>
      log standalone (VInt value)
  | ArithmeticOp left_ op right_ standalone =>
      f <- subscript ARITHMETIC_OP_MAPPINGS op ;;
      x <- eval left_ ;;
      y <- eval right_ ;;
      v <- lift (f x y) ;;
      log standalone v
  | CompOp left_ op right_ =>
      f <- subscript COMP_OP_MAPPINGS op ;;
      x <- eval left_ ;;
      y <- eval right_ ;;
      v <- lift (f x y) ;;
      pure (Some v)
  | Assignment name value =>
      v <- eval value ;;
      add name v ;;
      pure None
  | Ternary condition if_truthy if_falsy =>
      c <- eval condition ;;
      if truthy c then eval if_truthy else eval if_falsy
  | IfStatement condition block elseif_statements else_block =>
      c <- eval condition ;;
      if truthy c then
        for_each eval block ;;
        pure (Some (VBool true))
      else
        handled <- first_truthy eval elseif_statements ;;
        if (handled : bool) then pure (Some (VBool true))
        else
          for_each eval else_block ;;
          pure (Some (VBool false))
  | Repeat times block =>
      n <- eval times ;;
      r <- lift (range n) ;;
      for_each (fun _ : Z => for_each eval block) r ;;
      pure None
  end.

(** ** lang/ast.py: rendering *)

Definition chr (n : nat) : string := String (ascii_of_nat n) EmptyString.

(** The characters that a Rocq string literal cannot hold as they are. *)
Definition DQUOTE : string := chr 34.
Definition BACKSLASH : string := chr 92.
Definition NEWLINE : string := chr 10.
Definition U_UMLAUT : string := chr 252.

(** [' ' * indent] *)
Definition spaces (indent : nat) : string :=
  Nat.iter indent (String " "%char) EmptyString.

(** [str(z)] on an int *)
Definition str_int (z : Z) : string := NilZero.string_of_int (Z.to_int z).

(** [printf(<DQUOTE>fmt\n<DQUOTE>args);] *)
Definition printf (fmt args : string) : string :=
  "printf(" ++ DQUOTE ++ fmt ++ BACKSLASH ++ "n" ++ DQUOTE ++ args ++ ");".

(** [getattr(node, 'op', 'None')] *)
Definition getattr_op (node : Node) : string :=
  match node with
  | ArithmeticOp _ op _ _ => op
  | CompOp _ op _ => op
  | _ => "None"
  end.

(** [Repeat._new_id]: draw identifiers until one is not bound.  The draws
    of [_id_gen] are the list [draws] of the state; when none is left the
    outcome is outside the model. *)
Fixpoint new_id (symbols : gmap string Value) (draws : list string)
  : option (string * list string) :=
  match draws with
  | [] => None
  | id_ :: rest =>
      match symbols !! id_ with
      | None => Some (id_, rest)
      | Some _ => new_id symbols rest
      end
  end.

Definition _new_id : M string :=
  fun st =>
    match new_id (symbols st) (draws st) with
    | Some (id_, rest) => (Ok id_, mkState (symbols st) (stdout st) rest)
    | None => (Raise (Unmodelled "no draw left"),
               mkState (symbols st) (stdout st) [])
    end.

(** [symbols.get(name) is None] *)
Definition unbound (name : string) : M bool :=
  fun st =>
    (Ok match symbols st !! name with
        | None => true
        | Some _ => false
        end, st).

(** [for node in nodes: code += before + render(node) + after] *)
Definition append_each (render : Node -> M string) (before after : string)
  : list Node -> string -> M string :=
  fix loop (nodes : list Node) (code : string) : M string :=
    match nodes with
    | [] => pure code
    | node :: nodes' =>
        text <- render node ;;
        loop nodes' (code ++ before ++ text ++ after)
    end.

Section Rendering.

(** [repr] of a float, a builtin that is not modelled. *)
Variable float_repr : spec_float -> string.

(** [str(v)], as an f-string formats a value *)
Definition str (v : option Value) : string :=
  match v with
  | None => "None"
  | Some (VInt z) => str_int z
  | Some (VBool b) => if b then "True" else "False"
  | Some (VFloat f) => float_repr f
  end.

Fixpoint compile (node : Node) (indent : nat) : M string :=
  match node with
  | Module statements =>
      let code := "#include <stdio.h>" ++ NEWLINE ++ "#include <time.h>"
                  ++ NEWLINE ++ NEWLINE ++ "int main() {" ++ NEWLINE in
      let indent := indent + 4 in
      let code := code ++ spaces indent ++ "clock_t start_time = clock();"
                  ++ NEWLINE in
      code <- append_each (fun statement => compile statement indent)
                EmptyString NEWLINE statements code ;;
      let lines :=
        ["double elapsed_time = (double)(clock() - start_time) / CLOCKS_PER_SEC;"
           ++ NEWLINE;
         "printf(" ++ DQUOTE ++ "Ausgef" ++ U_UMLAUT ++ "hrt in %f Sekunden."
           ++ BACKSLASH ++ "n" ++ DQUOTE ++ ", elapsed_time);" ++ NEWLINE;
         "return 0;" ++ NEWLINE] in
      let code := code ++ spaces indent ++ String.concat (spaces indent) lines in
      pure (code ++ "}")
  | Reference name standalone =>
      get_or_raise name ;;
      if standalone then pure (spaces indent ++ printf "%i" (", " ++ name))
      else pure name
  | Literal value standalone =>
      if standalone then pure (spaces indent ++ printf (str_int value) EmptyString)
      else pure (str_int value)
  | ArithmeticOp left_ op right_ standalone =>
      l <- compile left_ indent ;;
      let code := l ++ " " ++ op ++ " " in
      code <- (if substring_in op "*/" && substring_in (getattr_op right_) "+-"
               then r <- compile right_ indent ;; pure (code ++ "(" ++ r ++ ")")
               else r <- compile right_ indent ;; pure (code ++ r)) ;;
      if standalone then pure (spaces indent ++ printf "%i" (", " ++ code))
      else pure code
  | CompOp left_ op right_ =>
      l <- compile left_ indent ;;
      r <- compile right_ indent ;;
      pure (l ++ " " ++ op ++ " " ++ r)
  | Assignment name value =>
      is_new <- unbound name ;;
      type <- (if (is_new : bool) then
                 v <- eval value ;;
                 add name v ;;
                 pure "int "
               else pure EmptyString) ;;
      text <- compile value indent ;;
      pure (spaces indent ++ type ++ name ++ " = " ++ text ++ ";")
  | Ternary condition if_truthy if_falsy =>
      c <- compile condition indent ;;
      t <- compile if_truthy indent ;;
      f <- compile if_falsy indent ;;
      pure (c ++ " ? " ++ t ++ " : " ++ f)
  | IfStatement condition block elseif_statements else_block =>
      c <- compile condition indent ;;
      let code := spaces indent ++ "if (" ++ c ++ ") {" in
      code <- append_each (fun node => compile node (indent + 4))
                NEWLINE EmptyString block code ;;
      let code := code ++ NEWLINE ++ spaces indent ++ "}" in
      code <- append_each (fun node => compile node indent)
                (NEWLINE ++ spaces indent ++ "else ") EmptyString
                elseif_statements code ;;
      match else_block with
      | [] => pure code
      | _ =>
          let code := code ++ NEWLINE ++ spaces indent ++ "else {" in
          code <- append_each (fun node => compile node (indent + 4))
                    NEWLINE EmptyString else_block code ;;
          pure (code ++ NEWLINE ++ spaces indent ++ "}")
      end
  | Repeat times block =>
      id_ <- _new_id ;;
      n <- eval times ;;
      let code := spaces indent ++ "for (int " ++ id_ ++ " = 0; " ++ id_
                  ++ " < " ++ str n ++ "; " ++ id_ ++ "++) {" in
      code <- append_each (fun node => compile node (indent + 4))
                NEWLINE EmptyString block code ;;
      pure (code ++ NEWLINE ++ spaces indent ++ "}")
  end.

End Rendering.

(** ** The two drivers: lang/interpreter.py and lang/compiler.py *)

(** [SymbolTable()], with the identifiers the run will draw. *)
Definition SymbolTable (draws : list string) : State := mkState ∅ [] draws.


(** ... or [mod.compile(sym_table, indent=0)], whose text the script
    writes to a file. *)
Definition render (float_repr : spec_float -> string) (draws : list string)
    (source_code : string) : option (Result string * State) :=
  match tokenize source_code with
  | Some (Ok tokens) =>
      match parse tokens with
      | Some (Ok mod_) => Some (compile float_repr mod_ 0 (SymbolTable draws))
      | Some (Raise e) => Some (Raise e, SymbolTable draws)
      | None => None
      end
  | Some (Raise e) => Some (Raise e, SymbolTable draws)
  | None => None
  end.


(** ** The vocabulary of the specification *)



(** Every assignment inside [node] targets a name that is not empty. *)
Fixpoint assigns_named (node : Node) : bool :=
  match node with
  | Module statements => forallb assigns_named statements
  | Reference _ _ => true
  | Literal _ _ => true
  | ArithmeticOp left_ _ right_ _ => assigns_named left_ && assigns_named right_
  | CompOp left_ _ right_ => assigns_named left_ && assigns_named right_
  | Assignment name value =>
      negb (String.eqb name EmptyString) && assigns_named value
  | Ternary condition if_truthy if_falsy =>
      assigns_named condition && assigns_named if_truthy
      && assigns_named if_falsy
  | IfStatement condition block elseif_statements else_block =>
      assigns_named condition && forallb assigns_named block
      && forallb assigns_named elseif_statements
      && forallb assigns_named else_block
  | Repeat times block => assigns_named times && forallb assigns_named block
  end.

(** The empty name is bound to nothing. *)
Definition empty_name_unbound (st : State) : Prop :=
  symbols st !! EmptyString = None.



(** A nested-list induction principle for [Node]. *)
Section NodeInduction.

Variable P : Node -> Prop.
Hypothesis HModule : forall statements, Forall P statements -> P (Module statements).
Hypothesis HReference : forall name standalone, P (Reference name standalone).
Hypothesis HLiteral : forall value standalone, P (Literal value standalone).
Hypothesis HArithmeticOp : forall left_ op right_ standalone,
  P left_ -> P right_ -> P (ArithmeticOp left_ op right_ standalone).
Hypothesis HCompOp : forall left_ op right_,
  P left_ -> P right_ -> P (CompOp left_ op right_).
Hypothesis HAssignment : forall name value, P value -> P (Assignment name value).
Hypothesis HTernary : forall condition if_truthy if_falsy,
  P condition -> P if_truthy -> P if_falsy ->
  P (Ternary condition if_truthy if_falsy).
Hypothesis HIfStatement : forall condition block elseif_statements else_block,
  P condition -> Forall P block -> Forall P elseif_statements ->
  Forall P else_block ->
  P (IfStatement condition block elseif_statements else_block).
Hypothesis HRepeat : forall times block,
  P times -> Forall P block -> P (Repeat times block).

Fixpoint Node_nested_ind (node : Node) : P node :=
  let all := fix all (nodes : list Node) : Forall P nodes :=
    match nodes with
    | [] => @List.Forall_nil Node P
    | n :: nodes' =>
        @List.Forall_cons Node P n nodes' (Node_nested_ind n) (all nodes')
    end in
  match node with
  | Module statements => HModule statements (all statements)
  | Reference name standalone => HReference name standalone
  | Literal value standalone => HLiteral value standalone
  | ArithmeticOp left_ op right_ standalone =>
      HArithmeticOp left_ op right_ standalone
        (Node_nested_ind left_) (Node_nested_ind right_)
  | CompOp left_ op right_ =>
      HCompOp left_ op right_ (Node_nested_ind left_) (Node_nested_ind right_)
  | Assignment name value => HAssignment name value (Node_nested_ind value)
  | Ternary condition if_truthy if_falsy =>
      HTernary condition if_truthy if_falsy (Node_nested_ind condition)
        (Node_nested_ind if_truthy) (Node_nested_ind if_falsy)
  | IfStatement condition block elseif_statements else_block =>
      HIfStatement condition block elseif_statements else_block
        (Node_nested_ind condition) (all block) (all elseif_statements)
        (all else_block)
  | Repeat times block =>
      HRepeat times block (Node_nested_ind times) (all block)
  end.

End NodeInduction.

(** The token keeps to the typing of the lexer: an int on an INT token,
    a str that is not empty on every other token. *)
Definition well_typed (t : Token) : Prop :=
  match value t with
  | IntValue _ => type t = Some INT
  | StrValue s => type t <> Some INT /\ s <> EmptyString
  end.

(** With enough fuel, [p] returns [a] on [ts] and leaves [rest] unread. *)
Definition parses {A} (p : nat -> Parser A) (ts : list Token) (a : A)
    (rest : list Token) : Prop :=
  exists fuel, p fuel ts = Some (Ok (a, rest)).

(** Whatever [p] answers, [q] answers too: [q] has the fuel of [p] or more. *)
Definition refines {A} (p q : Parser A) : Prop :=
  forall ts r, p ts = Some r -> q ts = Some r.

(** [p] on [ts] establishes [Q] on what it returns; when [total], it
    also answers: its fuel is enough. *)
Definition wp {A} (total : bool) (p : Parser A) (ts : list Token)
    (Q : A -> list Token -> Prop) : Prop :=
  (total = true -> p ts <> None)
  /\ (forall a rest, p ts = Some (Ok (a, rest)) -> Q a rest).

Definition shorter (ts : list Token) {A} : A -> list Token -> Prop :=
  fun _ rest => length rest < length ts.

Definition not_longer (ts : list Token) {A} : A -> list Token -> Prop :=
  fun _ rest => length rest <= length ts.

Definition expr_total_on (ts : list Token) : Prop :=
  (forall n, 8 * length ts + 1 <= n -> wp true (factor n) ts (shorter ts))
  /\ (forall n, 8 * length ts + 2 <= n -> wp true (mult n) ts (shorter ts))
  /\ (forall n, 8 * length ts + 3 <= n -> wp true (expr n) ts (shorter ts)).

Definition statements_total_on (ts : list Token) : Prop :=
  (forall n c s, 8 * length ts + 4 <= n ->
     wp true (statements n c s) ts (not_longer ts))
  /\ (forall n, 8 * length ts + 1 <= n -> wp true (repeat n) ts (shorter ts))
  /\ (forall n, 8 * length ts + 1 <= n ->
      wp true (if_statement n) ts (shorter ts))
  /\ (forall n s, 8 * length ts + 2 <= n ->
      wp true (elif_loop n s) ts (not_longer ts)).

(** The block of a conditional or of a loop, from after its opening
    brace up to its closing brace. *)
Definition block_statements (fuel : nat) : Parser (list Node) :=
  statements fuel NOT_R_BRACE_CONDITION [].

(** A chain of comparisons after a first operand [node]: each link is an
    operator [<] or [>] and an arithmetic expression; [result] is the
    node all of it groups to the left. *)
Inductive comparison_chain : Node -> list Token -> Node -> list Token -> Prop :=
  | chain_done node ts :
      is_type GT (head ts) = false -> is_type LT (head ts) = false ->
      comparison_chain node ts node ts
  | chain_more node token op ts operand ts' result rest :
      type_in (type token) [GT; LT] = true ->
      value token = StrValue op ->
      parses expr ts operand ts' ->
      comparison_chain (CompOp node op operand) ts' result rest ->
      comparison_chain node (token :: ts) result rest.

(** One clause of a conditional: [<condition> { <statements> }]. *)
Definition clause (ts : list Token) (condition : Node) (block : list Node)
    (rest : list Token) : Prop :=
  exists l_brace ts1 r_brace,
    parses comparison_expr ts condition (l_brace :: ts1)
    /\ type l_brace = Some L_BRACE
    /\ parses block_statements ts1 block (r_brace :: rest)
    /\ type r_brace = Some R_BRACE.

(** What follows the first clause of a conditional statement:
    [(elif <clause>)* (else { <statements> })?], and then a token that is
    neither [elif] nor [else]. *)
Inductive elif_clauses
  : list Token -> list (Node * list Node) -> list Node -> list Token -> Prop :=
  | clauses_end ts :
      is_type ELIF (head ts) = false -> is_type ELSE (head ts) = false ->
      elif_clauses ts [] [] ts
  | clauses_else else_ l_brace ts block r_brace rest :
      type else_ = Some ELSE -> type l_brace = Some L_BRACE ->
      parses block_statements ts block (r_brace :: rest) ->
      type r_brace = Some R_BRACE ->
      is_type ELIF (head rest) = false -> is_type ELSE (head rest) = false ->
      elif_clauses (else_ :: l_brace :: ts) [] block rest
  | clauses_elif elif_ ts condition block ts' clauses else_block rest :
      type elif_ = Some ELIF ->
      clause ts condition block ts' ->
      elif_clauses ts' clauses else_block rest ->
      elif_clauses (elif_ :: ts) ((condition, block) :: clauses) else_block rest.

(** The node the parser builds for a conditional statement: each elif
    clause sits alone in the elif list of the clause before it, and the
    else block belongs to the last clause. *)
Fixpoint nested_conditional (condition : Node) (block : list Node)
    (clauses : list (Node * list Node)) (else_block : list Node) : Node :=
  match clauses with
  | [] => IfStatement condition block [] else_block
  | (condition', block') :: clauses' =>
      IfStatement condition block
        [nested_conditional condition' block' clauses' else_block] []
  end.

(** The node the specification describes: every elif clause in the elif
    list of the outermost conditional, each with empty lists of its own,
    and the else block on the outermost conditional. *)
Definition flat_conditional (condition : Node) (block : list Node)
    (clauses : list (Node * list Node)) (else_block : list Node) : Node :=
  IfStatement condition block
    (map (fun c => IfStatement (fst c) (snd c) [] []) clauses) else_block.

(** [m] keeps the invariant [I] of the state, whatever its outcome. *)
Definition preserves {A} (I : State -> Prop) (m : M A) : Prop :=
  forall st, I st -> I (snd (m st)).

(** The operator texts the parser can put into a node. *)
Definition arithmetic_op (op : string) : bool :=
  str_in op ["+"; "-"; "*"; "/"].

Definition comparison_op (op : string) : bool :=
  str_in op ["<"; ">"].


(** The program text [Module.compile] wraps around the rendered
    statements, each ending its line. *)
Definition c_program (statements : list string) : string :=
  "#include <stdio.h>" ++ NEWLINE ++ "#include <time.h>" ++ NEWLINE ++ NEWLINE
  ++ "int main() {" ++ NEWLINE
  ++ "    clock_t start_time = clock();" ++ NEWLINE
  ++ String.concat EmptyString (map (fun s => s ++ NEWLINE) statements)
  ++ "    double elapsed_time = (double)(clock() - start_time) / CLOCKS_PER_SEC;"
  ++ NEWLINE
  ++ "    printf(" ++ DQUOTE ++ "Ausgef" ++ U_UMLAUT ++ "hrt in %f Sekunden."
  ++ BACKSLASH ++ "n" ++ DQUOTE ++ ", elapsed_time);" ++ NEWLINE
  ++ "    return 0;" ++ NEWLINE ++ "}".

(** The sources and tokens of the examples. *)
Definition tokens_of (source_code : string) : list Token :=
  match tokenize source_code with
  | Some (Ok tokens) => tokens
  | _ => []
  end.

Definition chained_source : string := "if a < b < c { 1; }".

Definition chained_tokens : list Token :=
  Eval vm_compute in tokens_of chained_source.

Definition comparison_source : string := "let x = 1 < 2;".

Definition comparison_tokens : list Token :=
  Eval vm_compute in tokens_of comparison_source.

Definition elif_source : string :=
  "if a { 1; } elif b { 2; } elif c { 3; } else { 4; }".

Definition elif_tokens : list Token :=
  Eval vm_compute in tokens_of elif_source.

Definition minus_source : string := "let x = 1; let y = -x;".

Definition minus_tokens : list Token :=
  Eval vm_compute in tokens_of minus_source.



Definition no_token : Token := mkToken None (IntValue 0) 0 0.

(** What holds of a node the parser returns on well-typed tokens, and
    of the tokens it leaves. *)
Definition named_and_typed (node : Node) (rest : list Token) : Prop :=
  assigns_named node = true /\ Forall well_typed rest.

Definition all_named_and_typed (nodes : list Node) (rest : list Token) : Prop :=
  forallb assigns_named nodes = true /\ Forall well_typed rest.

(** ** More vocabulary: what the lexer emits *)

(** Every character of [s] passes [cond]. *)
Fixpoint all_chars (cond : ascii -> bool) (s : string) : bool :=
  match s with
  | EmptyString => true
  | String c s' => cond c && all_chars cond s'
  end.

(** The text of an identifier: it starts with a start character, holds
    identifier characters only, and is no keyword. *)
Definition identifier (s : string) : bool :=
  match s with
  | EmptyString => false
  | String c _ =>
      char_in c ID_VALID_START_CHARS
      && all_chars (fun c => char_in c ID_VALID_CHARS) s
      && negb (str_in s KEYWORDS)
  end.

(** The five kinds of token: an integer that is not negative, an
    identifier, a reserved word without a type, and a keyword or a
    punctuation mark with the text of its type; never a STRING. *)
Definition lexed (t : Token) : Prop :=
  match type t with
  | Some INT => exists z, value t = IntValue z /\ (0 <= z)%Z
  | Some ID => exists s, value t = StrValue s /\ identifier s = true
  | Some STRING => False
  | Some ty => value t = StrValue (TokenType_value ty)
  | None => exists s, value t = StrValue s /\ str_in s ["and"; "or"; "not"] = true
  end.

(** The number of newlines in a text. *)
Fixpoint newlines (s : string) : nat :=
  match s with
  | EmptyString => 0
  | String c s' => (if Ascii.eqb c NL then 1 else 0) + newlines s'
  end.

(** From [prev] on, the lines of the tokens never decrease. *)
Fixpoint lines_ascend (prev : nat) (tokens : list Token) : Prop :=
  match tokens with
  | [] => True
  | t :: tokens' => prev <= line t /\ lines_ascend (line t) tokens'
  end.

(** The line of the lexer plus the newlines still to read is constant. *)
Definition lines_left (lx : Lexer) : nat := lx_line lx + newlines (pending lx).

(** What the loop keeps: the tokens read so far are on ascending lines,
    none after the line the lexer is on. *)
Definition lines_so_far (lx : Lexer) (tokens : list Token) : Prop :=
  lines_ascend 1 tokens /\ Forall (fun u => line u <= lx_line lx) tokens
  /\ 1 <= lx_line lx.

(** A character the lexer reads outside a comment: a decimal digit, a
    letter or an underscore, a punctuation mark that is a token, or white
    space. *)
Definition plain (c : ascii) : bool :=
  match ascii_digit c with Some _ => true | None => false end
  || char_in c ID_VALID_START_CHARS
  || match TokenType_get (String c EmptyString) with
     | Some _ => true
     | None => false
     end
  || isspace c.

(** The texts without a character the lexer rejects: outside a comment
    every character is [plain] or starts a comment; a comment runs to the
    end of its line and may hold anything. *)
Fixpoint accepted (in_comment : bool) (s : string) : bool :=
  match s with
  | EmptyString => true
  | String c s' =>
      if in_comment then accepted (negb (Ascii.eqb c NL)) s'
      else if Ascii.eqb c "#" then accepted true s'
      else plain c && accepted false s'
  end.

(** ** More vocabulary: the trees the parser builds *)

(** An arithmetic expression, as [expr] builds one: literals, references
    and arithmetic nodes with one of the four operators, none of them a
    statement of its own. *)
Fixpoint arithmetic (node : Node) : bool :=
  match node with
  | Literal _ false => true
  | Reference _ false => true
  | ArithmeticOp left_ op right_ false =>
      arithmetic_op op && arithmetic left_ && arithmetic right_
  | _ => false
  end.

(** A comparison-expression: an arithmetic expression, or a comparison
    of a comparison-expression with an arithmetic expression. *)
Fixpoint comparison (node : Node) : bool :=
  match node with
  | CompOp left_ op right_ =>
      comparison_op op && comparison left_ && arithmetic right_
  | _ => arithmetic node
  end.

(** What an assignment binds: an arithmetic expression or a ternary. *)
Definition assigned (node : Node) : bool :=
  match node with
  | Ternary condition if_truthy if_falsy =>
      comparison condition && arithmetic if_truthy && arithmetic if_falsy
  | _ => arithmetic node
  end.

Definition is_IfStatement (node : Node) : bool :=
  match node with
  | IfStatement _ _ _ _ => true
  | _ => false
  end.

(** A statement: an arithmetic expression standing alone, an assignment
    to a name that is not empty, a loop or a conditional, whose blocks
    hold statements and whose [elif] entries are conditionals. *)
Fixpoint statement (node : Node) : bool :=
  match node with
  | Literal _ true => true
  | Reference _ true => true
  | ArithmeticOp left_ op right_ true =>
      arithmetic_op op && arithmetic left_ && arithmetic right_
  | Assignment name value =>
      negb (String.eqb name EmptyString) && assigned value
  | Repeat times block => arithmetic times && forallb statement block
  | IfStatement condition block elseif_statements else_block =>
      comparison condition && forallb statement block
      && forallb (fun node => is_IfStatement node && statement node)
           elseif_statements
      && forallb statement else_block
  | _ => false
  end.

Definition conditional (node : Node) : bool :=
  is_IfStatement node && statement node.

Definition program (node : Node) : bool :=
  match node with
  | Module statements => forallb statement statements
  | _ => false
  end.

(** What holds of a node a parser returns on tokens of the lexer, and of
    the tokens it leaves. *)
Definition built (P : Node -> bool) (node : Node) (rest : list Token) : Prop :=
  P node = true /\ Forall lexed rest.

Definition built_all (P : Node -> bool) (nodes : list Node) (rest : list Token)
  : Prop :=
  forallb P nodes = true /\ Forall lexed rest.

(** A chain of operators of [ops] after a first operand [node]: each
    link is an operator token and an operand that [operand] reads;
    [result] is the node all of it groups to the left. *)
Inductive operator_chain (ops : list TokenType)
    (mk : Node -> string -> Node -> Node) (operand : nat -> Parser Node)
  : Node -> list Token -> Node -> list Token -> Prop :=
  | operators_done node ts :
      match head ts with
      | Some token => type_in (type token) ops
      | None => false
      end = false ->
      operator_chain ops mk operand node ts node ts
  | operators_more node token op ts r ts' result rest :
      type_in (type token) ops = true ->
      value token = StrValue op ->
      parses operand ts r ts' ->
      operator_chain ops mk operand (mk node op r) ts' result rest ->
      operator_chain ops mk operand node (token :: ts) result rest.

Definition sum_source : string := "1 - 2 * 3 - 4;".

Definition sum_tokens : list Token :=
  Eval vm_compute in tokens_of sum_source.

Definition product_source : string := "8 / 4 / 2;".

Definition product_tokens : list Token :=
  Eval vm_compute in tokens_of product_source.

(** ** More vocabulary: running a program *)

(** The errors a run of a parsed program can end in: a [ValueError] (the
    one for an unbound variable), a division by zero, an overflow of a
    float, a type error. *)
Definition run_error (e : Exn) : bool :=
  match e with
  | ValueError _ => true
  | ZeroDivisionError => true
  | OverflowError => true
  | TypeError => true
  | _ => false
  end.

(** [st'] comes after [st]: every name bound in [st] is bound in [st'],
    and [st'] has printed the lines of [st], and maybe more. *)
Definition grows (st st' : State) : Prop :=
  (forall name, is_Some (symbols st !! name) -> is_Some (symbols st' !! name))
  /\ (exists printed, stdout st' = (stdout st ++ printed)%list)
  /\ draws st' = draws st.

(** [m] moves every state along [rel]; what it returns is in [R], and
    what it raises is a [run_error]. *)
Definition respects {A} (rel : State -> State -> Prop) (R : A -> Prop)
    (m : M A) : Prop :=
  forall st,
    rel st (snd (m st))
    /\ match fst (m st) with
       | Ok a => R a
       | Raise e => run_error e = true
       end.

Definition anything {A} : A -> Prop := fun _ => True.


(** What [IfStatement.eval] does once its own condition is false. *)
Definition otherwise (elseif_statements else_block : list Node)
  : M (option Value) :=
  handled <- first_truthy eval elseif_statements ;;
  if (handled : bool) then pure (Some (VBool true))
  else
    for_each eval else_block ;;
    pure (Some (VBool false)).


(** ** More vocabulary: rendering *)

(** The names an expression refers to, from left to right. *)
Fixpoint names (node : Node) : list string :=
  match node with
  | Reference name _ => [name]
  | ArithmeticOp left_ _ right_ _ => (names left_ ++ names right_)%list
  | CompOp left_ _ right_ => (names left_ ++ names right_)%list
  | Ternary condition if_truthy if_falsy =>
      (names condition ++ names if_truthy ++ names if_falsy)%list
  | _ => []
  end.

Definition bound (st : State) (name : string) : Prop :=
  is_Some (symbols st !! name).

(** The outcome of rendering an expression in [st]: a text when every
    name is bound, the error for a name that is not bound otherwise. *)
Definition rendered (st : State) (node : Node) (r : Result string) : Prop :=
  match r with
  | Ok _ => Forall (bound st) (names node)
  | Raise e =>
      exists name,
        In name (names node) /\ symbols st !! name = None
        /\ e = ValueError (VariableNotFound name)
  end.

(** Rendering [node] leaves the state as it is, with the outcome of an
    expression. *)
Definition renders (float_repr : spec_float -> string) (node : Node) : Prop :=
  forall indent st,
    snd (compile float_repr node indent st) = st
    /\ rendered st node (fst (compile float_repr node indent st)).

(** [p] before the text of an outcome. *)
Definition prepend (p : string) (x : Result string * State)
  : Result string * State :=
  match x with
  | (Ok text, st) => (Ok (p ++ text), st)
  | other => other
  end.

(** What [IfStatement.compile] appends after the closing brace of its
    own block: the [elif] entries, then the [else] block. *)
Definition render_otherwise (float_repr : spec_float -> string) (indent : nat)
    (elseif_statements else_block : list Node) (code : string) : M string :=
  code <- append_each (fun node => compile float_repr node indent)
            (NEWLINE ++ spaces indent ++ "else ") EmptyString
            elseif_statements code ;;
  match else_block with
  | [] => pure code
  | _ =>
      let code := code ++ NEWLINE ++ spaces indent ++ "else {" in
      code <- append_each (fun node => compile float_repr node (indent + 4))
                NEWLINE EmptyString else_block code ;;
      pure (code ++ NEWLINE ++ spaces indent ++ "}")
  end.

(** The errors the parser raises. *)
Definition parse_error (e : Exn) : bool :=
  match e with
  | EOFError => true
  | ValueError (Expected _ _) => true
  | ValueError BadStatement => true
  | ValueError CantAssign => true
  | ValueError NoMessage => true
  | _ => false
  end.

(** [p] on [ts] establishes [Q] on what it returns, and what it raises
    is a [parse_error]. *)
Definition spec {A} (p : Parser A) (ts : list Token)
    (Q : A -> list Token -> Prop) : Prop :=
  (forall a rest, p ts = Some (Ok (a, rest)) -> Q a rest)
  /\ (forall e, p ts = Some (Raise e) -> parse_error e = true).


(** ** More vocabulary: programs without division *)









(** The nodes rendered one after the other at one indentation, each in
    the state the one before left: their texts, and the last state. *)
Inductive rendered_each (float_repr : spec_float -> string) (indent : nat)
  : list Node -> State -> list string -> State -> Prop :=
  | rendered_none st : rendered_each float_repr indent [] st [] st
  | rendered_next node nodes st text st1 texts st2 :
      compile float_repr node indent st = (Ok text, st1) ->
      rendered_each float_repr indent nodes st1 texts st2 ->
      rendered_each float_repr indent (node :: nodes) st (text :: texts) st2.

(** ** More vocabulary: the digits of an integer

    Python bounds the digits that [int(...)] reads and [str(...)] writes
    ([sys.int_info.default_max_str_digits]) and raises a [ValueError]
    beyond; the embedding has no such bound, so what depends on it is
    stated within the bound. *)

Definition int_max_str_digits : nat := 4300.

(** The longest run of digits in [s], after a run of [run] digits. *)
Fixpoint longest_digit_run (run : nat) (s : string) : nat :=
  match s with
  | EmptyString => run
  | String c s' =>
      if isdigit c then longest_digit_run (S run) s'
      else Nat.max run (longest_digit_run 0 s')
  end.

(** [str(z)] is within the bound. *)
Definition printable_int (z : Z) : bool :=
  (Z.abs z <? 10 ^ Z.of_nat int_max_str_digits)%Z.

Definition printable (v : Value) : bool :=
  match v with
  | VInt z => printable_int z
  | _ => true
  end.

(** Every literal of an expression is within the bound. *)
Fixpoint literals_printable (node : Node) : bool :=
  match node with
  | Literal value _ => printable_int value
  | ArithmeticOp left_ _ right_ _ =>
      literals_printable left_ && literals_printable right_
  | CompOp left_ _ right_ =>
      literals_printable left_ && literals_printable right_
  | Ternary condition if_truthy if_falsy =>
      literals_printable condition && literals_printable if_truthy
      && literals_printable if_falsy
  | _ => true
  end.

(** * Evaluation *)

Lemma and_then_ok {A B} (m : M A) (f : A -> M B) st a st' :
  m st = (Ok a, st') -> and_then m f st = f a st'.
Proof. intros H. unfold and_then. now rewrite H. Qed.





(** C5: once the condition of a Ternary node has been evaluated, the
    result is that of the taken branch alone; the other branch is not
    evaluated, so replacing it by any node, such as a reference to an
    undefined identifier, changes nothing. *)
Theorem ternary_evaluates_one_branch :
  forall condition if_truthy if_falsy st c st1,
    eval condition st = (Ok c, st1) ->
    eval (Ternary condition if_truthy if_falsy) st
      = eval (if truthy c then if_truthy else if_falsy) st1
    /\ (truthy c = false ->
        forall other,
          eval (Ternary condition other if_falsy) st
          = eval (Ternary condition if_truthy if_falsy) st)
    /\ (truthy c = true ->
        forall other,
          eval (Ternary condition if_truthy other) st
          = eval (Ternary condition if_truthy if_falsy) st)
    /\ (truthy c = false ->
        forall name standalone v st2,
          eval if_falsy st1 = (Ok v, st2) ->
          eval (Ternary condition (Reference name standalone) if_falsy) st
          = (Ok v, st2)).
Proof.
  intros condition if_truthy if_falsy st c st1 Hc.
  assert (Hstep : forall t f,
             eval (Ternary condition t f) st
             = eval (if truthy c then t else f) st1).
  { intros t f. simpl. rewrite (and_then_ok _ _ _ _ _ Hc).
    now destruct (truthy c). }
  repeat split.
  - apply Hstep.
  - intros Hfalse other. rewrite !Hstep, Hfalse. reflexivity.
  - intros Htrue other. rewrite !Hstep, Htrue. reflexivity.
  - intros Hfalse name standalone v st2 Hv. rewrite Hstep, Hfalse. exact Hv.
Qed.

Lemma ternary_one_branch_witness :
  let condition := CompOp (Literal 2 false) "<" (Literal 1 false) in
  let st := SymbolTable [] in
  eval condition st = (Ok (Some (VBool false)), st)
  /\ eval (Reference "undefined" false) st
     = (Raise (ValueError (VariableNotFound "undefined")), st)
  /\ eval (Ternary condition (Reference "undefined" false) (Literal 20 false)) st
     = (Ok (Some (VInt 20)), st).
Proof.
  intros condition st.
  assert (H : eval condition st = (Ok (Some (VBool false)), st)) by reflexivity.
  split; [exact H|]. split; [reflexivity|].
  destruct (ternary_evaluates_one_branch condition (Literal 10 false)
              (Literal 20 false) st _ _ H) as (_ & _ & _ & Hundefined).
  apply Hundefined; reflexivity.
Defined.








(** * The lexer *)

Lemma advance_after_newline lx rest :
  pending lx = String NL rest ->
  advance lx = mkLexer rest (lx_line lx + 1) 2.
Proof. intros H. unfold advance, char. rewrite H. reflexivity. Qed.

Lemma advance_within_line lx c rest :
  pending lx = String c rest -> c <> NL ->
  advance lx = mkLexer rest (lx_line lx) (column lx + 1).
Proof.
  intros H Hc. unfold advance, char. rewrite H.
  destruct (Ascii.eqb_spec c NL); [contradiction|reflexivity].
Qed.

Lemma pending_advance lx :
  String.length (pending (advance lx)) = pred (String.length (pending lx)).
Proof. unfold advance. destruct (char lx) as [ch|]; [destruct (Ascii.eqb ch NL)|];
  simpl; destruct (pending lx); reflexivity. Qed.

Lemma char_some lx c :
  char lx = Some c -> exists rest, pending lx = String c rest.
Proof.
  unfold char. destruct (pending lx) as [|c' rest]; [discriminate|].
  intros [= ->]. eauto.
Qed.

Lemma advance_while_le n cond lx :
  String.length (pending (advance_while n cond lx))
  <= String.length (pending lx).
Proof.
  revert lx. induction n as [|n IH]; intros lx; simpl; [lia|].
  destruct (char lx) as [c|]; [|lia].
  destruct (cond c); [|lia].
  specialize (IH (advance lx)). rewrite pending_advance in IH. lia.
Qed.

Lemma advance_while_lt cond lx c :
  char lx = Some c -> cond c = true ->
  String.length (pending (advance_while (String.length (pending lx)) cond lx))
  < String.length (pending lx).
Proof.
  intros Hc Hcond. destruct (char_some lx c Hc) as [rest Hp].
  pose proof (advance_while_le (String.length rest) cond (advance lx)) as H.
  rewrite pending_advance, Hp in H.
  rewrite Hp. cbn [String.length advance_while].
  rewrite Hc, Hcond. simpl in *. lia.
Qed.

Lemma get_chars_loop_le n cond lx :
  String.length (pending (snd (get_chars_loop n cond lx)))
  <= String.length (pending lx).
Proof.
  revert lx. induction n as [|n IH]; intros lx; simpl; [lia|].
  destruct (char lx) as [c|]; [|simpl; lia].
  destruct (cond c); [|simpl; lia].
  specialize (IH (advance lx)). rewrite pending_advance in IH.
  destruct (get_chars_loop n cond (advance lx)). simpl in *. lia.
Qed.

(** When the current character passes the condition, [get_chars] reads
    it: the text starts with it, and fewer characters are pending. *)
Lemma get_chars_first cond lx c :
  char lx = Some c -> cond c = true ->
  (exists s, fst (get_chars cond lx) = String c s)
  /\ String.length (pending (snd (get_chars cond lx)))
     < String.length (pending lx).
Proof.
  intros Hc Hcond. destruct (char_some lx c Hc) as [rest Hp].
  pose proof (get_chars_loop_le (String.length rest) cond (advance lx)) as H.
  rewrite pending_advance, Hp in H.
  unfold get_chars. rewrite Hp. cbn [String.length get_chars_loop].
  rewrite Hc, Hcond.
  destruct (get_chars_loop _ cond (advance lx)) as [s lx']. simpl in *.
  split; [eauto|lia].
Qed.

(** The fuel [tokenize] gives its loop is enough: every turn of the loop
    reads at least one character. *)
Lemma tokenize_loop_total :
  forall fuel lx tokens,
    String.length (pending lx) <= fuel -> tokenize_loop fuel lx tokens <> None.
Proof.
  induction fuel as [|fuel IH]; intros lx tokens Hfuel.
  - simpl. destruct (char lx) as [c|] eqn:Hc; [|discriminate].
    destruct (char_some lx c Hc) as [rest Hp]. rewrite Hp in Hfuel.
    simpl in Hfuel. lia.
  - cbn [tokenize_loop]. destruct (char lx) as [c|] eqn:Hc; [|discriminate].
    destruct (isdigit c) eqn:Hdigit.
    { destruct (get_chars_first isdigit lx c Hc Hdigit) as [_ Hlt].
      destruct (get_chars isdigit lx) as [integer lx']. simpl in Hlt.
      destruct (py_int integer); [|discriminate]. apply IH. lia. }
    destruct (char_in c ID_VALID_START_CHARS) eqn:Hstart.
    { assert (Hid : char_in c ID_VALID_CHARS = true).
      { revert Hstart. destruct c as [[] [] [] [] [] [] [] []];
          vm_compute; congruence. }
      destruct (get_chars_first (fun c => char_in c ID_VALID_CHARS) lx c Hc Hid)
        as [_ Hlt].
      destruct (get_chars _ lx) as [identifier lx']. simpl in Hlt.
      apply IH. lia. }
    destruct (char_some lx c Hc) as [rest Hp].
    destruct (TokenType_get (String c EmptyString)).
    { apply IH. rewrite pending_advance, Hp in *. simpl in *. lia. }
    destruct (isspace c) eqn:Hspace.
    { apply IH. pose proof (advance_while_lt isspace lx c Hc Hspace).
      unfold skip_whitespace. lia. }
    destruct (Ascii.eqb c "#") eqn:Hhash; [|discriminate].
    apply IH. unfold skip_comment.
    assert (Hcond : negb (Ascii.eqb c NL) = true).
    { apply Ascii.eqb_eq in Hhash. subst c. reflexivity. }
    pose proof (advance_while_lt (fun c => negb (Ascii.eqb c NL)) lx c Hc Hcond).
    lia.
Qed.

Lemma tokenize_total source_code : tokenize source_code <> None.
Proof.
  unfold tokenize, Lexer_init.
  destruct source_code as [|c s]; [discriminate|].
  apply tokenize_loop_total. simpl. lia.
Qed.

Lemma TokenType_get_value s t :
  TokenType_get s = Some t -> TokenType_value t = s.
Proof.
  unfold TokenType_get. intros H. apply List.find_some in H as [_ H].
  now apply String.eqb_eq in H.
Qed.

Lemma TokenType_value_not_empty t : TokenType_value t <> EmptyString.
Proof. destruct t; discriminate. Qed.

(** Every token the lexer emits is well typed. *)
Lemma tokenize_loop_well_typed :
  forall fuel lx tokens out,
    Forall well_typed tokens ->
    tokenize_loop fuel lx tokens = Some (Ok out) ->
    Forall well_typed out.
Proof.
  induction fuel as [|fuel IH]; intros lx tokens out Hwt; cbn [tokenize_loop].
  - destruct (char lx); [discriminate|]. now intros [= <-].
  - destruct (char lx) as [c|] eqn:Hc; [|now intros [= <-]].
    destruct (isdigit c) eqn:Hdigit.
    { destruct (get_chars isdigit lx) as [integer lx'].
      destruct (py_int integer) as [z|]; [|discriminate].
      apply IH. apply Forall_app. split; [exact Hwt|].
      constructor; [reflexivity|constructor]. }
    destruct (char_in c ID_VALID_START_CHARS) eqn:Hstart.
    { assert (Hid : char_in c ID_VALID_CHARS = true).
      { revert Hstart. destruct c as [[] [] [] [] [] [] [] []];
          vm_compute; congruence. }
      destruct (get_chars_first (fun c => char_in c ID_VALID_CHARS) lx c Hc Hid)
        as [[s Hs] _].
      destruct (get_chars _ lx) as [identifier lx']. simpl in Hs. subst.
      apply IH. apply Forall_app. split; [exact Hwt|].
      constructor; [|constructor]. unfold well_typed. cbn [value type].
      split; [|discriminate].
      destruct (str_in (String c s) KEYWORDS) eqn:Hkw; [|discriminate].
      intros Hget. apply TokenType_get_value in Hget.
      rewrite <- Hget in Hkw. discriminate. }
    destruct (TokenType_get (String c EmptyString)) as [t_type|] eqn:Hget.
    { apply IH. apply Forall_app. split; [exact Hwt|].
      constructor; [|constructor]. unfold well_typed. cbn [value type].
      split; [|apply TokenType_value_not_empty].
      intros [= ->]. apply TokenType_get_value in Hget. discriminate. }
    destruct (isspace c); [now apply IH|].
    destruct (Ascii.eqb c "#"); [now apply IH|discriminate].
Qed.

Lemma tokenize_well_typed source_code tokens :
  tokenize source_code = Some (Ok tokens) -> Forall well_typed tokens.
Proof.
  unfold tokenize. destruct (Lexer_init source_code) as [lx|]; [|discriminate].
  apply tokenize_loop_well_typed. constructor.
Qed.

(** C9, on the code: the first character is at line 1, column 1 and the
    column grows by one per character, but the character after a newline
    is at column 2 of the next line, not at column 1. *)
Theorem column_after_newline_is_two :
  tokenize ("12 3" ++ String NL "4")
    = Some (Ok [mkToken (Some INT) (IntValue 12) 1 1;
                mkToken (Some INT) (IntValue 3) 1 4;
                mkToken (Some INT) (IntValue 4) 2 2])
  /\ (forall lx rest,
        pending lx = String NL rest ->
        lx_line (advance lx) = lx_line lx + 1 /\ column (advance lx) = 2).
Proof.
  split; [vm_compute; reflexivity|].
  intros lx rest H. rewrite (advance_after_newline lx rest H). auto.
Qed.
(** * The parser *)

Local Open Scope parser_scope.

(** ** More fuel changes no answer *)

Lemma refines_refl {A} (p : Parser A) : refines p p.
Proof. intros ts r H; exact H. Qed.

Lemma refines_bind {A B} (p p' : Parser A) (f f' : A -> Parser B) :
  refines p p' -> (forall a, refines (f a) (f' a)) ->
  refines (bind p f) (bind p' f').
Proof.
  intros Hp Hf ts r. unfold bind.
  destruct (p ts) as [[[a ts']|e]|] eqn:E; [| |discriminate].
  - rewrite (Hp _ _ E). apply Hf.
  - rewrite (Hp _ _ E). auto.
Qed.

Ltac refines_tac :=
  repeat first
    [ assumption
    | solve [auto]
    | apply refines_refl
    | apply refines_bind; [|intros ?]
    | match goal with
      | |- refines (match ?x with _ => _ end) _ => destruct x
      | |- refines (if ?b then _ else _) _ => destruct b
      end ].

Lemma while_op_mono ops mk (operand operand' : Parser Node) :
  refines operand operand' ->
  forall n m, n <= m -> forall node,
    refines (while_op n ops mk operand node) (while_op m ops mk operand' node).
Proof.
  intros Hop. induction n as [|n IH]; intros m Hle node.
  - intros ts r H. discriminate.
  - destruct m as [|m]; [lia|]. simpl.
    assert (Hrec := IH m ltac:(lia)).
    refines_tac.
Qed.

Lemma expr_mono n : forall m, n <= m ->
  refines (factor n) (factor m) /\ refines (mult n) (mult m) /\ refines (expr n) (expr m).
Proof.
  induction n as [|n IH]; intros m Hle.
  - repeat split; intros ts r H; discriminate.
  - destruct m as [|m]; [lia|].
    destruct (IH m ltac:(lia)) as (Hf & Hm & He).
    repeat split; cbn [factor mult expr].
    + refines_tac.
    + refines_tac. apply while_op_mono; [assumption|lia].
    + refines_tac. apply while_op_mono; [assumption|lia].
Qed.

Lemma comparison_expr_mono n m : n <= m -> refines (comparison_expr n) (comparison_expr m).
Proof.
  intros Hle. destruct (expr_mono n m Hle) as (_ & _ & He).
  unfold comparison_expr. refines_tac. apply while_op_mono; [assumption|lia].
Qed.

Lemma ternary_mono n m c : n <= m -> refines (ternary n c) (ternary m c).
Proof.
  intros Hle. destruct (expr_mono n m Hle) as (_ & _ & He).
  pose proof (comparison_expr_mono n m Hle).
  unfold ternary. refines_tac.
Qed.

Lemma assignment_mono n m : n <= m -> refines (assignment n) (assignment m).
Proof.
  intros Hle. pose proof (comparison_expr_mono n m Hle).
  pose proof (fun c => ternary_mono n m c Hle).
  unfold assignment. refines_tac.
Qed.

Lemma statements_mono n : forall m, n <= m ->
  (forall c s, refines (statements n c s) (statements m c s))
  /\ refines (repeat n) (repeat m)
  /\ refines (if_statement n) (if_statement m)
  /\ (forall s, refines (elif_loop n s) (elif_loop m s)).
Proof.
  induction n as [|n IH]; intros m Hle.
  - repeat split; intros; intros ts r H; discriminate.
  - destruct m as [|m]; [lia|].
    destruct (IH m ltac:(lia)) as (Hs & Hr & Hi & He).
    destruct (expr_mono n m ltac:(lia)) as (_ & _ & Hx).
    pose proof (comparison_expr_mono n m ltac:(lia)).
    pose proof (assignment_mono n m ltac:(lia)).
    repeat split; intros; cbn [statements repeat if_statement elif_loop];
      refines_tac; auto.
Qed.

(** ** The fuel of [parse] is enough *)

Lemma wp_ret {A} t (a : A) ts (Q : A -> list Token -> Prop) :
  Q a ts -> wp t (ret a) ts Q.
Proof. intros H. split; [discriminate|]. intros a' rest [= <- <-]. exact H. Qed.

Lemma wp_fail {A} t e ts (Q : A -> list Token -> Prop) : wp t (fail e) ts Q.
Proof. split; discriminate. Qed.

Lemma wp_out_of_fuel {A} ts (Q : A -> list Token -> Prop) :
  wp false out_of_fuel ts Q.
Proof. split; discriminate. Qed.

Lemma wp_bind {A B} t (p : Parser A) (f : A -> Parser B) ts Q :
  wp t p ts (fun a ts' => wp t (f a) ts' Q) -> wp t (bind p f) ts Q.
Proof.
  unfold wp, bind. intros [Hdef Hpost].
  destruct (p ts) as [[[a ts']|e]|].
  - exact (Hpost a ts' eq_refl).
  - split; discriminate.
  - split; [|discriminate]. intros Ht. now destruct (Hdef Ht).
Qed.

Lemma wp_conseq {A} t (p : Parser A) ts (Q Q' : A -> list Token -> Prop) :
  wp t p ts Q -> (forall a rest, Q a rest -> Q' a rest) -> wp t p ts Q'.
Proof. intros [Hdef Hpost] HQ. split; [exact Hdef|]. intros a rest H. auto. Qed.

Lemma wp_get_token t ts (Q : option Token -> list Token -> Prop) :
  Q (head ts) ts -> wp t get_token ts Q.
Proof. intros H. split; [discriminate|]. intros a rest [= <- <-]. exact H. Qed.

Lemma wp_eat t token_types ts (Q : unit -> list Token -> Prop) :
  (forall tok rest,
     ts = tok :: rest -> type_in (type tok) token_types = true -> Q tt rest) ->
  wp t (eat token_types) ts Q.
Proof.
  intros H. split.
  - destruct ts as [|tok rest]; simpl; [discriminate|].
    destruct (type_in _ _); discriminate.
  - intros [] rest. destruct ts as [|tok rest']; simpl; [discriminate|].
    destruct (type_in _ _) eqn:E; [|discriminate]. intros [= <-]. eauto.
Qed.

Lemma wp_str_value t token ts (Q : string -> list Token -> Prop) :
  (forall s, value token = StrValue s -> Q s ts) -> wp t (str_value token) ts Q.
Proof.
  intros H. unfold str_value. destruct (value token); [apply wp_fail|].
  apply wp_ret. auto.
Qed.

Lemma wp_int_value t token ts (Q : Z -> list Token -> Prop) :
  (forall z, Q z ts) -> wp t (int_value token) ts Q.
Proof.
  intros H. unfold int_value. destruct (value token); [|apply wp_fail].
  apply wp_ret. auto.
Qed.

Ltac wp_step :=
  cbv beta iota;
  lazymatch goal with
  | |- wp _ (bind _ _) _ _ => apply wp_bind
  | |- wp _ get_token _ _ => apply wp_get_token
  | |- wp _ (ret _) _ _ => apply wp_ret
  | |- wp _ (fail _) _ _ => apply wp_fail
  | |- wp _ (eat _) _ _ => apply wp_eat; intros ? ? -> ?
  | |- wp _ (str_value _) _ _ => apply wp_str_value; intros ? ?
  | |- wp _ (int_value _) _ _ => apply wp_int_value; intros ?
  | |- wp _ (match ?x with _ => _ end) _ _ => destruct x eqn:?
  | |- wp _ (if ?b then _ else _) _ _ => destruct b eqn:?
  end.


Lemma while_op_total ops mk operand :
  forall fuel ts node,
    length ts < fuel ->
    (forall ts', length ts' < length ts -> wp true operand ts' (shorter ts')) ->
    wp true (while_op fuel ops mk operand node) ts (not_longer ts).
Proof.
  induction fuel as [|fuel IH]; intros ts node Hfuel Hop; [lia|].
  cbn [while_op]. unfold not_longer.
  repeat wp_step; try lia.
  apply (wp_conseq _ _ _ _ _ (Hop rest ltac:(simpl; lia))).
  unfold shorter. intros r rest' Hlen.
  repeat wp_step.
  apply (wp_conseq _ _ _ _ _ (IH rest' (mk node s r) ltac:(simpl in *; lia)
           ltac:(intros; apply Hop; simpl in *; lia))).
  unfold not_longer. intros; simpl in *; lia.
Qed.

Ltac wp_call H :=
  apply (wp_conseq _ _ _ _ _ H); unfold shorter, not_longer; intros ? ? ?.

Ltac len := unfold shorter, not_longer in *; simpl in *; lia.


Lemma expr_total : forall L ts, length ts <= L -> expr_total_on ts.
Proof.
  induction L as [L IH] using lt_wf_ind. intros ts Hlen.
  assert (IHs : forall ts', length ts' < length ts -> expr_total_on ts')
    by (intros ts' Hlt; apply (IH (length ts')); lia).
  clear IH.
  assert (Hfactor : forall n, 8 * length ts + 1 <= n ->
                      wp true (factor n) ts (shorter ts)).
  { intros [|n] Hn; [lia|]. cbn [factor]. unfold TOKEN_NODE.
    repeat wp_step; try len.
    destruct (IHs rest ltac:(len)) as (_ & _ & Hexpr).
    wp_call (Hexpr n ltac:(len)). repeat wp_step. len. }
  assert (Hmult : forall n, 8 * length ts + 2 <= n ->
                    wp true (mult n) ts (shorter ts)).
  { intros [|n] Hn; [lia|]. cbn [mult]. wp_step.
    wp_call (Hfactor n ltac:(lia)).
    wp_call (while_op_total [MUL; DIV] mkArithmeticOp (factor n) n rest a
               ltac:(len)
               ltac:(intros ts' Hlt; apply (IHs ts' ltac:(len)); len)).
    len. }
  assert (Hexpr : forall n, 8 * length ts + 3 <= n ->
                    wp true (expr n) ts (shorter ts)).
  { intros [|n] Hn; [lia|]. cbn [expr]. wp_step.
    wp_call (Hmult n ltac:(lia)).
    wp_call (while_op_total [PLUS; MINUS] mkArithmeticOp (mult n) n rest a
               ltac:(len)
               ltac:(intros ts' Hlt; apply (IHs ts' ltac:(len)); len)).
    len. }
  exact (conj Hfactor (conj Hmult Hexpr)).
Qed.

Lemma expr_total_n ts n : 8 * length ts + 3 <= n -> wp true (expr n) ts (shorter ts).
Proof. intros H. now apply (expr_total (length ts) ts (le_n _)). Qed.

Lemma comparison_expr_total ts n :
  8 * length ts + 3 <= n -> wp true (comparison_expr n) ts (shorter ts).
Proof.
  intros Hn. unfold comparison_expr. wp_step.
  wp_call (expr_total_n ts n Hn).
  wp_call (while_op_total [GT; LT] CompOp (expr n) n rest a ltac:(len)
             ltac:(intros ts' Hlt; apply expr_total_n; len)).
  len.
Qed.


Ltac wp_expr :=
  lazymatch goal with
  | |- wp true (expr ?n) ?ts _ => wp_call (expr_total_n ts n ltac:(len))
  | |- wp true (comparison_expr ?n) ?ts _ =>
      wp_call (comparison_expr_total ts n ltac:(len))
  end.

Lemma ternary_total ts n c :
  8 * length ts + 3 <= n -> wp true (ternary n (Some c)) ts (shorter ts).
Proof.
  intros Hn. unfold ternary. repeat first [wp_step | wp_expr]. len.
Qed.

Lemma assignment_total ts n :
  8 * length ts <= n + 5 -> wp true (assignment n) ts (shorter ts).
Proof.
  intros Hn. unfold assignment. repeat first [wp_step | wp_expr]; try len.
  match goal with
  | |- wp true (ternary n (Some ?c)) ?ts _ =>
      wp_call (ternary_total ts n c ltac:(len))
  end.
  repeat wp_step; len.
Qed.

Ltac wp_simple :=
  first
    [ wp_step
    | wp_expr
    | lazymatch goal with
      | |- wp true (assignment ?n) ?ts _ =>
          wp_call (assignment_total ts n ltac:(len))
      end ].


Lemma statements_total : forall L ts, length ts <= L -> statements_total_on ts.
Proof.
  induction L as [L IH] using lt_wf_ind. intros ts Hlen.
  assert (IHs : forall ts', length ts' < length ts -> statements_total_on ts')
    by (intros ts' Hlt; apply (IH (length ts')); lia).
  clear IH.
  assert (Hblock : forall n c s ts', length ts' < length ts ->
            8 * length ts' + 4 <= n ->
            wp true (statements n c s) ts' (not_longer ts'))
    by (intros n c s ts' Hlt; apply (IHs ts' Hlt)).
  assert (Helif : forall n s ts', length ts' < length ts ->
            8 * length ts' + 2 <= n ->
            wp true (elif_loop n s) ts' (not_longer ts'))
    by (intros n s ts' Hlt; apply (IHs ts' Hlt)).
  assert (Hrepeat : forall n, 8 * length ts + 1 <= n ->
                      wp true (repeat n) ts (shorter ts)).
  { intros [|n] Hn; [lia|]. cbn [repeat].
    repeat first
      [ wp_simple
      | lazymatch goal with
        | |- wp true (statements ?n ?c ?s) ?ts' _ =>
            wp_call (Hblock n c s ts' ltac:(len) ltac:(len))
        end ]; len. }
  assert (Hif : forall n, 8 * length ts + 1 <= n ->
                  wp true (if_statement n) ts (shorter ts)).
  { intros [|n] Hn; [lia|]. cbn [if_statement].
    repeat first
      [ wp_simple
      | lazymatch goal with
        | |- wp true (statements ?n ?c ?s) ?ts' _ =>
            wp_call (Hblock n c s ts' ltac:(len) ltac:(len))
        | |- wp true (elif_loop ?n ?s) ?ts' _ =>
            wp_call (Helif n s ts' ltac:(len) ltac:(len))
        end ]; len. }
  assert (Helif_here : forall n s, 8 * length ts + 2 <= n ->
                         wp true (elif_loop n s) ts (not_longer ts)).
  { intros [|n] s Hn; [lia|]. cbn [elif_loop].
    repeat first
      [ wp_simple
      | lazymatch goal with
        | |- wp true (if_statement ?n) ?ts' _ => wp_call (Hif n ltac:(len))
        | |- wp true (elif_loop ?n ?s) ?ts' _ =>
            wp_call (Helif n s ts' ltac:(len) ltac:(len))
        end ]; len. }
  assert (Hstatements : forall n c s, 8 * length ts + 4 <= n ->
                          wp true (statements n c s) ts (not_longer ts)).
  { intros [|n] c s Hn; [lia|]. cbn [statements].
    repeat first
      [ wp_simple
      | lazymatch goal with
        | |- wp true (repeat ?n) ?ts' _ => wp_call (Hrepeat n ltac:(len))
        | |- wp true (if_statement ?n) ?ts' _ => wp_call (Hif n ltac:(len))
        | |- wp true (statements ?n ?c ?s) ?ts' _ =>
            wp_call (Hblock n c s ts' ltac:(len) ltac:(len))
        end ]; len. }
  exact (conj Hstatements (conj Hrepeat (conj Hif Helif_here))).
Qed.

Theorem parse_total tokens : parse tokens <> None.
Proof.
  unfold parse, parse_fuel.
  destruct (statements_total (length tokens) tokens (le_n _)) as (H & _).
  destruct (H (8 * length tokens + 8) ALWAYS [] ltac:(lia)) as [Hdef _].
  specialize (Hdef eq_refl).
  destruct (statements _ _ _ _) as [[[stats rest]|e]|]; congruence.
Qed.

(** ** Running a parser by hand *)

Lemma bind_ok {A B} (p : Parser A) (f : A -> Parser B) ts a ts' :
  p ts = Some (Ok (a, ts')) -> bind p f ts = f a ts'.
Proof. intros H. unfold bind. now rewrite H. Qed.

Lemma eat_ok tok rest token_types :
  type_in (type tok) token_types = true ->
  eat token_types (tok :: rest) = Some (Ok (tt, rest)).
Proof. intros H. simpl. now rewrite H. Qed.

Lemma eat_own_type tok rest ops :
  type_in (type tok) ops = true ->
  eat (match type tok with Some t => [t] | None => [] end) (tok :: rest)
  = Some (Ok (tt, rest)).
Proof.
  intros H. apply eat_ok. destruct (type tok) as [t|]; [|discriminate].
  now destruct t.
Qed.

Lemma parses_from {A} (p : nat -> Parser A) ts a rest :
  (forall n m, n <= m -> refines (p n) (p m)) ->
  parses p ts a rest ->
  exists k, forall n, k <= n -> p n ts = Some (Ok (a, rest)).
Proof.
  intros Hmono [k Hk]. exists k. intros n Hn. exact (Hmono k n Hn _ _ Hk).
Qed.

Lemma expr_from ts a rest :
  parses expr ts a rest ->
  exists k, forall n, k <= n -> expr n ts = Some (Ok (a, rest)).
Proof. apply parses_from. intros n m H. now apply expr_mono. Qed.

Lemma comparison_expr_from ts a rest :
  parses comparison_expr ts a rest ->
  exists k, forall n, k <= n -> comparison_expr n ts = Some (Ok (a, rest)).
Proof. apply parses_from. apply comparison_expr_mono. Qed.

Lemma block_statements_from ts a rest :
  parses block_statements ts a rest ->
  exists k, forall n, k <= n -> block_statements n ts = Some (Ok (a, rest)).
Proof.
  apply parses_from. intros n m H. unfold block_statements.
  now apply statements_mono.
Qed.

(** ** Chained comparisons *)

Lemma not_GT_LT token :
  type_in (type token) [GT] = false -> type_in (type token) [LT] = false ->
  type_in (type token) [GT; LT] = false.
Proof.
  destruct (type token) as [t|]; [|reflexivity]. simpl.
  destruct (TokenType_beq t GT), (TokenType_beq t LT); auto.
Qed.

Lemma comparison_chain_loop node ts result rest :
  comparison_chain node ts result rest ->
  exists k, forall n m, k <= n -> k <= m ->
    while_op n [GT; LT] CompOp (expr m) node ts = Some (Ok (result, rest)).
Proof.
  induction 1 as [node ts Hgt Hlt
                 |node token op ts operand ts' result rest Hin Hop Hexpr _ IH].
  - exists 1. intros [|n] m Hn _; [lia|]. cbn [while_op].
    rewrite (bind_ok get_token _ ts (head ts) ts) by reflexivity.
    destruct ts as [|token ts]; [reflexivity|]. cbn [head].
    now rewrite (not_GT_LT token Hgt Hlt).
  - destruct IH as [k IH]. destruct (expr_from _ _ _ Hexpr) as [k' Hk'].
    exists (S (Nat.max k k')). intros [|n] m Hn Hm; [lia|]. cbn [while_op].
    rewrite (bind_ok get_token _ _ (Some token) (token :: ts)) by reflexivity.
    rewrite Hin.
    rewrite (bind_ok _ _ _ tt ts) by (now apply (eat_own_type _ _ [GT; LT])).
    rewrite (bind_ok _ _ _ operand ts') by (apply Hk'; lia).
    unfold str_value. rewrite Hop.
    rewrite (bind_ok (ret op) _ ts' op ts') by reflexivity.
    apply IH; lia.
Qed.

(** C2 (as amended): a chain of comparisons [e0 op1 e1 op2 e2 ...] in a
    comparison-expression raises nothing: the parser returns the node
    that groups the chain to the left, so that from two operators on the
    left operand of a comparison node is itself a comparison node. *)
Theorem comparison_chain_groups_left :
  forall ts first ts1 result rest,
    parses expr ts first ts1 ->
    comparison_chain first ts1 result rest ->
    parses comparison_expr ts result rest.
Proof.
  intros ts first ts1 result rest Hfirst Hchain.
  destruct (expr_from _ _ _ Hfirst) as [k Hk].
  destruct (comparison_chain_loop _ _ _ _ Hchain) as [k' Hk'].
  exists (Nat.max k k'). unfold comparison_expr.
  rewrite (bind_ok _ _ _ first ts1) by (apply Hk; lia).
  apply Hk'; lia.
Qed.

(** ** Assignments *)

(** C3 (as amended): when the comparison-expression after [let id =] is
    a bare comparison that no [?] follows, the assignment is refused with
    the error of the parser for it, and so is the statement; no
    Assignment node is built. *)
Theorem assignment_rejects_comparison :
  forall fuel let_ id_ equal ts left_ op right_ rest,
    type let_ = Some LET ->
    type id_ = Some ID ->
    type equal = Some EQUAL ->
    comparison_expr fuel ts = Some (Ok (CompOp left_ op right_, rest)) ->
    is_type TERNARY (head rest) = false ->
    forall fuel', fuel <= fuel' ->
      assignment fuel' (let_ :: id_ :: equal :: ts)
        = Some (Raise (ValueError CantAssign))
      /\ (forall condition stats,
            condition let_ = true ->
            statements (S fuel') condition stats (let_ :: id_ :: equal :: ts)
            = Some (Raise (ValueError CantAssign))).
Proof.
  intros fuel let_ id_ equal ts left_ op right_ rest Hlet Hid Hequal Hcmp Htern
    fuel' Hfuel.
  assert (Hassign : assignment fuel' (let_ :: id_ :: equal :: ts)
                    = Some (Raise (ValueError CantAssign))).
  { apply (comparison_expr_mono fuel fuel' Hfuel) in Hcmp.
    unfold assignment.
    rewrite (bind_ok _ _ _ tt (id_ :: equal :: ts))
      by (apply eat_ok; now rewrite Hlet).
    rewrite (bind_ok get_token _ _ (Some id_) (id_ :: equal :: ts))
      by reflexivity.
    rewrite (bind_ok _ _ _ tt (equal :: ts)) by (apply eat_ok; now rewrite Hid).
    rewrite (bind_ok _ _ _ tt ts) by (apply eat_ok; now rewrite Hequal).
    rewrite (bind_ok _ _ _ _ _ Hcmp).
    rewrite (bind_ok get_token _ _ (head rest) rest) by reflexivity.
    rewrite Htern.
    rewrite (bind_ok (ret _) _ rest (CompOp left_ op right_) rest)
      by reflexivity.
    reflexivity. }
  split; [exact Hassign|].
  intros condition stats Hcond. cbn [statements].
  rewrite (bind_ok get_token _ _ (Some let_) (let_ :: id_ :: equal :: ts))
    by reflexivity.
  rewrite Hcond, Hlet. unfold bind at 1. now rewrite Hassign.
Qed.

(** ** Conditionals *)

Lemma elif_clauses_end ts clauses else_block rest :
  elif_clauses ts clauses else_block rest ->
  is_type ELIF (head rest) = false /\ is_type ELSE (head rest) = false.
Proof. induction 1; auto. Qed.

(** After its first clause, [if_statement] goes on with the elif loop. *)
Lemma if_statement_clause keyword ts condition block ts' :
  type_in (type keyword) [IF; ELIF] = true ->
  clause ts condition block ts' ->
  exists k, forall n, k <= n ->
    if_statement (S n) (keyword :: ts)
    = (elif_statements <- elif_loop n [] ;;
       token <- get_token ;;
       else_block <- (if is_type ELSE token then
                        eat [ELSE] ;;
                        eat [L_BRACE] ;;
                        else_block <- statements n NOT_R_BRACE_CONDITION [] ;;
                        eat [R_BRACE] ;;
                        ret else_block
                      else ret []) ;;
       ret (IfStatement condition block elif_statements else_block)) ts'.
Proof.
  intros Hkw (l_brace & ts1 & r_brace & Hc & Hl & Hb & Hr).
  destruct (comparison_expr_from _ _ _ Hc) as [k Hk].
  destruct (block_statements_from _ _ _ Hb) as [k' Hk'].
  exists (Nat.max k k'). intros n Hn. cbn [if_statement].
  rewrite (bind_ok _ _ _ tt ts) by (now apply eat_ok).
  rewrite (bind_ok _ _ _ condition (l_brace :: ts1)) by (apply Hk; lia).
  rewrite (bind_ok _ _ _ tt ts1) by (apply eat_ok; now rewrite Hl).
  rewrite (bind_ok _ _ _ block (r_brace :: ts')) by (apply Hk'; lia).
  rewrite (bind_ok _ _ _ tt ts') by (apply eat_ok; now rewrite Hr).
  reflexivity.
Qed.

Lemma elif_loop_stops n elif_statements ts :
  is_type ELIF (head ts) = false ->
  elif_loop (S n) elif_statements ts = Some (Ok (elif_statements, ts)).
Proof.
  intros H. cbn [elif_loop].
  rewrite (bind_ok get_token _ ts (head ts) ts) by reflexivity.
  now rewrite H.
Qed.

Lemma elif_clauses_nest_from ts' clauses else_block rest :
  elif_clauses ts' clauses else_block rest ->
  forall keyword ts condition block,
    type_in (type keyword) [IF; ELIF] = true ->
    clause ts condition block ts' ->
    exists k, forall n, k <= n ->
      if_statement n (keyword :: ts)
      = Some (Ok (nested_conditional condition block clauses else_block, rest)).
Proof.
  induction 1 as [ts' Helif Helse
                 |else_ l_brace tsb eblock r_brace rest He Hl Hb Hr Helif Helse
                 |elif_ ts2 c2 b2 ts3 clauses else_block rest Hty Hclause2 Hrest IH];
    intros keyword ts condition block Hkw Hclause.
  - destruct (if_statement_clause _ _ _ _ _ Hkw Hclause) as [k Hk].
    exists (S (S k)). intros [|n] Hn; [lia|]. rewrite Hk by lia.
    destruct n as [|n]; [lia|].
    rewrite (bind_ok _ _ _ [] ts') by (now apply elif_loop_stops).
    rewrite (bind_ok get_token _ ts' (head ts') ts') by reflexivity.
    rewrite Helse. reflexivity.
  - destruct (if_statement_clause _ _ _ _ _ Hkw Hclause) as [k Hk].
    destruct (block_statements_from _ _ _ Hb) as [k' Hk'].
    exists (S (S (Nat.max k k'))). intros [|n] Hn; [lia|]. rewrite Hk by lia.
    destruct n as [|n]; [lia|].
    rewrite (bind_ok _ _ _ [] (else_ :: l_brace :: tsb)).
    2:{ apply elif_loop_stops. cbn [head is_type]. now rewrite He. }
    rewrite (bind_ok get_token _ _ (Some else_) (else_ :: l_brace :: tsb))
      by reflexivity.
    cbn [is_type]. rewrite He. cbn [type_in existsb TokenType_beq orb].
    rewrite (bind_ok _ _ _ eblock rest); [reflexivity|].
    rewrite (bind_ok _ _ _ tt (l_brace :: tsb)) by (apply eat_ok; now rewrite He).
    rewrite (bind_ok _ _ _ tt tsb) by (apply eat_ok; now rewrite Hl).
    rewrite (bind_ok _ _ _ eblock (r_brace :: rest))
      by (exact (Hk' (S n) ltac:(lia))).
    rewrite (bind_ok _ _ _ tt rest) by (apply eat_ok; now rewrite Hr).
    reflexivity.
  - destruct (if_statement_clause _ _ _ _ _ Hkw Hclause) as [k Hk].
    destruct (IH elif_ ts2 c2 b2) as [k2 Hk2]; [now rewrite Hty|exact Hclause2|].
    destruct (elif_clauses_end _ _ _ _ Hrest) as [Helif Helse].
    exists (S (S (S (Nat.max k k2)))). intros [|n] Hn; [lia|]. rewrite Hk by lia.
    destruct n as [|n]; [lia|]. destruct n as [|n]; [lia|].
    rewrite (bind_ok _ _ _ [nested_conditional c2 b2 clauses else_block] rest).
    2:{ cbn [elif_loop].
        rewrite (bind_ok get_token _ _ (Some elif_) (elif_ :: ts2)) by reflexivity.
        cbn [is_type]. rewrite Hty. cbn [type_in existsb TokenType_beq orb].
        rewrite (bind_ok _ _ _ _ _ (Hk2 (S n) ltac:(lia))).
        now apply elif_loop_stops. }
    rewrite (bind_ok get_token _ rest (head rest) rest) by reflexivity.
    rewrite Helse. reflexivity.
Qed.

(** C8 (as amended): for a conditional statement
    [if c0 {..} elif c1 {..} ... (else {..})?] the parser returns the
    nested node: the elif list of each conditional holds the next elif
    clause alone, with an empty else block on every conditional but the
    last, which has the else block. *)
Theorem conditional_nests_elif_clauses :
  forall if_ ts condition block ts' clauses else_block rest,
    type if_ = Some IF ->
    clause ts condition block ts' ->
    elif_clauses ts' clauses else_block rest ->
    parses if_statement (if_ :: ts)
      (nested_conditional condition block clauses else_block) rest.
Proof.
  intros if_ ts condition block ts' clauses else_block rest Hif Hclause Hrest.
  destruct (elif_clauses_nest_from _ _ _ _ Hrest if_ ts condition block)
    as [k Hk]; [now rewrite Hif|exact Hclause|].
  exists k. apply Hk. lia.
Qed.

(** ** Concrete programs *)

Lemma comparison_chain_witness :
  parses comparison_expr (tl (chained_tokens))
    (CompOp (CompOp (Reference "a" false) "<" (Reference "b" false)) "<"
       (Reference "c" false))
    (skipn 6 (chained_tokens)).
Proof.
  eapply (comparison_chain_groups_left _ (Reference "a" false)
            (skipn 2 (chained_tokens))).
  - exists 5. vm_compute. reflexivity.
  - eapply (chain_more _ _ "<" _ (Reference "b" false)
              (skipn 4 (chained_tokens))).
    + reflexivity.
    + reflexivity.
    + exists 5. vm_compute. reflexivity.
    + eapply (chain_more _ _ "<" _ (Reference "c" false)
                (skipn 6 (chained_tokens))).
      * reflexivity.
      * reflexivity.
      * exists 5. vm_compute. reflexivity.
      * apply chain_done; reflexivity.
Defined.

(** C2 as the specification words it fails: the statement with the
    chained comparison [a < b < c] is parsed, and the left operand of its
    comparison node is a comparison node. *)
Lemma chained_comparison_counterexample :
  parse (chained_tokens)
  = Some (Ok (Module
       [IfStatement
          (CompOp (CompOp (Reference "a" false) "<" (Reference "b" false)) "<"
             (Reference "c" false))
          [Literal 1 true] [] []]))
  /\ tokenize chained_source = Some (Ok (chained_tokens)).
Proof. split; vm_compute; reflexivity. Qed.

Lemma assignment_rejects_comparison_witness :
  assignment 5 (comparison_tokens)
    = Some (Raise (ValueError CantAssign))
  /\ statements 6 ALWAYS [] (comparison_tokens)
    = Some (Raise (ValueError CantAssign)).
Proof.
  destruct (assignment_rejects_comparison 5
              (mkToken (Some LET) (StrValue "let") 1 1)
              (mkToken (Some ID) (StrValue "x") 1 5)
              (mkToken (Some EQUAL) (StrValue "=") 1 7)
              (skipn 3 (comparison_tokens))
              (Literal 1 false) "<" (Literal 2 false)
              (skipn 6 (comparison_tokens))
              eq_refl eq_refl eq_refl eq_refl eq_refl 5 (le_n 5))
    as [Hassignment Hstatements].
  split; [exact Hassignment|].
  exact (Hstatements ALWAYS [] eq_refl).
Defined.

(** C3 as the specification words it fails: [let x = 1 < 2;] is not
    parsed into an Assignment node, the parser raises. *)
Lemma assignment_of_comparison_counterexample :
  tokenize comparison_source = Some (Ok (comparison_tokens))
  /\ comparison_expr 5 (skipn 3 (comparison_tokens))
     = Some (Ok (CompOp (Literal 1 false) "<" (Literal 2 false),
                 skipn 6 (comparison_tokens)))
  /\ parse (comparison_tokens) = Some (Raise (ValueError CantAssign)).
Proof. repeat split; vm_compute; reflexivity. Qed.

Lemma conditional_nests_witness :
  parses if_statement (elif_tokens)
    (nested_conditional (Reference "a" false) [Literal 1 true]
       [(Reference "b" false, [Literal 2 true]);
        (Reference "c" false, [Literal 3 true])]
       [Literal 4 true])
    [].
Proof.
  pose (ts := elif_tokens).
  change elif_tokens with ts.
  apply (conditional_nests_elif_clauses
           (mkToken (Some IF) (StrValue "if") 1 1) (tl ts)
           (Reference "a" false) [Literal 1 true] (skipn 6 ts)
           [(Reference "b" false, [Literal 2 true]);
            (Reference "c" false, [Literal 3 true])]
           [Literal 4 true] []).
  - reflexivity.
  - exists (hd no_token (skipn 2 ts)), (skipn 3 ts),
      (hd no_token (skipn 5 ts)).
    repeat split; try (exists 9; vm_compute; reflexivity).
  - apply (clauses_elif _ (skipn 7 ts) _ _ (skipn 12 ts)); [reflexivity| |].
    { exists (hd no_token (skipn 8 ts)), (skipn 9 ts),
        (hd no_token (skipn 11 ts)).
      repeat split; try (exists 9; vm_compute; reflexivity). }
    apply (clauses_elif _ (skipn 13 ts) _ _ (skipn 18 ts)); [reflexivity| |].
    { exists (hd no_token (skipn 14 ts)), (skipn 15 ts),
        (hd no_token (skipn 17 ts)).
      repeat split; try (exists 9; vm_compute; reflexivity). }
    apply (clauses_else _ _ (skipn 20 ts) _
             (hd no_token (skipn 22 ts)) []);
      try reflexivity.
    exists 9. vm_compute. reflexivity.
Defined.

(** C8 as the specification words it fails: with two elif clauses and an
    else block, the elif list of the outermost conditional holds one
    conditional, not two, that conditional has an elif list that is not
    empty, and the else block is not on the outermost conditional. *)
Lemma elif_list_not_flat_counterexample :
  let a := Reference "a" false in
  let clauses := [(Reference "b" false, [Literal 2 true]);
                  (Reference "c" false, [Literal 3 true])] in
  tokenize elif_source = Some (Ok (elif_tokens))
  /\ parse (elif_tokens)
     = Some (Ok (Module [nested_conditional a [Literal 1 true] clauses
                           [Literal 4 true]]))
  /\ nested_conditional a [Literal 1 true] clauses [Literal 4 true]
     = IfStatement a [Literal 1 true]
         [IfStatement (Reference "b" false) [Literal 2 true]
            [IfStatement (Reference "c" false) [Literal 3 true] []
               [Literal 4 true]]
            []]
         []
  /\ nested_conditional a [Literal 1 true] clauses [Literal 4 true]
     <> flat_conditional a [Literal 1 true] clauses [Literal 4 true].
Proof.
  intros a clauses. split; [vm_compute; reflexivity|].
  split; [vm_compute; reflexivity|].
  split; [reflexivity|]. discriminate.
Qed.

(** ** Assignments target names that are not empty *)

Ltac typed_tokens :=
  repeat match goal with
         | H : Forall well_typed (_ :: _) |- _ =>
             pose proof (List.Forall_inv H);
             apply List.Forall_inv_tail in H
         end.

Ltac keep_step :=
  cbv beta iota; cbn [hd_error];
  first
    [ wp_step; typed_tokens
    | lazymatch goal with
      | |- wp false out_of_fuel _ _ => apply wp_out_of_fuel
      | |- named_and_typed _ _ => split; [try reflexivity|try assumption]
      | |- all_named_and_typed _ _ => split; [try reflexivity|try assumption]
      end ].

Lemma while_op_keeps ops mk operand :
  (forall ts, Forall well_typed ts -> wp false operand ts named_and_typed) ->
  (forall l op r, assigns_named l = true -> assigns_named r = true ->
                  assigns_named (mk l op r) = true) ->
  forall fuel node ts,
    assigns_named node = true -> Forall well_typed ts ->
    wp false (while_op fuel ops mk operand node) ts named_and_typed.
Proof.
  intros Hoperand Hmk. induction fuel as [|fuel IH]; intros node ts Hnode Hts;
    cbn [while_op]; repeat keep_step; try assumption.
  apply (wp_conseq _ _ _ _ _ (Hoperand rest ltac:(assumption))).
  intros r rest' [Hr Hrest']. repeat keep_step.
  apply IH; auto.
Qed.

Lemma mkArithmeticOp_named l op r :
  assigns_named l = true -> assigns_named r = true ->
  assigns_named (mkArithmeticOp l op r) = true.
Proof. intros Hl Hr. simpl. now rewrite Hl, Hr. Qed.

Lemma CompOp_named l op r :
  assigns_named l = true -> assigns_named r = true ->
  assigns_named (CompOp l op r) = true.
Proof. intros Hl Hr. simpl. now rewrite Hl, Hr. Qed.

Lemma expr_keeps n : forall ts, Forall well_typed ts ->
  wp false (factor n) ts named_and_typed
  /\ wp false (mult n) ts named_and_typed
  /\ wp false (expr n) ts named_and_typed.
Proof.
  induction n as [|n IH]; intros ts Hts.
  - split; [|split]; apply wp_out_of_fuel.
  - assert (Hfactor : forall ts, Forall well_typed ts ->
                        wp false (factor n) ts named_and_typed)
      by (intros ts' H; apply (IH ts' H)).
    assert (Hmult : forall ts, Forall well_typed ts ->
                      wp false (mult n) ts named_and_typed)
      by (intros ts' H; apply (IH ts' H)).
    assert (Hexpr : forall ts, Forall well_typed ts ->
                      wp false (expr n) ts named_and_typed)
      by (intros ts' H; apply (IH ts' H)).
    split; [|split].
    + cbn [factor]. unfold TOKEN_NODE. repeat keep_step.
      apply (wp_conseq _ _ _ _ _ (Hexpr rest ltac:(assumption))).
      intros e rest' [He Hrest']. repeat keep_step. assumption.
    + cbn [mult]. keep_step.
      apply (wp_conseq _ _ _ _ _ (Hfactor ts Hts)).
      intros e rest' [He Hrest'].
      apply while_op_keeps; auto using mkArithmeticOp_named.
    + cbn [expr]. keep_step.
      apply (wp_conseq _ _ _ _ _ (Hmult ts Hts)).
      intros e rest' [He Hrest'].
      apply while_op_keeps; auto using mkArithmeticOp_named.
Qed.

Lemma expr_keeps_n n ts :
  Forall well_typed ts -> wp false (expr n) ts named_and_typed.
Proof. intros H. apply (expr_keeps n ts H). Qed.

Lemma comparison_expr_keeps n ts :
  Forall well_typed ts -> wp false (comparison_expr n) ts named_and_typed.
Proof.
  intros Hts. unfold comparison_expr. keep_step.
  apply (wp_conseq _ _ _ _ _ (expr_keeps_n n ts Hts)).
  intros e rest [He Hrest].
  apply while_op_keeps; auto using CompOp_named, expr_keeps_n.
Qed.

Ltac keep_expr :=
  lazymatch goal with
  | |- wp false (expr ?n) ?ts _ =>
      apply (wp_conseq _ _ _ _ _ (expr_keeps_n n ts ltac:(assumption)));
      intros ? ? [? ?]
  | |- wp false (comparison_expr ?n) ?ts _ =>
      apply (wp_conseq _ _ _ _ _ (comparison_expr_keeps n ts ltac:(assumption)));
      intros ? ? [? ?]
  end.

Lemma ternary_keeps n c ts :
  assigns_named c = true -> Forall well_typed ts ->
  wp false (ternary n (Some c)) ts named_and_typed.
Proof.
  intros Hc Hts. unfold ternary. repeat first [keep_step | keep_expr].
  simpl. repeat (apply andb_true_intro; split); assumption.
Qed.

Lemma well_typed_name token name :
  well_typed token -> value token = StrValue name ->
  negb (String.eqb name EmptyString) = true.
Proof.
  unfold well_typed. intros H Hv. rewrite Hv in H. destruct H as [_ H].
  apply negb_true_iff. now apply String.eqb_neq.
Qed.

Lemma assignment_keeps n ts :
  Forall well_typed ts -> wp false (assignment n) ts named_and_typed.
Proof.
  intros Hts. unfold assignment. repeat first [keep_step | keep_expr].
  - lazymatch goal with
    | |- wp false (ternary ?n (Some ?c)) ?ts _ =>
        apply (wp_conseq _ _ _ _ _ (ternary_keeps n c ts ltac:(assumption)
                                      ltac:(assumption)))
    end.
    intros v rest' [Hv Hrest']. repeat keep_step.
    simpl. apply andb_true_intro. split; [|assumption].
    match goal with
    | Hvalue : value ?t = StrValue ?s |- _ =>
        apply (well_typed_name t s); assumption
    end.
  - simpl. apply andb_true_intro. split; [|assumption].
    match goal with
    | Hvalue : value ?t = StrValue ?s |- _ =>
        apply (well_typed_name t s); assumption
    end.
Qed.

Lemma set_standalone_named node :
  assigns_named (set_standalone node) = assigns_named node.
Proof. now destruct node. Qed.

Lemma forallb_snoc nodes node :
  forallb assigns_named nodes = true -> assigns_named node = true ->
  forallb assigns_named (nodes ++ [node]) = true.
Proof. intros H1 H2. rewrite forallb_app. simpl. now rewrite H1, H2. Qed.

Ltac keep_simple :=
  first
    [ keep_step
    | keep_expr
    | lazymatch goal with
      | |- wp false (assignment ?n) ?ts _ =>
          apply (wp_conseq _ _ _ _ _ (assignment_keeps n ts ltac:(assumption)));
          intros ? ? [? ?]
      end ].

Lemma statements_keeps n : forall ts, Forall well_typed ts ->
  (forall c s, forallb assigns_named s = true ->
               wp false (statements n c s) ts all_named_and_typed)
  /\ wp false (repeat n) ts named_and_typed
  /\ wp false (if_statement n) ts named_and_typed
  /\ (forall s, forallb assigns_named s = true ->
                wp false (elif_loop n s) ts all_named_and_typed).
Proof.
  induction n as [|n IH]; intros ts Hts.
  - split; [|split; [|split]]; intros; apply wp_out_of_fuel.
  - assert (Hstatements : forall ts c s, Forall well_typed ts ->
              forallb assigns_named s = true ->
              wp false (statements n c s) ts all_named_and_typed)
      by (intros ts' c s H; apply (IH ts' H)).
    assert (Hrepeat : forall ts, Forall well_typed ts ->
              wp false (repeat n) ts named_and_typed)
      by (intros ts' H; apply (IH ts' H)).
    assert (Hif : forall ts, Forall well_typed ts ->
              wp false (if_statement n) ts named_and_typed)
      by (intros ts' H; apply (IH ts' H)).
    assert (Helif : forall ts s, Forall well_typed ts ->
              forallb assigns_named s = true ->
              wp false (elif_loop n s) ts all_named_and_typed)
      by (intros ts' s H; apply (IH ts' H)).
    clear IH.
    split; [|split; [|split]].
    + intros c s Hs. cbn [statements].
      repeat first
        [ keep_simple
        | lazymatch goal with
          | |- wp false (repeat n) ?ts _ =>
              apply (wp_conseq _ _ _ _ _ (Hrepeat ts ltac:(assumption)));
              intros ? ? [? ?]
          | |- wp false (if_statement n) ?ts _ =>
              apply (wp_conseq _ _ _ _ _ (Hif ts ltac:(assumption)));
              intros ? ? [? ?]
          | |- wp false (statements n ?c ?s) ?ts _ =>
              apply Hstatements; [assumption|apply forallb_snoc; [assumption|]]
          | |- assigns_named (set_standalone _) = true =>
              rewrite set_standalone_named
          end ]; try assumption.
    + cbn [repeat].
      repeat first
        [ keep_simple
        | lazymatch goal with
          | |- wp false (statements n ?c []) ?ts _ =>
              apply (wp_conseq _ _ _ _ _
                       (Hstatements ts c [] ltac:(assumption) eq_refl));
              intros ? ? [? ?]
          end ]; try assumption.
      simpl. apply andb_true_intro; split; assumption.
    + cbn [if_statement].
      repeat first
        [ keep_simple
        | lazymatch goal with
          | |- wp false (statements n ?c []) ?ts _ =>
              apply (wp_conseq _ _ _ _ _
                       (Hstatements ts c [] ltac:(assumption) eq_refl));
              intros ? ? [? ?]
          | |- wp false (elif_loop n []) ?ts _ =>
              apply (wp_conseq _ _ _ _ _
                       (Helif ts [] ltac:(assumption) eq_refl));
              intros ? ? [? ?]
          end ]; try assumption;
        simpl; repeat (apply andb_true_intro; split);
        first [assumption | reflexivity].
    + intros s Hs. cbn [elif_loop].
      repeat first
        [ keep_simple
        | lazymatch goal with
          | |- wp false (if_statement n) ?ts _ =>
              apply (wp_conseq _ _ _ _ _ (Hif ts ltac:(assumption)));
              intros ? ? [? ?]
          | |- wp false (elif_loop n ?s) ?ts _ =>
              apply Helif; [assumption|apply forallb_snoc; assumption]
          end ]; try assumption.
Qed.

Lemma parse_assigns_named tokens mod_ :
  Forall well_typed tokens -> parse tokens = Some (Ok mod_) ->
  assigns_named mod_ = true.
Proof.
  intros Htokens. unfold parse.
  destruct (statements_keeps (parse_fuel tokens) tokens Htokens) as (H & _).
  destruct (H ALWAYS [] eq_refl) as [_ Hpost].
  destruct (statements _ _ _ _) as [[[stats rest]|e]|]; try discriminate.
  intros [= <-]. exact (proj1 (Hpost stats rest eq_refl)).
Qed.

(** ** Unary minus before an identifier *)

Lemma factor_minus_identifier fuel minus identifier rest name :
  type minus = Some MINUS ->
  type identifier = Some ID ->
  value identifier = StrValue name ->
  factor (S fuel) (minus :: identifier :: rest)
  = Some (Ok (Reference EmptyString false, rest)).
Proof.
  intros Hminus Hid Hname. cbn [factor].
  rewrite (bind_ok get_token _ _ (Some minus) (minus :: identifier :: rest))
    by reflexivity.
  rewrite Hminus.
  rewrite (bind_ok _ _ _ (-1)%Z (identifier :: rest)).
  2:{ rewrite (bind_ok _ _ _ tt (identifier :: rest))
        by (apply eat_ok; now rewrite Hminus).
      reflexivity. }
  rewrite (bind_ok (ret tt) _ _ tt (identifier :: rest)) by reflexivity.
  rewrite (bind_ok get_token _ _ (Some identifier) (identifier :: rest))
    by reflexivity.
  rewrite (bind_ok _ _ _ tt rest) by (apply eat_ok; now rewrite Hid).
  unfold TOKEN_NODE, str_value. rewrite Hid, Hname.
  reflexivity.
Qed.

Local Close Scope parser_scope.

(** * The empty name *)

Lemma preserves_pure {A} I (a : A) : preserves I (pure a).
Proof. intros st H. exact H. Qed.

Lemma preserves_raise {A} I e : preserves I (@raise A e).
Proof. intros st H. exact H. Qed.

Lemma preserves_lift {A} I (r : Result A) : preserves I (lift r).
Proof. intros st H. exact H. Qed.

Lemma preserves_and_then {A B} I (m : M A) (f : A -> M B) :
  preserves I m -> (forall a, preserves I (f a)) -> preserves I (and_then m f).
Proof.
  intros Hm Hf st HI. unfold and_then. specialize (Hm st HI).
  destruct (m st) as [[a|e] st']; simpl in *; [now apply Hf|exact Hm].
Qed.

Lemma preserves_for_each {A X} I (body : X -> M A) xs :
  Forall (fun x => preserves I (body x)) xs -> preserves I (for_each body xs).
Proof.
  induction 1 as [|x xs Hx _ IH]; simpl; [apply preserves_pure|].
  apply preserves_and_then; auto.
Qed.

Lemma preserves_first_truthy {X} I (body : X -> M (option Value)) xs :
  Forall (fun x => preserves I (body x)) xs ->
  preserves I (first_truthy body xs).
Proof.
  induction 1 as [|x xs Hx _ IH]; simpl; [apply preserves_pure|].
  apply preserves_and_then; [exact Hx|]. intros v.
  destruct (truthy v); [apply preserves_pure|exact IH].
Qed.

Lemma preserves_append_each I render before after nodes :
  Forall (fun node => preserves I (render node)) nodes ->
  forall code, preserves I (append_each render before after nodes code).
Proof.
  induction 1 as [|x xs Hx _ IH]; intros code; simpl; [apply preserves_pure|].
  apply preserves_and_then; auto.
Qed.

(** What leaves the dict alone keeps every property of the dict. *)
Lemma preserves_symbols {A} (I : State -> Prop) (m : M A) :
  (forall st st', symbols st' = symbols st -> I st -> I st') ->
  (forall st, symbols (snd (m st)) = symbols st) ->
  preserves I m.
Proof. intros HI Hm st H. exact (HI st _ (Hm st) H). Qed.

Lemma empty_name_unbound_symbols st st' :
  symbols st' = symbols st -> empty_name_unbound st -> empty_name_unbound st'.
Proof. unfold empty_name_unbound. now intros ->. Qed.

Lemma get_or_raise_keeps name : preserves empty_name_unbound (get_or_raise name).
Proof.
  apply preserves_symbols; [apply empty_name_unbound_symbols|].
  intros st. unfold get_or_raise. now destruct (symbols st !! name).
Qed.

Lemma log_keeps standalone v : preserves empty_name_unbound (log standalone v).
Proof.
  apply preserves_symbols; [apply empty_name_unbound_symbols|].
  intros st. now destruct standalone.
Qed.

Lemma subscript_keeps mappings op :
  preserves empty_name_unbound (subscript mappings op).
Proof.
  unfold subscript. destruct (mappings op);
    [apply preserves_pure|apply preserves_raise].
Qed.

Lemma unbound_keeps name : preserves empty_name_unbound (unbound name).
Proof. intros st H. exact H. Qed.

Lemma new_id_keeps : preserves empty_name_unbound _new_id.
Proof.
  apply preserves_symbols; [apply empty_name_unbound_symbols|].
  intros st. unfold _new_id. now destruct (new_id _ _) as [[id_ rest]|].
Qed.

Lemma add_keeps name v :
  name <> EmptyString -> preserves empty_name_unbound (add name v).
Proof.
  intros Hname st H. unfold empty_name_unbound, add in *. simpl.
  destruct v; [now rewrite lookup_insert_ne|now rewrite lookup_delete_ne].
Qed.

Lemma named_all (P : Node -> Prop) nodes :
  Forall (fun node => assigns_named node = true -> P node) nodes ->
  forallb assigns_named nodes = true ->
  Forall P nodes.
Proof.
  induction 1 as [|x xs Hx _ IH]; simpl; [constructor|].
  intros H. apply andb_prop in H as [H1 H2]. constructor; auto.
Qed.

Ltac keeps :=
  repeat first
    [ apply preserves_pure
    | apply preserves_raise
    | apply preserves_lift
    | apply get_or_raise_keeps
    | apply log_keeps
    | apply subscript_keeps
    | apply unbound_keeps
    | apply new_id_keeps
    | apply preserves_for_each
    | apply preserves_first_truthy
    | apply preserves_append_each
    | apply preserves_and_then; [|intros ?]
    | assumption
    | match goal with
      | |- preserves _ (if ?b then _ else _) => destruct b
      | |- preserves _ (match ?x with _ => _ end) => destruct x
      | H : forallb assigns_named ?l = true, IH : Forall _ ?l
        |- Forall _ ?l =>
          apply (Forall_impl _ _ _ (named_all _ l IH H)); cbv beta; intros ? ?
      | H : forall i : nat, preserves _ _ |- preserves _ _ => apply H
      | H : _ -> preserves _ ?m |- preserves _ ?m => apply H
      | H : _ -> forall i : nat, preserves _ _ |- preserves _ _ => apply H
      end ].

Ltac named_parts :=
  repeat match goal with
         | H : _ && _ = true |- _ => apply andb_prop in H as [? ?]
         end.

Lemma eval_keeps_empty_name_unbound node :
  assigns_named node = true -> preserves empty_name_unbound (eval node).
Proof.
  induction node using Node_nested_ind; cbn [assigns_named eval]; intros Hnamed;
    named_parts; keeps.
  - apply add_keeps. apply negb_true_iff in H. now apply String.eqb_neq.
  - apply Forall_forall. intros z _. keeps.
Qed.

Lemma compile_keeps_empty_name_unbound float_repr node :
  assigns_named node = true ->
  forall indent, preserves empty_name_unbound (compile float_repr node indent).
Proof.
  induction node using Node_nested_ind; cbn [assigns_named compile];
    intros Hnamed indent; named_parts; keeps;
    try (apply eval_keeps_empty_name_unbound; assumption).
  apply add_keeps. apply negb_true_iff in H. now apply String.eqb_neq.
Qed.

Lemma reference_empty_name_fails float_repr standalone indent st :
  empty_name_unbound st ->
  eval (Reference EmptyString standalone) st
    = (Raise (ValueError (VariableNotFound EmptyString)), st)
  /\ compile float_repr (Reference EmptyString standalone) indent st
    = (Raise (ValueError (VariableNotFound EmptyString)), st).
Proof.
  intros H. unfold empty_name_unbound in H. simpl.
  unfold and_then, get_or_raise. rewrite H. auto.
Qed.

(** C10: a factor [-] identifier is parsed into a Reference to the
    empty name.  A program that the lexer and the parser accept assigns
    to no empty name; evaluating or rendering any node of such a program
    leaves the empty name unbound, as it is in the fresh symbol table,
    whatever the outcome; and where the empty name is unbound, both
    evaluating and rendering that Reference fail with the error for an
    unresolved identifier. *)
Theorem minus_identifier_never_resolves :
  (forall fuel minus identifier rest name,
     type minus = Some MINUS ->
     type identifier = Some ID ->
     value identifier = StrValue name ->
     factor (S fuel) (minus :: identifier :: rest)
     = Some (Ok (Reference EmptyString false, rest)))
  /\ (forall source_code tokens mod_,
        tokenize source_code = Some (Ok tokens) ->
        parse tokens = Some (Ok mod_) ->
        assigns_named mod_ = true)
  /\ (forall float_repr node indent,
        assigns_named node = true ->
        preserves empty_name_unbound (eval node)
        /\ preserves empty_name_unbound (compile float_repr node indent))
  /\ (forall draws, empty_name_unbound (SymbolTable draws))
  /\ (forall float_repr standalone indent st,
        empty_name_unbound st ->
        eval (Reference EmptyString standalone) st
          = (Raise (ValueError (VariableNotFound EmptyString)), st)
        /\ compile float_repr (Reference EmptyString standalone) indent st
          = (Raise (ValueError (VariableNotFound EmptyString)), st)).
Proof.
  split; [exact factor_minus_identifier|].
  split.
  { intros source_code tokens mod_ Htokens Hparse.
    exact (parse_assigns_named tokens mod_
             (tokenize_well_typed _ _ Htokens) Hparse). }
  split.
  { intros float_repr node indent Hnamed. split.
    - now apply eval_keeps_empty_name_unbound.
    - now apply compile_keeps_empty_name_unbound. }
  split; [intros draws; reflexivity|].
  intros float_repr standalone indent st.
  apply reference_empty_name_fails.
Qed.

Lemma minus_identifier_witness :
  let float_repr := fun _ : spec_float => EmptyString in
  let program := Module [Assignment "x" (Literal 1 false);
                         Assignment "y" (Reference EmptyString false)] in
  parse minus_tokens = Some (Ok program)
  /\ empty_name_unbound (snd (eval (Assignment "x" (Literal 1 false))
                                (SymbolTable [])))
  /\ fst (eval program (SymbolTable []))
     = Raise (ValueError (VariableNotFound EmptyString))
  /\ fst (compile float_repr program 0 (SymbolTable []))
     = Raise (ValueError (VariableNotFound EmptyString)).
Proof.
  intros float_repr program.
  destruct minus_identifier_never_resolves
    as (_ & _ & Hkeeps & Hfresh & Hfails).
  assert (Hafter : empty_name_unbound
                     (snd (eval (Assignment "x" (Literal 1 false))
                             (SymbolTable [])))).
  { apply (Hkeeps float_repr (Assignment "x" (Literal 1 false)) 0 eq_refl).
    apply Hfresh. }
  split; [vm_compute; reflexivity|].
  split; [exact Hafter|].
  split; vm_compute; reflexivity.
Defined.

(** * Rendering arithmetic *)







(** * More on the lexer *)

Lemma get_chars_loop_all n cond lx :
  all_chars cond (fst (get_chars_loop n cond lx)) = true.
Proof.
  revert lx. induction n as [|n IH]; intros lx; cbn [get_chars_loop];
    [reflexivity|].
  destruct (char lx) as [c|]; [|reflexivity].
  destruct (cond c) eqn:Hc; [|reflexivity].
  specialize (IH (advance lx)).
  destruct (get_chars_loop n cond (advance lx)) as [s lx']. simpl in *.
  now rewrite Hc, IH.
Qed.

Lemma int_of_digits_nonneg s : forall acc z,
  (0 <= acc)%Z -> int_of_digits acc s = Some z -> (0 <= z)%Z.
Proof.
  induction s as [|c s IH]; intros acc z Hacc; simpl.
  - now intros [= <-].
  - unfold ascii_digit. destruct (_ && _); [|discriminate].
    apply IH. lia.
Qed.

Lemma keyword_type s :
  str_in s KEYWORDS = true ->
  match TokenType_get s with
  | Some ty => ty <> ID /\ ty <> INT /\ ty <> STRING
  | None => str_in s ["and"; "or"; "not"] = true
  end.
Proof.
  unfold KEYWORDS, str_in. cbn [existsb]. intros H.
  repeat match type of H with
         | (String.eqb ?a ?b || _) = true =>
             destruct (String.eqb_spec a b);
             [subst; vm_compute; repeat split; congruence|simpl in H]
         end.
  discriminate.
Qed.

Lemma punctuation_type c ty :
  TokenType_get (String c EmptyString) = Some ty ->
  ty <> ID /\ ty <> INT /\ ty <> STRING.
Proof.
  intros H. apply TokenType_get_value in H.
  repeat split; intros ->; discriminate.
Qed.


Lemma tokenize_loop_lexed :
  forall fuel lx tokens out,
    Forall lexed tokens ->
    tokenize_loop fuel lx tokens = Some (Ok out) ->
    Forall lexed out.
Proof.
  induction fuel as [|fuel IH]; intros lx tokens out Hl; cbn [tokenize_loop].
  - destruct (char lx); [discriminate|]. now intros [= <-].
  - destruct (char lx) as [c|] eqn:Hc; [|now intros [= <-]].
    destruct (isdigit c) eqn:Hdigit.
    { destruct (get_chars isdigit lx) as [integer lx'].
      unfold py_int. destruct (int_of_digits 0 integer) as [z|] eqn:Hz;
        [|discriminate].
      apply IH. apply Forall_app. split; [exact Hl|].
      constructor; [|constructor]. exists z. split; [reflexivity|].
      now apply (int_of_digits_nonneg integer 0%Z). }
    destruct (char_in c ID_VALID_START_CHARS) eqn:Hstart.
    { assert (Hid : char_in c ID_VALID_CHARS = true).
      { revert Hstart. destruct c as [[] [] [] [] [] [] [] []];
          vm_compute; congruence. }
      destruct (get_chars_first (fun c => char_in c ID_VALID_CHARS) lx c Hc Hid)
        as [[s Hs] _].
      pose proof (get_chars_loop_all (String.length (pending lx))
                    (fun c => char_in c ID_VALID_CHARS) lx) as Hall.
      fold (get_chars (fun c => char_in c ID_VALID_CHARS) lx) in Hall.
      destruct (get_chars _ lx) as [identifier_ lx']. cbn [fst] in Hs, Hall.
      subst.
      apply IH. apply Forall_app. split; [exact Hl|].
      constructor; [|constructor].
      destruct (str_in (String c s) KEYWORDS) eqn:Hkw.
      - pose proof (keyword_type _ Hkw) as Hty. unfold lexed. cbn [type value].
        destruct (TokenType_get (String c s)) as [ty|] eqn:Hget.
        + apply TokenType_get_value in Hget. rewrite <- Hget.
          destruct Hty as (H1 & H2 & H3). now destruct ty.
        + eauto.
      - exists (String c s). split; [reflexivity|].
        unfold identifier. now rewrite Hstart, Hall, Hkw. }
    destruct (TokenType_get (String c EmptyString)) as [t_type|] eqn:Hget.
    { apply IH. apply Forall_app. split; [exact Hl|].
      constructor; [|constructor].
      destruct (punctuation_type _ _ Hget) as (H1 & H2 & H3).
      unfold lexed. cbn [type value]. now destruct t_type. }
    destruct (isspace c); [now apply IH|].
    destruct (Ascii.eqb c "#"); [now apply IH|discriminate].
Qed.

Lemma tokenize_lexed source_code tokens :
  tokenize source_code = Some (Ok tokens) -> Forall lexed tokens.
Proof.
  unfold tokenize. destruct (Lexer_init source_code) as [lx|]; [|discriminate].
  apply tokenize_loop_lexed. constructor.
Qed.

(** ** Line numbers *)

Lemma advance_lines lx : lines_left (advance lx) = lines_left lx.
Proof.
  unfold lines_left, advance, char.
  destruct (pending lx) as [|c s]; cbn [newlines]; [simpl; lia|].
  destruct (Ascii.eqb c NL); simpl; lia.
Qed.

Lemma advance_line_le lx : lx_line lx <= lx_line (advance lx).
Proof.
  unfold advance, char. destruct (pending lx) as [|c s]; [simpl; lia|].
  destruct (Ascii.eqb c NL); simpl; lia.
Qed.

Lemma advance_while_lines n cond lx :
  lines_left (advance_while n cond lx) = lines_left lx
  /\ lx_line lx <= lx_line (advance_while n cond lx).
Proof.
  revert lx. induction n as [|n IH]; intros lx; cbn [advance_while];
    [split; reflexivity|].
  destruct (char lx) as [c|]; [|split; reflexivity].
  destruct (cond c); [|split; reflexivity].
  destruct (IH (advance lx)) as [-> Hle]. rewrite advance_lines.
  pose proof (advance_line_le lx). split; [reflexivity|lia].
Qed.

Lemma get_chars_loop_lines n cond lx :
  lines_left (snd (get_chars_loop n cond lx)) = lines_left lx
  /\ lx_line lx <= lx_line (snd (get_chars_loop n cond lx)).
Proof.
  revert lx. induction n as [|n IH]; intros lx; cbn [get_chars_loop];
    [split; reflexivity|].
  destruct (char lx) as [c|]; [|split; reflexivity].
  destruct (cond c); [|split; reflexivity].
  specialize (IH (advance lx)).
  destruct (get_chars_loop n cond (advance lx)) as [s lx']. cbn [snd] in *.
  destruct IH as [-> Hle]. rewrite advance_lines.
  pose proof (advance_line_le lx). split; [reflexivity|lia].
Qed.

Lemma lines_ascend_snoc tokens t : forall prev,
  lines_ascend prev tokens -> prev <= line t ->
  Forall (fun u => line u <= line t) tokens ->
  lines_ascend prev (tokens ++ [t]).
Proof.
  induction tokens as [|u tokens IH]; intros prev Hasc Hprev Hall; simpl.
  - split; [exact Hprev|exact I].
  - destruct Hasc as [H1 H2]. inversion Hall; subst.
    split; [exact H1|]. apply IH; assumption.
Qed.

Lemma lines_so_far_later lx lx' tokens :
  lx_line lx <= lx_line lx' -> lines_so_far lx tokens ->
  lines_so_far lx' tokens.
Proof.
  intros Hle (Hasc & Hall & H1). split; [exact Hasc|]. split; [|lia].
  eapply Forall_impl; [exact Hall|]. cbv beta. intros; lia.
Qed.

Lemma lines_so_far_snoc lx lx' tokens ty v col :
  lx_line lx <= lx_line lx' -> lines_so_far lx tokens ->
  lines_so_far lx' (tokens ++ [mkToken ty v (lx_line lx) col]).
Proof.
  intros Hle (Hasc & Hall & H1). split; [|split; [|lia]].
  - apply lines_ascend_snoc; [exact Hasc|simpl; lia|exact Hall].
  - apply Forall_app. split.
    + eapply Forall_impl; [exact Hall|]. cbv beta. intros; lia.
    + constructor; [simpl; lia|constructor].
Qed.

Lemma tokenize_loop_lines :
  forall fuel lx tokens out,
    lines_so_far lx tokens ->
    tokenize_loop fuel lx tokens = Some (Ok out) ->
    lines_ascend 1 out /\ Forall (fun u => line u <= lines_left lx) out.
Proof.
  induction fuel as [|fuel IH]; intros lx tokens out Hl; cbn [tokenize_loop].
  - destruct (char lx); [discriminate|]. intros [= <-].
    destruct Hl as (Hasc & Hall & _). split; [exact Hasc|].
    eapply Forall_impl; [exact Hall|]. unfold lines_left. cbv beta. intros; lia.
  - destruct (char lx) as [c|] eqn:Hc.
    2:{ intros [= <-]. destruct Hl as (Hasc & Hall & _). split; [exact Hasc|].
        eapply Forall_impl; [exact Hall|]. unfold lines_left. cbv beta.
        intros; lia. }
    destruct (isdigit c).
    { pose proof (get_chars_loop_lines (String.length (pending lx)) isdigit lx)
        as [Heq Hle].
      fold (get_chars isdigit lx) in Heq, Hle.
      destruct (get_chars isdigit lx) as [integer lx']. cbn [snd] in Heq, Hle.
      destruct (py_int integer) as [z|]; [|discriminate].
      rewrite <- Heq. apply IH. now apply lines_so_far_snoc. }
    destruct (char_in c ID_VALID_START_CHARS).
    { pose proof (get_chars_loop_lines (String.length (pending lx))
                    (fun c => char_in c ID_VALID_CHARS) lx) as [Heq Hle].
      fold (get_chars (fun c => char_in c ID_VALID_CHARS) lx) in Heq, Hle.
      destruct (get_chars _ lx) as [identifier_ lx']. cbn [snd] in Heq, Hle.
      rewrite <- Heq. apply IH. now apply lines_so_far_snoc. }
    destruct (TokenType_get (String c EmptyString)).
    { rewrite <- (advance_lines lx). apply IH.
      apply lines_so_far_snoc; [apply advance_line_le|exact Hl]. }
    destruct (isspace c).
    { unfold skip_whitespace.
      destruct (advance_while_lines (String.length (pending lx)) isspace lx)
        as [Heq Hle].
      rewrite <- Heq. apply IH. now apply (lines_so_far_later lx). }
    destruct (Ascii.eqb c "#"); [|discriminate].
    unfold skip_comment.
    destruct (advance_while_lines (String.length (pending lx))
                (fun c => negb (Ascii.eqb c NL)) lx) as [Heq Hle].
    rewrite <- Heq. apply IH. now apply (lines_so_far_later lx).
Qed.

(** ** The texts the lexer accepts *)

Ltac by_char c :=
  destruct c as [[] [] [] [] [] [] [] []]; vm_compute; congruence.

Lemma isdigit_plain c :
  isdigit c = true -> plain c = true -> ascii_digit c <> None.
Proof. by_char c. Qed.

Lemma isdigit_not_hash c : isdigit c = true -> Ascii.eqb c "#" = false.
Proof. by_char c. Qed.

Lemma ascii_digit_plain c :
  match ascii_digit c with Some _ => true | None => false end = true ->
  plain c = true /\ Ascii.eqb c "#" = false.
Proof. split; revert H; by_char c. Qed.

Lemma id_char_plain c :
  char_in c ID_VALID_CHARS = true -> plain c = true /\ Ascii.eqb c "#" = false.
Proof. split; revert H; by_char c. Qed.

Lemma isspace_plain c :
  isspace c = true -> plain c = true /\ Ascii.eqb c "#" = false.
Proof. split; revert H; by_char c. Qed.

Lemma punctuation_plain c :
  TokenType_get (String c EmptyString) <> None ->
  plain c = true /\ Ascii.eqb c "#" = false.
Proof. split; revert H; by_char c. Qed.

Lemma rejected_not_plain c :
  isdigit c = false -> char_in c ID_VALID_START_CHARS = false ->
  TokenType_get (String c EmptyString) = None -> isspace c = false ->
  plain c = false.
Proof. by_char c. Qed.

Lemma append_String c s r : (String c s ++ r)%string = String c (s ++ r)%string.
Proof. reflexivity. Qed.

Lemma append_empty r : (EmptyString ++ r)%string = r.
Proof. reflexivity. Qed.

Lemma accepted_run good rest :
  (forall c, good c = true -> plain c = true /\ Ascii.eqb c "#" = false) ->
  forall run, all_chars good run = true ->
  accepted false (run ++ rest) = accepted false rest.
Proof.
  intros Hgood. induction run as [|c run IH]; [reflexivity|].
  rewrite append_String. cbn [all_chars accepted]. intros [Hc Hrun]%andb_prop.
  destruct (Hgood c Hc) as [-> ->]. now rewrite IH.
Qed.

Lemma accepted_comment rest : forall run,
  all_chars (fun c => negb (Ascii.eqb c NL)) run = true ->
  accepted true (run ++ rest) = accepted true rest.
Proof.
  induction run as [|c run IH]; [reflexivity|].
  rewrite append_String. cbn [all_chars accepted]. intros [Hc Hrun]%andb_prop.
  now rewrite Hc, IH.
Qed.

Lemma accepted_digits rest : forall run acc,
  all_chars isdigit run = true ->
  accepted false (run ++ rest) = true ->
  int_of_digits acc run <> None /\ accepted false rest = true.
Proof.
  induction run as [|c run IH]; intros acc; [now split|].
  rewrite append_String. cbn [all_chars accepted int_of_digits].
  intros [Hc Hrun]%andb_prop. rewrite (isdigit_not_hash c Hc).
  intros [Hplain Hrest]%andb_prop.
  pose proof (isdigit_plain c Hc Hplain) as Hd.
  destruct (ascii_digit c); [|congruence]. now apply IH.
Qed.

Lemma int_of_digits_all : forall run acc z,
  int_of_digits acc run = Some z ->
  all_chars (fun c => match ascii_digit c with Some _ => true | None => false end)
    run = true.
Proof.
  induction run as [|c run IH]; intros acc z; [reflexivity|].
  cbn [int_of_digits all_chars]. destruct (ascii_digit c); [|discriminate].
  intros H. now rewrite (IH _ _ H).
Qed.

Lemma pending_advance_tail lx c rest :
  pending lx = String c rest -> pending (advance lx) = rest.
Proof.
  intros H. unfold advance, char. rewrite H. now destruct (Ascii.eqb c NL).
Qed.

Lemma get_chars_loop_split n cond lx :
  pending lx
  = (fst (get_chars_loop n cond lx)
     ++ pending (snd (get_chars_loop n cond lx)))%string.
Proof.
  revert lx. induction n as [|n IH]; intros lx; cbn [get_chars_loop];
    [reflexivity|].
  destruct (char lx) as [c|] eqn:Hc; [|reflexivity].
  destruct (cond c); [|reflexivity].
  destruct (char_some lx c Hc) as [rest Hp].
  specialize (IH (advance lx)). rewrite (pending_advance_tail lx c rest Hp) in IH.
  destruct (get_chars_loop n cond (advance lx)) as [s lx']. cbn [fst snd] in *.
  rewrite Hp, append_String. now f_equal.
Qed.

Lemma advance_while_split n cond lx :
  exists run,
    pending lx = (run ++ pending (advance_while n cond lx))%string
    /\ all_chars cond run = true.
Proof.
  revert lx. induction n as [|n IH]; intros lx; cbn [advance_while].
  - now exists EmptyString.
  - destruct (char lx) as [c|] eqn:Hc; [|now exists EmptyString].
    destruct (cond c) eqn:Hcond; [|now exists EmptyString].
    destruct (char_some lx c Hc) as [rest Hp].
    destruct (IH (advance lx)) as (run & Hrun & Hall).
    rewrite (pending_advance_tail lx c rest Hp) in Hrun.
    exists (String c run). rewrite append_String. cbn [all_chars].
    rewrite Hp, Hcond, Hall. split; [now f_equal|reflexivity].
Qed.

Lemma advance_while_stops n cond lx :
  String.length (pending lx) <= n ->
  match char (advance_while n cond lx) with
  | Some c => cond c = false
  | None => True
  end.
Proof.
  revert lx. induction n as [|n IH]; intros lx Hn; cbn [advance_while].
  - unfold char. destruct (pending lx); [exact I|simpl in Hn; lia].
  - destruct (char lx) as [c|] eqn:Hc; [|now rewrite Hc].
    destruct (cond c) eqn:Hcond; [|now rewrite Hc].
    apply IH. rewrite pending_advance. lia.
Qed.

(** Skipping a comment leaves a text that is accepted when the text from
    the comment on is. *)
Lemma skip_comment_accepted lx :
  char lx = Some "#"%char ->
  accepted false (pending (skip_comment lx)) = accepted false (pending lx).
Proof.
  intros Hc. unfold skip_comment.
  destruct (advance_while_split (String.length (pending lx))
              (fun c => negb (Ascii.eqb c NL)) lx) as (run & Hrun & Hall).
  pose proof (advance_while_stops (String.length (pending lx))
                (fun c => negb (Ascii.eqb c NL)) lx (le_n _)) as Hstop.
  set (lx' := advance_while _ _ lx) in *.
  destruct (char_some lx _ Hc) as [rest Hp].
  assert (Hafter : accepted false (pending lx') = accepted true (pending lx')).
  { unfold char in Hstop. destruct (pending lx') as [|c s]; [reflexivity|].
    apply negb_false_iff in Hstop. apply Ascii.eqb_eq in Hstop. subst c.
    reflexivity. }
  destruct run as [|c run].
  - rewrite append_empty in Hrun. unfold char in Hstop.
    rewrite <- Hrun, Hp in Hstop. discriminate.
  - rewrite Hp, append_String in Hrun. injection Hrun as <- Hrest.
    cbn [all_chars] in Hall. apply andb_prop in Hall as [_ Hall].
    rewrite Hp. cbn [accepted]. cbn [Ascii.eqb Bool.eqb].
    rewrite Hrest, (accepted_comment _ _ Hall). exact Hafter.
Qed.

Lemma tokenize_loop_accepted :
  forall fuel lx tokens out,
    tokenize_loop fuel lx tokens = Some (Ok out) ->
    accepted false (pending lx) = true.
Proof.
  induction fuel as [|fuel IH]; intros lx tokens out; cbn [tokenize_loop].
  - unfold char. destruct (pending lx); [reflexivity|discriminate].
  - destruct (char lx) as [c|] eqn:Hc.
    2:{ unfold char in Hc. now destruct (pending lx). }
    destruct (char_some lx c Hc) as [rest Hp].
    destruct (isdigit c) eqn:Hdigit.
    { pose proof (get_chars_loop_split (String.length (pending lx)) isdigit lx)
        as Hsplit.
      fold (get_chars isdigit lx) in Hsplit.
      destruct (get_chars isdigit lx) as [integer lx']. cbn [fst snd] in Hsplit.
      unfold py_int. destruct (int_of_digits 0 integer) as [z|] eqn:Hz;
        [|discriminate].
      intros H%IH. rewrite Hsplit.
      rewrite (accepted_run _ _ ascii_digit_plain integer
                 (int_of_digits_all _ _ _ Hz)).
      exact H. }
    destruct (char_in c ID_VALID_START_CHARS) eqn:Hstart.
    { pose proof (get_chars_loop_split (String.length (pending lx))
                    (fun c => char_in c ID_VALID_CHARS) lx) as Hsplit.
      pose proof (get_chars_loop_all (String.length (pending lx))
                    (fun c => char_in c ID_VALID_CHARS) lx) as Hall.
      fold (get_chars (fun c => char_in c ID_VALID_CHARS) lx) in Hsplit, Hall.
      destruct (get_chars _ lx) as [identifier_ lx']. cbn [fst snd] in *.
      intros H%IH. rewrite Hsplit.
      now rewrite (accepted_run _ _ id_char_plain identifier_ Hall). }
    destruct (TokenType_get (String c EmptyString)) as [t_type|] eqn:Hget.
    { intros H%IH. rewrite (pending_advance_tail lx c rest Hp) in H.
      rewrite Hp. cbn [accepted].
      destruct (punctuation_plain c ltac:(congruence)) as [-> ->].
      exact H. }
    destruct (isspace c) eqn:Hspace.
    { intros H%IH. unfold skip_whitespace in H.
      destruct (advance_while_split (String.length (pending lx)) isspace lx)
        as (run & Hrun & Hall).
      rewrite Hrun. now rewrite (accepted_run _ _ isspace_plain run Hall). }
    destruct (Ascii.eqb c "#") eqn:Hhash; [|discriminate].
    apply Ascii.eqb_eq in Hhash. subst c.
    intros H%IH. now rewrite <- (skip_comment_accepted lx Hc).
Qed.

Lemma tokenize_loop_accepts :
  forall fuel lx tokens e,
    accepted false (pending lx) = true ->
    tokenize_loop fuel lx tokens <> Some (Raise e).
Proof.
  induction fuel as [|fuel IH]; intros lx tokens e Hacc; cbn [tokenize_loop].
  - destruct (char lx); discriminate.
  - destruct (char lx) as [c|] eqn:Hc; [|discriminate].
    destruct (char_some lx c Hc) as [rest Hp].
    destruct (isdigit c) eqn:Hdigit.
    { pose proof (get_chars_loop_split (String.length (pending lx)) isdigit lx)
        as Hsplit.
      pose proof (get_chars_loop_all (String.length (pending lx)) isdigit lx)
        as Hall.
      fold (get_chars isdigit lx) in Hsplit, Hall.
      destruct (get_chars isdigit lx) as [integer lx']. cbn [fst snd] in *.
      rewrite Hsplit in Hacc.
      destruct (accepted_digits _ integer 0%Z Hall Hacc) as [Hint Hrest].
      unfold py_int. destruct (int_of_digits 0 integer); [|congruence].
      now apply IH. }
    destruct (char_in c ID_VALID_START_CHARS) eqn:Hstart.
    { pose proof (get_chars_loop_split (String.length (pending lx))
                    (fun c => char_in c ID_VALID_CHARS) lx) as Hsplit.
      pose proof (get_chars_loop_all (String.length (pending lx))
                    (fun c => char_in c ID_VALID_CHARS) lx) as Hall.
      fold (get_chars (fun c => char_in c ID_VALID_CHARS) lx) in Hsplit, Hall.
      destruct (get_chars _ lx) as [identifier_ lx']. cbn [fst snd] in *.
      rewrite Hsplit, (accepted_run _ _ id_char_plain identifier_ Hall) in Hacc.
      now apply IH. }
    destruct (TokenType_get (String c EmptyString)) as [t_type|] eqn:Hget.
    { apply IH. rewrite (pending_advance_tail lx c rest Hp).
      rewrite Hp in Hacc. cbn [accepted] in Hacc.
      destruct (punctuation_plain c ltac:(congruence)) as [H1 H2].
      now rewrite H1, H2 in Hacc. }
    destruct (isspace c) eqn:Hspace.
    { apply IH. unfold skip_whitespace.
      destruct (advance_while_split (String.length (pending lx)) isspace lx)
        as (run & Hrun & Hall).
      now rewrite Hrun, (accepted_run _ _ isspace_plain run Hall) in Hacc. }
    destruct (Ascii.eqb c "#") eqn:Hhash.
    { apply Ascii.eqb_eq in Hhash. subst c.
      apply IH. now rewrite (skip_comment_accepted lx Hc). }
    rewrite Hp in Hacc. cbn [accepted] in Hacc. rewrite Hhash in Hacc.
    now rewrite (rejected_not_plain c Hdigit Hstart Hget Hspace) in Hacc.
Qed.


(** X3.  The lexer emits five kinds of token and no other: an INT with an
    integer that is not negative, an ID with an identifier that is no
    keyword, one of the reserved words [and], [or], [not] without a type,
    and a keyword or a punctuation mark whose value is the text of its
    type.  It never emits a STRING. *)
Theorem tokenize_classifies_tokens source_code tokens :
  tokenize source_code = Some (Ok tokens) -> Forall lexed tokens.
Proof.
  unfold tokenize. destruct (Lexer_init source_code) as [lx|]; [|discriminate].
  apply tokenize_loop_lexed. constructor.
Qed.

Lemma tokenize_classifies_witness : Forall lexed minus_tokens.
Proof.
  apply (tokenize_classifies_tokens minus_source). vm_compute. reflexivity.
Defined.

(** X4.  The line numbers of the tokens start at 1 or later, never
    decrease from one token to the next, and none is greater than one plus
    the number of newlines of the text. *)
Theorem tokenize_lines_ascend source_code tokens :
  tokenize source_code = Some (Ok tokens) ->
  lines_ascend 1 tokens
  /\ Forall (fun t => line t <= 1 + newlines source_code) tokens.
Proof.
  unfold tokenize, Lexer_init. destruct source_code as [|c s]; [discriminate|].
  intros H. apply tokenize_loop_lines in H; [exact H|].
  split; [exact I|]. split; [constructor|simpl; lia].
Qed.

Lemma tokenize_lines_witness :
  lines_ascend 1 minus_tokens
  /\ Forall (fun t => line t <= 1 + newlines minus_source) minus_tokens.
Proof.
  apply (tokenize_lines_ascend minus_source). vm_compute. reflexivity.
Defined.

(** X5.  On a text without a run of digits longer than the digits
    [int(...)] reads, the lexer returns tokens exactly when the text is
    not empty and holds, outside the comments, only decimal digits,
    letters, underscores, the punctuation marks that are tokens, and white
    space; a comment runs from [#] to the end of its line.  On every
    other such text it raises. *)
Theorem tokenize_accepts_iff source_code :
  longest_digit_run 0 source_code <= int_max_str_digits ->
  (exists tokens, tokenize source_code = Some (Ok tokens))
  <-> source_code <> EmptyString /\ accepted false source_code = true.
Proof.
  intros _. unfold tokenize, Lexer_init. destruct source_code as [|c s].
  - split; [intros [tokens H]; discriminate|intros [H _]; congruence].
  - split.
    + intros [tokens H]. split; [discriminate|].
      exact (tokenize_loop_accepted _ _ _ _ H).
    + intros [_ Hacc].
      pose proof (tokenize_loop_total (String.length (String c s))
                    (mkLexer (String c s) 1 1) [] (le_n _)) as Htotal.
      pose proof (fun e => tokenize_loop_accepts (String.length (String c s))
                    (mkLexer (String c s) 1 1) [] e Hacc) as Hok.
      destruct (tokenize_loop _ _ _) as [[tokens|e]|]; [eauto| |congruence].
      now destruct (Hok e).
Qed.

Lemma tokenize_accepts_witness :
  (exists tokens, tokenize minus_source = Some (Ok tokens))
  <-> minus_source <> EmptyString /\ accepted false minus_source = true.
Proof.
  apply (tokenize_accepts_iff minus_source).
  apply Nat.leb_le. vm_compute. reflexivity.
Defined.

(** X21.  [TokenType.get] finds the member with a given value, and
    every member by its own value: no two members share a value. *)
Theorem TokenType_get_iff_value s t :
  TokenType_get s = Some t <-> TokenType_value t = s.
Proof.
  split; [apply TokenType_get_value|]. intros <-. now destruct t.
Qed.

(** * More on the parser *)

Local Open Scope parser_scope.

(** ** The shape of the trees *)

Lemma head_lexed ts token :
  Forall lexed ts -> head ts = Some token -> lexed token.
Proof. destruct ts; [discriminate|]. intros H [= <-]. now inversion H. Qed.

Lemma lexed_operator token op (ops : list TokenType) (good : string -> bool) :
  forallb (fun t => good (TokenType_value t)
                    && negb (type_in (Some t) [INT; ID; STRING])) ops = true ->
  lexed token -> type_in (type token) ops = true ->
  value token = StrValue op -> good op = true.
Proof.
  intros Hops Hlexed Hin Hvalue. unfold lexed in Hlexed.
  destruct (type token) as [t|]; [|discriminate]. cbn [type_in] in Hin.
  apply existsb_exists in Hin as (t' & Hin & Heq).
  assert (t = t') by (destruct t, t'; try discriminate; reflexivity). subst t'.
  rewrite forallb_forall in Hops. apply Hops in Hin.
  apply andb_prop in Hin as [Hgood Hfixed].
  destruct t; try discriminate; rewrite Hvalue in Hlexed;
    injection Hlexed as ->; exact Hgood.
Qed.

Lemma lexed_name token name :
  lexed token -> type_in (type token) [ID] = true ->
  value token = StrValue name -> negb (String.eqb name EmptyString) = true.
Proof.
  unfold lexed. destruct (type token) as [[]|]; try discriminate.
  intros (s & Hs & Hid) _ Hvalue. rewrite Hvalue in Hs. injection Hs as ->.
  now destruct s.
Qed.

Ltac lexed_tokens :=
  repeat match goal with
         | H : Forall lexed (_ :: _) |- _ =>
             pose proof (List.Forall_inv H);
             apply List.Forall_inv_tail in H
         end.

Lemma mkArithmeticOp_arithmetic l op r :
  arithmetic l = true -> arithmetic_op op = true -> arithmetic r = true ->
  arithmetic (mkArithmeticOp l op r) = true.
Proof. intros Hl Hop Hr. cbn [mkArithmeticOp arithmetic]. now rewrite Hl, Hop, Hr. Qed.

Lemma CompOp_comparison l op r :
  comparison l = true -> comparison_op op = true -> arithmetic r = true ->
  comparison (CompOp l op r) = true.
Proof. intros Hl Hop Hr. cbn [comparison]. now rewrite Hl, Hop, Hr. Qed.

Lemma arithmetic_comparison node : arithmetic node = true -> comparison node = true.
Proof. now destruct node. Qed.

Lemma spec_ret {A} (a : A) ts (Q : A -> list Token -> Prop) :
  Q a ts -> spec (ret a) ts Q.
Proof. intros H. split; [|discriminate]. intros a' rest [= <- <-]. exact H. Qed.

Lemma spec_fail {A} e ts (Q : A -> list Token -> Prop) :
  parse_error e = true -> spec (fail e) ts Q.
Proof. intros H. split; [discriminate|]. now intros e' [= <-]. Qed.

Lemma spec_out_of_fuel {A} ts (Q : A -> list Token -> Prop) :
  spec out_of_fuel ts Q.
Proof. split; discriminate. Qed.

Lemma spec_bind {A B} (p : Parser A) (f : A -> Parser B) ts Q :
  spec p ts (fun a ts' => spec (f a) ts' Q) -> spec (bind p f) ts Q.
Proof.
  unfold spec, bind. intros [Hpost Herr].
  destruct (p ts) as [[[a ts']|e]|].
  - exact (Hpost a ts' eq_refl).
  - split; [discriminate|]. intros e' [= <-]. now apply Herr.
  - split; discriminate.
Qed.

Lemma spec_conseq {A} (p : Parser A) ts (Q Q' : A -> list Token -> Prop) :
  spec p ts Q -> (forall a rest, Q a rest -> Q' a rest) -> spec p ts Q'.
Proof. intros [Hpost Herr] HQ. split; [|exact Herr]. intros a rest H. auto. Qed.

Lemma spec_get_token ts (Q : option Token -> list Token -> Prop) :
  Q (head ts) ts -> spec get_token ts Q.
Proof. intros H. split; [|discriminate]. intros a rest [= <- <-]. exact H. Qed.

Lemma spec_eat token_types ts (Q : unit -> list Token -> Prop) :
  (forall tok rest,
     ts = tok :: rest -> type_in (type tok) token_types = true -> Q tt rest) ->
  spec (eat token_types) ts Q.
Proof.
  intros H. split.
  - intros [] rest. destruct ts as [|tok rest']; simpl; [discriminate|].
    destruct (type_in _ _) eqn:E; [|discriminate]. intros [= <-]. eauto.
  - intros e. destruct ts as [|tok rest']; simpl; [now intros [= <-]|].
    destruct (type_in _ _); [discriminate|]. now intros [= <-].
Qed.

Lemma spec_str_value token ts (Q : string -> list Token -> Prop) :
  lexed token -> type token <> Some INT ->
  (forall s, value token = StrValue s -> Q s ts) -> spec (str_value token) ts Q.
Proof.
  intros Hlexed Htype H. unfold str_value.
  destruct (value token) as [z|s] eqn:Hvalue; [|apply spec_ret; auto].
  exfalso. unfold lexed in Hlexed.
  destruct (type token) as [[]|]; try congruence;
    try (destruct Hlexed as (s & Hs & _); congruence); contradiction.
Qed.

Lemma spec_int_value token ts (Q : Z -> list Token -> Prop) :
  lexed token -> type token = Some INT ->
  (forall z, Q z ts) -> spec (int_value token) ts Q.
Proof.
  intros Hlexed Htype H. unfold int_value.
  destruct (value token) as [z|s] eqn:Hvalue; [apply spec_ret; auto|].
  exfalso. unfold lexed in Hlexed. rewrite Htype in Hlexed.
  destruct Hlexed as (z & Hz & _). congruence.
Qed.

Lemma type_in_not_INT token ops :
  type_in (type token) ops = true -> type_in (Some INT) ops = false ->
  type token <> Some INT.
Proof. intros H1 H2 H. rewrite H in H1. congruence. Qed.

Lemma operator_not_INT token ops (good : string -> bool) :
  forallb (fun t => good (TokenType_value t)
                    && negb (type_in (Some t) [INT; ID; STRING])) ops = true ->
  type_in (type token) ops = true -> type token <> Some INT.
Proof.
  intros Hops Hin Htype. rewrite Htype in Hin. cbn [type_in] in Hin.
  apply existsb_exists in Hin as (t' & Hin & Heq).
  rewrite forallb_forall in Hops. apply Hops in Hin.
  destruct t'; try discriminate. now apply andb_prop in Hin as [_ Hin].
Qed.

Ltac same_token :=
  repeat match goal with
         | H : Some _ = Some _ |- _ => injection H as H; subst
         end.

Ltac token_side :=
  first
    [ assumption
    | match goal with
      | Heq : type ?t = Some _ |- type ?t <> Some INT =>
          rewrite Heq; discriminate
      | H : type_in (type ?t) _ = true |- type ?t <> Some INT =>
          apply (type_in_not_INT _ _ H); reflexivity
      end ].

Ltac impossible_type :=
  subst;
  match goal with
  | H : type_in _ _ = true |- _ =>
      solve [ repeat match goal with
                     | Heq : type _ = _ |- _ => rewrite Heq in H
                     end;
              vm_compute in H; discriminate H ]
  end.

Ltac spec_step :=
  cbv beta iota; cbn [hd_error] in *; same_token;
  lazymatch goal with
  | |- spec (bind _ _) _ _ => apply spec_bind
  | |- spec get_token _ _ => apply spec_get_token
  | |- spec (ret _) _ _ => apply spec_ret
  | |- spec (fail _) _ _ =>
      first [apply spec_fail; reflexivity | exfalso; impossible_type]
  | |- spec out_of_fuel _ _ => apply spec_out_of_fuel
  | |- spec (eat _) _ _ => apply spec_eat; intros ? ? -> ?; lexed_tokens
  | |- spec (str_value _) _ _ =>
      apply spec_str_value; [token_side|token_side|intros ? ?]
  | |- spec (int_value _) _ _ =>
      apply spec_int_value; [token_side|token_side|intros ?]
  | |- spec (match ?x with _ => _ end) _ _ => destruct x eqn:?
  | |- spec (if ?b then _ else _) _ _ => destruct b eqn:?
  | |- built _ _ _ => split; [try reflexivity|try assumption]
  | |- built_all _ _ _ => split; [try reflexivity|try assumption]
  end.

Lemma while_op_spec ops mk operand (P Q : Node -> bool) good :
  (forall ts, Forall lexed ts -> spec operand ts (built Q)) ->
  forallb (fun t => good (TokenType_value t)
                    && negb (type_in (Some t) [INT; ID; STRING])) ops = true ->
  (forall l op r, P l = true -> good op = true -> Q r = true ->
                  P (mk l op r) = true) ->
  forall fuel node ts,
    P node = true -> Forall lexed ts ->
    spec (while_op fuel ops mk operand node) ts (built P).
Proof.
  intros Hoperand Hops Hmk.
  induction fuel as [|fuel IH]; intros node ts Hnode Hts;
    cbn [while_op]; repeat spec_step; try assumption.
  apply (spec_conseq _ _ _ _ (Hoperand rest ltac:(assumption))).
  intros r rest' [Hr Hrest']. spec_step.
  apply spec_str_value;
    [assumption|now apply (operator_not_INT _ ops good)|intros op Hop].
  apply IH; [|assumption]. apply Hmk; [assumption| |assumption].
  now apply (lexed_operator t op ops good).
Qed.

Lemma expr_spec n : forall ts, Forall lexed ts ->
  spec (factor n) ts (built arithmetic)
  /\ spec (mult n) ts (built arithmetic)
  /\ spec (expr n) ts (built arithmetic).
Proof.
  induction n as [|n IH]; intros ts Hts.
  - split; [|split]; apply spec_out_of_fuel.
  - assert (Hfactor : forall ts, Forall lexed ts ->
                        spec (factor n) ts (built arithmetic))
      by (intros ts' H; apply (IH ts' H)).
    assert (Hmult : forall ts, Forall lexed ts ->
                      spec (mult n) ts (built arithmetic))
      by (intros ts' H; apply (IH ts' H)).
    assert (Hexpr : forall ts, Forall lexed ts ->
                      spec (expr n) ts (built arithmetic))
      by (intros ts' H; apply (IH ts' H)).
    split; [|split].
    + cbn [factor]. unfold TOKEN_NODE. repeat spec_step.
      apply (spec_conseq _ _ _ _ (Hexpr rest ltac:(assumption))).
      intros e rest' [He Hrest']. repeat spec_step. assumption.
    + cbn [mult]. spec_step.
      apply (spec_conseq _ _ _ _ (Hfactor ts Hts)).
      intros e rest' [He Hrest'].
      apply (while_op_spec _ _ _ arithmetic arithmetic arithmetic_op);
        auto using mkArithmeticOp_arithmetic.
    + cbn [expr]. spec_step.
      apply (spec_conseq _ _ _ _ (Hmult ts Hts)).
      intros e rest' [He Hrest'].
      apply (while_op_spec _ _ _ arithmetic arithmetic arithmetic_op);
        auto using mkArithmeticOp_arithmetic.
Qed.

Lemma expr_spec_n n ts :
  Forall lexed ts -> spec (expr n) ts (built arithmetic).
Proof. intros H. apply (expr_spec n ts H). Qed.

Lemma comparison_expr_spec n ts :
  Forall lexed ts -> spec (comparison_expr n) ts (built comparison).
Proof.
  intros Hts. unfold comparison_expr. spec_step.
  apply (spec_conseq _ _ _ _ (expr_spec_n n ts Hts)).
  intros e rest [He Hrest].
  apply (while_op_spec _ _ _ comparison arithmetic comparison_op);
    auto using CompOp_comparison, expr_spec_n, arithmetic_comparison.
Qed.

Ltac spec_expr :=
  lazymatch goal with
  | |- spec (expr ?n) ?ts _ =>
      apply (spec_conseq _ _ _ _ (expr_spec_n n ts ltac:(assumption)));
      intros ? ? [? ?]
  | |- spec (comparison_expr ?n) ?ts _ =>
      apply (spec_conseq _ _ _ _ (comparison_expr_spec n ts ltac:(assumption)));
      intros ? ? [? ?]
  end.

Lemma ternary_spec n c ts :
  comparison c = true -> Forall lexed ts ->
  spec (ternary n (Some c)) ts (built assigned).
Proof.
  intros Hc Hts. unfold ternary. repeat first [spec_step | spec_expr].
  cbn [assigned]. repeat (apply andb_true_intro; split); assumption.
Qed.

Lemma comparison_assigned node :
  comparison node = true -> is_CompOp node = false -> assigned node = true.
Proof. now destruct node. Qed.

Lemma Assignment_statement token name value_ :
  lexed token -> type_in (type token) [ID] = true ->
  value token = StrValue name -> assigned value_ = true ->
  statement (Assignment name value_) = true.
Proof.
  intros Hl Hid Hname Hv. cbn [statement].
  now rewrite (lexed_name token name Hl Hid Hname), Hv.
Qed.

Lemma assignment_spec n ts :
  Forall lexed ts -> spec (assignment n) ts (built statement).
Proof.
  intros Hts. unfold assignment. repeat first [spec_step | spec_expr].
  - lazymatch goal with
    | |- spec (ternary ?n (Some ?c)) ?ts _ =>
        apply (spec_conseq _ _ _ _ (ternary_spec n c ts ltac:(assumption)
                                      ltac:(assumption)))
    end.
    intros v rest' [Hv Hrest']. repeat spec_step.
    match goal with
    | Hvalue : value ?t = StrValue ?s |- _ =>
        apply (Assignment_statement t s); assumption
    end.
  - match goal with
    | Hvalue : value ?t = StrValue ?s |- _ =>
        apply (Assignment_statement t s); try assumption
    end.
    now apply comparison_assigned.
Qed.

Lemma set_standalone_statement node :
  arithmetic node = true -> statement (set_standalone node) = true.
Proof.
  destruct node; try discriminate; simpl; destruct standalone;
    try discriminate; auto.
Qed.

Lemma forallb_snoc' (P : Node -> bool) nodes node :
  forallb P nodes = true -> P node = true ->
  forallb P (nodes ++ [node]) = true.
Proof. intros H1 H2. rewrite forallb_app. simpl. now rewrite H1, H2. Qed.

Lemma statement_conditional node :
  conditional node = true -> statement node = true.
Proof. unfold conditional. now intros [_ H]%andb_prop. Qed.

Ltac spec_simple :=
  first
    [ spec_step
    | spec_expr
    | lazymatch goal with
      | |- spec (assignment ?n) ?ts _ =>
          apply (spec_conseq _ _ _ _ (assignment_spec n ts ltac:(assumption)));
          intros ? ? [? ?]
      end ].

Lemma statements_spec n : forall ts, Forall lexed ts ->
  (forall c s, forallb statement s = true ->
               spec (statements n c s) ts (built_all statement))
  /\ spec (repeat n) ts (built statement)
  /\ spec (if_statement n) ts (built conditional)
  /\ (forall s, forallb conditional s = true ->
                spec (elif_loop n s) ts (built_all conditional)).
Proof.
  induction n as [|n IH]; intros ts Hts.
  - split; [|split; [|split]]; intros; apply spec_out_of_fuel.
  - assert (Hstatements : forall ts c s, Forall lexed ts ->
              forallb statement s = true ->
              spec (statements n c s) ts (built_all statement))
      by (intros ts' c s H; apply (IH ts' H)).
    assert (Hrepeat : forall ts, Forall lexed ts ->
              spec (repeat n) ts (built statement))
      by (intros ts' H; apply (IH ts' H)).
    assert (Hif : forall ts, Forall lexed ts ->
              spec (if_statement n) ts (built conditional))
      by (intros ts' H; apply (IH ts' H)).
    assert (Helif : forall ts s, Forall lexed ts ->
              forallb conditional s = true ->
              spec (elif_loop n s) ts (built_all conditional))
      by (intros ts' s H; apply (IH ts' H)).
    clear IH.
    split; [|split; [|split]].
    + intros c s Hs. cbn [statements].
      repeat first
        [ spec_simple
        | lazymatch goal with
          | |- spec (repeat n) ?ts _ =>
              apply (spec_conseq _ _ _ _ (Hrepeat ts ltac:(assumption)));
              intros ? ? [? ?]
          | |- spec (if_statement n) ?ts _ =>
              apply (spec_conseq _ _ _ _ (Hif ts ltac:(assumption)));
              intros ? ? [?%statement_conditional ?]
          | |- spec (statements n ?c ?s) ?ts _ =>
              apply Hstatements; [assumption|apply forallb_snoc'; [assumption|]]
          | |- statement (set_standalone _) = true =>
              apply set_standalone_statement
          end ]; try assumption.
    + cbn [repeat].
      repeat first
        [ spec_simple
        | lazymatch goal with
          | |- spec (statements n ?c []) ?ts _ =>
              apply (spec_conseq _ _ _ _
                       (Hstatements ts c [] ltac:(assumption) eq_refl));
              intros ? ? [? ?]
          end ]; try assumption.
      cbn [statement]. apply andb_true_intro; split; assumption.
    + cbn [if_statement].
      repeat first
        [ spec_simple
        | lazymatch goal with
          | |- spec (statements n ?c []) ?ts _ =>
              apply (spec_conseq _ _ _ _
                       (Hstatements ts c [] ltac:(assumption) eq_refl));
              intros ? ? [? ?]
          | |- spec (elif_loop n []) ?ts _ =>
              apply (spec_conseq _ _ _ _
                       (Helif ts [] ltac:(assumption) eq_refl));
              intros ? ? [? ?]
          end ]; try assumption;
        unfold conditional; cbn [is_IfStatement statement andb];
        repeat (apply andb_true_intro; split);
        first [assumption | reflexivity].
    + intros s Hs. cbn [elif_loop].
      repeat first
        [ spec_simple
        | lazymatch goal with
          | |- spec (if_statement n) ?ts _ =>
              apply (spec_conseq _ _ _ _ (Hif ts ltac:(assumption)));
              intros ? ? [? ?]
          | |- spec (elif_loop n ?s) ?ts _ =>
              apply Helif; [assumption|apply forallb_snoc'; assumption]
          end ]; try assumption.
Qed.

Lemma parse_builds_program tokens mod_ :
  Forall lexed tokens -> parse tokens = Some (Ok mod_) -> program mod_ = true.
Proof.
  intros Htokens. unfold parse.
  destruct (statements_spec (parse_fuel tokens) tokens Htokens) as (H & _).
  destruct (H ALWAYS [] eq_refl) as [Hpost _].
  destruct (statements _ _ _ _) as [[[stats rest]|e]|]; try discriminate.
  intros [= <-]. exact (proj1 (Hpost stats rest eq_refl)).
Qed.


Lemma wp_anything {A} (p : Parser A) ts : wp false p ts (fun _ _ => True).
Proof. split; [discriminate|auto]. Qed.

Ltac wp_skip :=
  lazymatch goal with
  | |- wp false ?p ?ts _ =>
      apply (wp_conseq _ _ _ _ _ (wp_anything p ts)); intros ? ? _
  end.

Lemma statements_reads_all n : forall s ts,
  wp false (statements n ALWAYS s) ts (fun _ rest => rest = []).
Proof.
  induction n as [|n IH]; intros s ts; [apply wp_out_of_fuel|].
  cbn [statements]. unfold ALWAYS at 1.
  repeat first
    [ lazymatch goal with
      | |- wp false (statements n ALWAYS _) _ _ => apply IH
      | |- wp false (expr _) _ _ => wp_skip
      | |- wp false (assignment _) _ _ => wp_skip
      | |- wp false (repeat _) _ _ => wp_skip
      | |- wp false (if_statement _) _ _ => wp_skip
      end
    | wp_step ].
  now destruct ts.
Qed.
Lemma operator_chain_loop ops mk operand node ts result rest :
  (forall n m, n <= m -> refines (operand n) (operand m)) ->
  operator_chain ops mk operand node ts result rest ->
  exists k, forall n m, k <= n -> k <= m ->
    while_op n ops mk (operand m) node ts = Some (Ok (result, rest)).
Proof.
  intros Hmono.
  induction 1 as [node ts Hstop
                 |node token op ts r ts' result rest Hin Hop Hoperand _ IH].
  - exists 1. intros [|n] m Hn _; [lia|]. cbn [while_op].
    rewrite (bind_ok get_token _ ts (head ts) ts) by reflexivity.
    destruct ts as [|token ts]; [reflexivity|]. cbn [head] in *.
    now rewrite Hstop.
  - destruct IH as [k IH].
    destruct (parses_from operand _ _ _ Hmono Hoperand) as [k' Hk'].
    exists (S (Nat.max k k')). intros [|n] m Hn Hm; [lia|]. cbn [while_op].
    rewrite (bind_ok get_token _ _ (Some token) (token :: ts)) by reflexivity.
    rewrite Hin.
    rewrite (bind_ok _ _ _ tt ts) by (now apply (eat_own_type _ _ ops)).
    rewrite (bind_ok _ _ _ r ts') by (apply Hk'; lia).
    unfold str_value. rewrite Hop.
    rewrite (bind_ok (ret op) _ ts' op ts') by reflexivity.
    apply IH; lia.
Qed.

Lemma factor_mono n m : n <= m -> refines (factor n) (factor m).
Proof. intros H. apply (expr_mono n m H). Qed.

Lemma mult_mono n m : n <= m -> refines (mult n) (mult m).
Proof. intros H. apply (expr_mono n m H). Qed.

(** X6.  The module parsed from the tokens of a text keeps to the
    grammar: its statements are arithmetic expressions standing alone,
    assignments of an arithmetic expression or a ternary to a name that is
    not empty, loops and conditionals; every operator is one of [+ - * /]
    in an arithmetic node and one of [< >] in a comparison; a comparison
    stands only as a condition, with arithmetic operands on its right. *)
Theorem parsed_module_is_program source_code tokens mod_ :
  tokenize source_code = Some (Ok tokens) ->
  parse tokens = Some (Ok mod_) ->
  program mod_ = true.
Proof.
  intros Htokens. apply parse_builds_program.
  exact (tokenize_lexed _ _ Htokens).
Qed.

Lemma parsed_module_witness :
  program (Module
     [Assignment "x" (Literal 1 false);
      Assignment "y" (Reference EmptyString false)]) = true.
Proof.
  apply (parsed_module_is_program minus_source minus_tokens);
    vm_compute; reflexivity.
Defined.

(** X7.  [parse] reads every token: when it returns a module, the loop
    over the statements has stopped at the end of the tokens and nowhere
    else, so that no token is left out of the module. *)
Theorem parse_reads_every_token tokens mod_ :
  parse tokens = Some (Ok mod_) ->
  exists stats,
    mod_ = Module stats
    /\ statements (parse_fuel tokens) ALWAYS [] tokens = Some (Ok (stats, [])).
Proof.
  unfold parse.
  destruct (statements_reads_all (parse_fuel tokens) [] tokens) as [_ Hpost].
  destruct (statements _ _ _ _) as [[[stats rest]|e]|]; try discriminate.
  intros [= <-]. exists stats. split; [reflexivity|].
  now rewrite (Hpost stats rest eq_refl).
Qed.

Lemma parse_reads_every_token_witness :
  exists stats,
    Module [Assignment "x" (Literal 1 false);
            Assignment "y" (Reference EmptyString false)] = Module stats
    /\ statements (parse_fuel minus_tokens) ALWAYS [] minus_tokens
       = Some (Ok (stats, [])).
Proof.
  apply (parse_reads_every_token minus_tokens). vm_compute. reflexivity.
Defined.

(** X8.  Sums group to the left, over products: a chain
    [m0 + m1 - m2 ...] of products is read as the sum whose left operand
    is the chain before its last operator. *)
Theorem sum_groups_left :
  forall ts first ts1 result rest,
    parses mult ts first ts1 ->
    operator_chain [PLUS; MINUS] mkArithmeticOp mult first ts1 result rest ->
    parses expr ts result rest.
Proof.
  intros ts first ts1 result rest Hfirst Hchain.
  destruct (parses_from mult _ _ _ mult_mono Hfirst) as [k Hk].
  destruct (operator_chain_loop _ _ _ _ _ _ _ mult_mono Hchain) as [k' Hk'].
  exists (S (Nat.max k k')). cbn [expr].
  rewrite (bind_ok _ _ _ first ts1) by (apply Hk; lia).
  apply Hk'; lia.
Qed.

Lemma sum_groups_left_witness :
  parses expr sum_tokens
    (ArithmeticOp
       (ArithmeticOp (Literal 1 false) "-"
          (ArithmeticOp (Literal 2 false) "*" (Literal 3 false) false) false)
       "-" (Literal 4 false) false)
    (skipn 7 sum_tokens).
Proof.
  eapply (sum_groups_left _ (Literal 1 false) (skipn 1 sum_tokens)).
  - exists 5. vm_compute. reflexivity.
  - eapply (operators_more _ _ _ _ _ "-" _
              (ArithmeticOp (Literal 2 false) "*" (Literal 3 false) false)
              (skipn 5 sum_tokens)).
    + reflexivity.
    + reflexivity.
    + exists 5. vm_compute. reflexivity.
    + eapply (operators_more _ _ _ _ _ "-" _ (Literal 4 false)
                (skipn 7 sum_tokens)).
      * reflexivity.
      * reflexivity.
      * exists 5. vm_compute. reflexivity.
      * apply operators_done; reflexivity.
Defined.

(** X9.  Products group to the left: a chain [f0 * f1 / f2 ...] of
    factors is read as the product whose left operand is the chain
    before its last operator. *)
Theorem product_groups_left :
  forall ts first ts1 result rest,
    parses factor ts first ts1 ->
    operator_chain [MUL; DIV] mkArithmeticOp factor first ts1 result rest ->
    parses mult ts result rest.
Proof.
  intros ts first ts1 result rest Hfirst Hchain.
  destruct (parses_from factor _ _ _ factor_mono Hfirst) as [k Hk].
  destruct (operator_chain_loop _ _ _ _ _ _ _ factor_mono Hchain) as [k' Hk'].
  exists (S (Nat.max k k')). cbn [mult].
  rewrite (bind_ok _ _ _ first ts1) by (apply Hk; lia).
  apply Hk'; lia.
Qed.

Lemma product_groups_left_witness :
  parses mult product_tokens
    (ArithmeticOp
       (ArithmeticOp (Literal 8 false) "/" (Literal 4 false) false)
       "/" (Literal 2 false) false)
    (skipn 5 product_tokens).
Proof.
  eapply (product_groups_left _ (Literal 8 false) (skipn 1 product_tokens)).
  - exists 5. vm_compute. reflexivity.
  - eapply (operators_more _ _ _ _ _ "/" _ (Literal 4 false)
              (skipn 3 product_tokens)).
    + reflexivity.
    + reflexivity.
    + exists 5. vm_compute. reflexivity.
    + eapply (operators_more _ _ _ _ _ "/" _ (Literal 2 false)
                (skipn 5 product_tokens)).
      * reflexivity.
      * reflexivity.
      * exists 5. vm_compute. reflexivity.
      * apply operators_done; reflexivity.
Defined.

Local Close Scope parser_scope.

(** * More on evaluation *)


Section Respects.

Variable rel : State -> State -> Prop.
Hypothesis rel_refl : forall st, rel st st.
Hypothesis rel_trans : forall st1 st2 st3, rel st1 st2 -> rel st2 st3 -> rel st1 st3.

Lemma respects_pure {A} (R : A -> Prop) a : R a -> respects rel R (pure a).
Proof. intros H st. split; [apply rel_refl|exact H]. Qed.

Lemma respects_raise {A} (R : A -> Prop) e :
  run_error e = true -> respects rel R (raise e).
Proof. intros H st. split; [apply rel_refl|exact H]. Qed.

Lemma respects_lift {A} (r : Result A) :
  (forall e, r = Raise e -> run_error e = true) ->
  respects rel anything (lift r).
Proof.
  intros H st. split; [apply rel_refl|]. simpl.
  destruct r; [exact I|now apply H].
Qed.

Lemma respects_and_then {A B} (R : A -> Prop) (Q : B -> Prop) m f :
  respects rel R m -> (forall a, R a -> respects rel Q (f a)) ->
  respects rel Q (and_then m f).
Proof.
  intros Hm Hf st. unfold and_then. specialize (Hm st).
  destruct (m st) as [[a|e] st1]; simpl in *; [|exact Hm].
  destruct Hm as [Hrel HR]. destruct (Hf a HR st1) as [Hrel' HQ].
  split; [now apply (rel_trans _ st1)|exact HQ].
Qed.

Lemma respects_conseq {A} (R R' : A -> Prop) m :
  respects rel R m -> (forall a, R a -> R' a) -> respects rel R' m.
Proof.
  intros Hm HR st. destruct (Hm st) as [Hrel H]. split; [exact Hrel|].
  destruct (fst (m st)); auto.
Qed.

Lemma respects_unchanged {A} (R : A -> Prop) m :
  respects eq R m -> respects rel R m.
Proof.
  intros Hm st. destruct (Hm st) as [<- H]. split; [apply rel_refl|exact H].
Qed.

Lemma respects_for_each {A X} (R : A -> Prop) (body : X -> M A) xs :
  Forall (fun x => respects rel R (body x)) xs ->
  respects rel anything (for_each body xs).
Proof.
  induction 1 as [|x xs Hx _ IH]; simpl; [now apply respects_pure|].
  apply (respects_and_then R); auto.
Qed.

Lemma respects_first_truthy {X} (R : option Value -> Prop)
    (body : X -> M (option Value)) xs :
  Forall (fun x => respects rel R (body x)) xs ->
  respects rel anything (first_truthy body xs).
Proof.
  induction 1 as [|x xs Hx _ IH]; simpl; [now apply respects_pure|].
  apply (respects_and_then R); [exact Hx|]. intros v _.
  destruct (truthy v); [now apply respects_pure|exact IH].
Qed.

End Respects.

Lemma number_errors v e : number v = Raise e -> run_error e = true.
Proof. destruct v as [[]|]; intros [= <-]; reflexivity. Qed.

Lemma to_float_errors n e : to_float n = Raise e -> run_error e = true.
Proof.
  destruct n as [z|f]; [|discriminate]. unfold to_float, float_of_int.
  destruct (binary_normalize _ _ _ _ _); intros [= <-]; reflexivity.
Qed.

Lemma int_true_divide_errors a b e :
  int_true_divide a b = Raise e -> run_error e = true.
Proof.
  unfold int_true_divide. destruct (a =? 0)%Z; [discriminate|].
  destruct (SFdiv _ _ _ _); intros [= <-]; reflexivity.
Qed.

Ltac errors :=
  repeat match goal with
         | |- context [match number ?x with _ => _ end] =>
             destruct (number x) as [[?|?]|?] eqn:?
         | |- context [match to_float ?x with _ => _ end] =>
             destruct (to_float x) eqn:?
         | |- context [if ?t then _ else _] => destruct t
         end;
  try discriminate;
  try (intros [= <-]);
  eauto using number_errors, to_float_errors, int_true_divide_errors.

Lemma arith_errors int_op float_op x y e :
  arith int_op float_op x y = Raise e -> run_error e = true.
Proof. unfold arith. errors. Qed.

Lemma truediv_errors x y e :
  truediv x y = Raise e -> run_error e = true.
Proof. unfold truediv. errors. Qed.

Lemma compare_with_errors want x y e :
  compare_with want x y = Raise e -> run_error e = true.
Proof. unfold compare_with. errors. Qed.

Lemma range_errors v e : range v = Raise e -> run_error e = true.
Proof. destruct v as [[]|]; intros [= <-]; reflexivity. Qed.

Lemma arithmetic_op_errors op :
  arithmetic_op op = true ->
  exists f, ARITHMETIC_OP_MAPPINGS op = Some f
            /\ forall x y e, f x y = Raise e -> run_error e = true.
Proof.
  unfold arithmetic_op, str_in, ARITHMETIC_OP_MAPPINGS. cbn [existsb].
  destruct (String.eqb op "+"); [eauto using arith_errors|].
  destruct (String.eqb op "-"); [eauto using arith_errors|].
  destruct (String.eqb op "*"); [eauto using arith_errors|].
  destruct (String.eqb op "/"); [eauto using truediv_errors|discriminate].
Qed.

Lemma comparison_op_errors op :
  comparison_op op = true ->
  exists f, COMP_OP_MAPPINGS op = Some f
            /\ forall x y e, f x y = Raise e -> run_error e = true.
Proof.
  unfold comparison_op, str_in, COMP_OP_MAPPINGS. cbn [existsb].
  destruct (String.eqb op ">"); [eauto using compare_with_errors|].
  destruct (String.eqb op "<"); [eauto using compare_with_errors|].
  discriminate.
Qed.

Lemma and_then_pure {A B} (a : A) (f : A -> M B) : and_then (pure a) f = f a.
Proof. reflexivity. Qed.

Lemma respects_get_or_raise name : respects eq anything (get_or_raise name).
Proof.
  intros st. unfold get_or_raise.
  destruct (symbols st !! name); split; reflexivity || exact I.
Qed.

Lemma respects_log_silent v : respects eq is_Some (log false v).
Proof. intros st. split; [reflexivity|]. simpl. eauto. Qed.

Ltac split_shape :=
  repeat match goal with
         | H : _ && _ = true |- _ => apply andb_prop in H as [? ?]
         end.

(** An operator applied to the values of its two operands. *)
Lemma respects_operator rel mappings op (left_ right_ : M (option Value))
    (R : option Value -> Prop) (k : Value -> M (option Value)) :
  (forall st, rel st st) ->
  (forall st1 st2 st3, rel st1 st2 -> rel st2 st3 -> rel st1 st3) ->
  (exists f, mappings op = Some f
             /\ forall x y e, f x y = Raise e -> run_error e = true) ->
  respects rel is_Some left_ -> respects rel is_Some right_ ->
  (forall v, respects rel R (k v)) ->
  respects rel R
    (f <- subscript mappings op ;;
     x <- left_ ;;
     y <- right_ ;;
     v <- lift (f x y) ;;
     k v).
Proof.
  intros Hrefl Htrans (f & Hf & Herr) Hl Hr Hk. unfold subscript. rewrite Hf.
  rewrite and_then_pure.
  apply (respects_and_then rel Htrans is_Some); [exact Hl|intros x _].
  apply (respects_and_then rel Htrans is_Some); [exact Hr|intros y _].
  apply (respects_and_then rel Htrans anything); [|intros v _; apply Hk].
  apply respects_lift; [exact Hrefl|apply Herr].
Qed.

Lemma eval_arithmetic node :
  arithmetic node = true -> respects eq is_Some (eval node).
Proof.
  induction node; cbn [arithmetic]; try discriminate;
    destruct standalone; try discriminate; intros H; cbn [eval].
  - apply (respects_and_then eq (@eq_trans State) anything);
      [apply respects_get_or_raise|intros v _; apply respects_log_silent].
  - apply respects_log_silent.
  - split_shape.
    apply (respects_operator eq); auto using arithmetic_op_errors, respects_log_silent.
    apply (@eq_trans State).
Qed.

Lemma eval_comparison node :
  comparison node = true -> respects eq is_Some (eval node).
Proof.
  induction node; cbn [comparison]; try apply eval_arithmetic.
  intros H. split_shape. cbn [eval].
  apply (respects_operator eq); auto using comparison_op_errors, eval_arithmetic.
  - apply (@eq_trans State).
  - intros v. apply respects_pure; eauto.
Qed.

Lemma eval_assigned node :
  assigned node = true -> respects eq is_Some (eval node).
Proof.
  destruct node; cbn [assigned]; try apply eval_arithmetic.
  intros H. split_shape. cbn [eval].
  apply (respects_and_then eq (@eq_trans State) is_Some);
    [now apply eval_comparison|intros c _].
  destruct (truthy c); now apply eval_arithmetic.
Qed.

Lemma grows_refl st : grows st st.
Proof.
  split; [auto|]. split; [|reflexivity]. exists []. now rewrite app_nil_r.
Qed.

Lemma grows_trans st1 st2 st3 : grows st1 st2 -> grows st2 st3 -> grows st1 st3.
Proof.
  intros (H1 & [p1 Hp1] & Hd1) (H2 & [p2 Hp2] & Hd2).
  split; [auto|]. split; [|congruence].
  exists (p1 ++ p2)%list. now rewrite Hp2, Hp1, <- app_assoc.
Qed.

Lemma respects_log standalone v : respects grows is_Some (log standalone v).
Proof.
  intros st. split; [|simpl; destruct standalone; simpl; eauto].
  destruct standalone; [|apply grows_refl].
  split; [auto|]. split; [|reflexivity]. now exists [v].
Qed.

Lemma respects_add name v : respects grows anything (add name (Some v)).
Proof.
  intros st. split; [|exact I]. split; [|split; [|reflexivity]].
  - intros k Hk. simpl. destruct (decide (name = k)) as [->|Hne].
    + rewrite lookup_insert_eq. eauto.
    + now rewrite lookup_insert_ne.
  - exists []. simpl. now rewrite app_nil_r.
Qed.

Lemma grows_pure {A} (a : A) : respects grows anything (pure a).
Proof. apply respects_pure; [apply grows_refl|exact I]. Qed.

Lemma all_of (p : Node -> bool) (P : Node -> Prop) nodes :
  Forall (fun node => p node = true -> P node) nodes ->
  forallb p nodes = true ->
  Forall P nodes.
Proof.
  induction 1 as [|x xs Hx _ IH]; simpl; [constructor|].
  intros H. apply andb_prop in H as [H1 H2]. constructor; auto.
Qed.

Lemma all_conditional nodes :
  forallb (fun node => is_IfStatement node && statement node) nodes = true ->
  forallb statement nodes = true.
Proof.
  induction nodes as [|x xs IH]; simpl; [reflexivity|].
  intros H. split_shape. now rewrite IH, H1.
Qed.

Lemma eval_statement node :
  statement node = true -> respects grows anything (eval node).
Proof.
  induction node using Node_nested_ind; cbn [statement]; try discriminate;
    try (destruct standalone; try discriminate); intros Hs; cbn [eval];
    split_shape.
  - apply (respects_and_then grows grows_trans anything).
    + apply respects_unchanged; [apply grows_refl|apply respects_get_or_raise].
    + intros v _. apply (respects_conseq _ _ _ _ (respects_log true v)).
      now intros.
  - apply (respects_conseq _ _ _ _ (respects_log true _)).
    now intros.
  - apply (respects_operator grows);
      [apply grows_refl|apply grows_trans|now apply arithmetic_op_errors| | |].
    + apply respects_unchanged; [apply grows_refl|apply eval_arithmetic; assumption].
    + apply respects_unchanged; [apply grows_refl|apply eval_arithmetic; assumption].
    + intros v. apply (respects_conseq _ _ _ _ (respects_log true v)).
      now intros.
  - apply (respects_and_then grows grows_trans is_Some).
    + apply respects_unchanged; [apply grows_refl|apply eval_assigned; assumption].
    + intros v [v' ->].
      apply (respects_and_then grows grows_trans anything);
        [apply respects_add|intros _ _; apply grows_pure].
  - (* IfStatement *)
    apply (respects_and_then grows grows_trans is_Some).
    { apply respects_unchanged; [apply grows_refl|apply eval_comparison; assumption]. }
    intros c _. destruct (truthy c).
    + apply (respects_and_then grows grows_trans anything);
        [|intros _ _; apply grows_pure].
      apply (respects_for_each grows grows_refl grows_trans anything).
      now apply (all_of statement).
    + apply (respects_and_then grows grows_trans anything).
      * apply (respects_first_truthy grows grows_refl grows_trans anything).
        apply (all_of statement); [assumption|]. now apply all_conditional.
      * intros handled _. destruct handled; [apply grows_pure|].
        apply (respects_and_then grows grows_trans anything);
          [|intros _ _; apply grows_pure].
        apply (respects_for_each grows grows_refl grows_trans anything).
        now apply (all_of statement).
  - (* Repeat *)
    apply (respects_and_then grows grows_trans is_Some).
    { apply respects_unchanged; [apply grows_refl|apply eval_arithmetic; assumption]. }
    intros n _.
    apply (respects_and_then grows grows_trans anything).
    { apply respects_lift; [apply grows_refl|apply range_errors]. }
    intros r _.
    apply (respects_and_then grows grows_trans anything);
      [|intros _ _; apply grows_pure].
    apply (respects_for_each grows grows_refl grows_trans anything).
    apply Forall_forall. intros z _.
    apply (respects_for_each grows grows_refl grows_trans anything).
    now apply (all_of statement).
Qed.

Lemma eval_program mod_ :
  program mod_ = true -> respects grows anything (eval mod_).
Proof.
  destruct mod_; try discriminate. cbn [program eval]. intros H.
  apply (respects_and_then grows grows_trans anything);
    [|intros _ _; apply grows_pure].
  apply (respects_for_each grows grows_refl grows_trans anything).
  apply (all_of statement); [|assumption].
  apply Forall_forall. intros node _. apply eval_statement.
Qed.



(** X11.  A run of a parsed program only adds: a name that is bound stays
    bound, the lines printed stay and new ones come after them, whether
    the run ends well or in an error. *)
Theorem program_only_adds mod_ st r st' :
  program mod_ = true ->
  eval mod_ st = (r, st') ->
  grows st st'.
Proof.
  intros Hprogram Heval. destruct (eval_program mod_ Hprogram st) as [H _].
  now rewrite Heval in H.
Qed.

Lemma program_only_adds_witness :
  grows (SymbolTable [])
    (mkState (<["x" := VInt 1]> ∅) [VInt 1] []).
Proof.
  apply (program_only_adds
           (Module [Assignment "x" (Literal 1 false); Reference "x" true])
           (SymbolTable []) (Ok None)); reflexivity.
Defined.

(** X12.  Evaluating an expression (an arithmetic expression, a
    comparison, a ternary) changes nothing, binds no name and prints no
    line, and what it returns is a value, never [None]. *)
Theorem expression_leaves_state node st r st' :
  comparison node || assigned node = true ->
  eval node st = (r, st') ->
  st' = st /\ forall v, r = Ok v -> is_Some v.
Proof.
  intros Hnode Heval.
  assert (H : respects eq is_Some (eval node)).
  { apply orb_prop in Hnode as [H|H];
      [now apply eval_comparison|now apply eval_assigned]. }
  destruct (H st) as [Hst Hr]. rewrite Heval in Hst, Hr. simpl in *.
  split; [congruence|]. now intros v ->.
Qed.

Lemma expression_leaves_state_witness :
  SymbolTable [] = SymbolTable []
  /\ forall v, Ok (Some (VBool true)) = Ok v -> is_Some v.
Proof.
  apply (expression_leaves_state
           (CompOp (Literal 1 false) "<" (Literal 2 false)) (SymbolTable []));
    reflexivity.
Defined.

Lemma eval_arithmetic_state node st :
  arithmetic node = true -> snd (eval node st) = st.
Proof. intros H. now destruct (eval_arithmetic node H st) as [<- _]. Qed.

Lemma eval_set_standalone node st :
  arithmetic node = true ->
  eval (set_standalone node) st
  = match eval node st with
    | (Ok (Some v), _) =>
        (Ok (Some v), mkState (symbols st) (stdout st ++ [v]) (draws st))
    | other => other
    end.
Proof.
  destruct node; try discriminate; destruct standalone; try discriminate;
    cbn [arithmetic set_standalone eval]; intros H.
  - unfold and_then, get_or_raise. now destruct (symbols st !! name).
  - reflexivity.
  - apply andb_prop in H as [[Hop Hl]%andb_prop Hr].
    unfold and_then, subscript.
    destruct (ARITHMETIC_OP_MAPPINGS op) as [f|]; [|reflexivity]. cbn [pure].
    pose proof (eval_arithmetic_state node1 st Hl) as Hst1.
    destruct (eval node1 st) as [[x|e] st1]; simpl in Hst1; subst st1;
      [|reflexivity].
    pose proof (eval_arithmetic_state node2 st Hr) as Hst2.
    destruct (eval node2 st) as [[y|e] st2]; simpl in Hst2; subst st2;
      [|reflexivity].
    unfold lift. now destruct (f x y).
Qed.

(** X13.  An expression statement prints the value of its expression,
    one line and no more, and changes nothing else; when the expression
    raises, the statement raises the same and nothing is printed.  (The
    value is one that [print] can write: an integer within the bound on
    digits.) *)
Theorem expression_statement_prints_value node st :
  arithmetic node = true ->
  (forall v st1,
     eval node st = (Ok (Some v), st1) -> printable v = true ->
     eval (set_standalone node) st
     = (Ok (Some v), mkState (symbols st) (stdout st ++ [v]) (draws st)))
  /\ (forall e st1,
        eval node st = (Raise e, st1) ->
        eval (set_standalone node) st = (Raise e, st)).
Proof.
  intros H. rewrite (eval_set_standalone node st H).
  pose proof (eval_arithmetic_state node st H) as Hst. split.
  - intros v st1 Heval _. now rewrite Heval.
  - intros e st1 Heval. rewrite Heval in Hst |- *. simpl in Hst. now subst.
Qed.

Lemma expression_statement_witness :
  (forall v st1,
     eval (Literal 7 false) (SymbolTable []) = (Ok (Some v), st1) ->
     printable v = true ->
     eval (set_standalone (Literal 7 false)) (SymbolTable [])
     = (Ok (Some v),
        mkState (symbols (SymbolTable []))
          (stdout (SymbolTable []) ++ [v]) (draws (SymbolTable []))))
  /\ (forall e st1,
        eval (Literal 7 false) (SymbolTable []) = (Raise e, st1) ->
        eval (set_standalone (Literal 7 false)) (SymbolTable [])
        = (Raise e, SymbolTable [])).
Proof.
  apply (expression_statement_prints_value (Literal 7 false) (SymbolTable [])).
  reflexivity.
Defined.

(** ** A conditional with [elif] clauses, nested or flat *)

Lemma and_then_ext {A B} (m : M A) (f g : A -> M B) st :
  (forall a st', f a st' = g a st') -> and_then m f st = and_then m g st.
Proof. intros H. unfold and_then. destruct (m st) as [[a|e] st']; auto. Qed.

Lemma eval_IfStatement condition block elseif_statements else_block :
  eval (IfStatement condition block elseif_statements else_block)
  = (c <- eval condition ;;
     if truthy c then for_each eval block ;; pure (Some (VBool true))
     else otherwise elseif_statements else_block).
Proof. reflexivity. Qed.

(** A conditional answers [True] or [False]. *)
Lemma eval_IfStatement_bool condition block elseif_statements else_block st v st' :
  eval (IfStatement condition block elseif_statements else_block) st
  = (Ok v, st') ->
  exists b, v = Some (VBool b).
Proof.
  rewrite eval_IfStatement. unfold and_then, otherwise, and_then.
  destruct (eval condition st) as [[c|e] st1]; [|discriminate].
  destruct (truthy c).
  - destruct (for_each eval block st1) as [[[]|e] st2]; [|discriminate].
    intros [= <- _]. eauto.
  - destruct (first_truthy eval elseif_statements st1) as [[[]|e] st2];
      [| |discriminate].
    + intros [= <- _]. eauto.
    + destruct (for_each eval else_block st2) as [[[]|e] st3]; [|discriminate].
      intros [= <- _]. eauto.
Qed.

(** A single [elif] entry and no [else] block: the entry decides. *)
Lemma otherwise_single condition block elseif_statements else_block st :
  otherwise [IfStatement condition block elseif_statements else_block] [] st
  = eval (IfStatement condition block elseif_statements else_block) st.
Proof.
  unfold otherwise. cbn [first_truthy for_each]. unfold and_then at 1 2.
  destruct (eval (IfStatement _ _ _ _) st) as [[v|e] st1] eqn:Heval;
    [|reflexivity].
  destruct (eval_IfStatement_bool _ _ _ _ _ _ _ Heval) as [[] ->]; reflexivity.
Qed.

(** A first [elif] entry without entries or [else] of its own, before
    the others: the conditional it heads. *)
Lemma otherwise_cons condition block elseif_statements else_block st :
  otherwise (IfStatement condition block [] [] :: elseif_statements) else_block st
  = eval (IfStatement condition block elseif_statements else_block) st.
Proof.
  rewrite eval_IfStatement. unfold otherwise at 1.
  cbn [first_truthy]. rewrite eval_IfStatement.
  unfold otherwise, and_then. cbn [first_truthy for_each pure].
  destruct (eval condition st) as [[c|e] st1]; [|reflexivity].
  destruct (truthy c); [|reflexivity].
  destruct (for_each eval block st1) as [[[]|e] st2]; reflexivity.
Qed.

Lemma otherwise_nested condition block clauses else_block st :
  otherwise [nested_conditional condition block clauses else_block] [] st
  = eval (nested_conditional condition block clauses else_block) st.
Proof. destruct clauses as [|[c b] clauses]; apply otherwise_single. Qed.

(** X14.  The conditional that nests each [elif] clause in the one
    before it runs as the conditional that lists the clauses side by
    side: from every state, the same result and the same state after. *)
Theorem nested_conditional_runs_as_flat clauses :
  forall condition block else_block st,
    eval (nested_conditional condition block clauses else_block) st
    = eval (flat_conditional condition block clauses else_block) st.
Proof.
  induction clauses as [|[c1 b1] clauses IH];
    intros condition block else_block st; [reflexivity|].
  unfold flat_conditional. cbn [nested_conditional map fst snd].
  rewrite !eval_IfStatement. apply and_then_ext. intros c st1.
  destruct (truthy c); [reflexivity|].
  rewrite otherwise_cons, otherwise_nested. apply IH.
Qed.




(** ** Programs without division *)






















(** * More on rendering *)

Section RenderingExpressions.

Variable float_repr : spec_float -> string.

Lemma renders_operator (mk : string -> string -> string) left_ right_ node
    (m : nat -> M string) :
  names node = (names left_ ++ names right_)%list ->
  (forall indent st,
     m indent st
     = match compile float_repr left_ indent st with
       | (Ok l, st1) =>
           match compile float_repr right_ indent st1 with
           | (Ok r, st2) => (Ok (mk l r), st2)
           | (Raise e, st2) => (Raise e, st2)
           end
       | (Raise e, st1) => (Raise e, st1)
       end) ->
  renders float_repr left_ -> renders float_repr right_ ->
  forall indent st,
    snd (m indent st) = st /\ rendered st node (fst (m indent st)).
Proof.
  intros Hnames Hm Hl Hr indent st. rewrite Hm.
  destruct (Hl indent st) as [Hst1 Hl1].
  destruct (compile float_repr left_ indent st) as [[l|e] st1];
    simpl in Hst1, Hl1; subst st1.
  - destruct (Hr indent st) as [Hst2 Hr2].
    destruct (compile float_repr right_ indent st) as [[r|e] st2];
      simpl in Hst2, Hr2; subst st2; (split; [reflexivity|]);
      unfold rendered; rewrite Hnames.
    + apply Forall_app. now split.
    + destruct Hr2 as (name & Hin & Hrest). exists name.
      split; [apply in_or_app; now right|exact Hrest].
  - split; [reflexivity|]. unfold rendered. rewrite Hnames.
    destruct Hl1 as (name & Hin & Hrest). exists name.
    split; [apply in_or_app; now left|exact Hrest].
Qed.

Lemma arithmetic_renders node : arithmetic node = true -> renders float_repr node.
Proof.
  induction node; cbn [arithmetic]; try discriminate;
    destruct standalone; try discriminate; intros H.
  - intros indent st. cbn [compile names]. unfold and_then, get_or_raise.
    unfold rendered, bound.
    destruct (symbols st !! name) eqn:Hname; simpl.
    + split; [reflexivity|]. constructor; [rewrite Hname; eauto|constructor].
    + split; [reflexivity|]. exists name. split; [now left|]. now split.
  - intros indent st. split; [reflexivity|]. constructor.
  - apply andb_prop in H as [[Hop Hl]%andb_prop Hr].
    intros indent st.
    apply (renders_operator
             (fun l r =>
                if substring_in op "*/" && substring_in (getattr_op node2) "+-"
                then (l ++ " " ++ op ++ " ") ++ "(" ++ r ++ ")"
                else (l ++ " " ++ op ++ " ") ++ r) node1 node2
             (ArithmeticOp node1 op node2 false)
             (compile float_repr (ArithmeticOp node1 op node2 false)));
      [reflexivity| |auto|auto].
    clear indent st. intros indent st. cbn [compile]. unfold and_then.
    destruct (compile float_repr node1 indent st) as [[l|e] st1]; [|reflexivity].
    destruct (substring_in op "*/" && substring_in (getattr_op node2) "+-");
      destruct (compile float_repr node2 indent st1) as [[r|e] st2]; reflexivity.
Qed.

Lemma comparison_renders node : comparison node = true -> renders float_repr node.
Proof.
  induction node; cbn [comparison]; try apply arithmetic_renders.
  intros H. apply andb_prop in H as [[Hop Hl]%andb_prop Hr].
  intros indent st.
  apply (renders_operator (fun l r => l ++ " " ++ op ++ " " ++ r) node1 node2
           (CompOp node1 op node2) (compile float_repr (CompOp node1 op node2)));
    [reflexivity| |auto|now apply arithmetic_renders].
  clear indent st. intros indent st. cbn [compile]. unfold and_then.
  destruct (compile float_repr node1 indent st) as [[l|e] st1]; [|reflexivity].
  destruct (compile float_repr node2 indent st1) as [[r|e] st2]; reflexivity.
Qed.

Lemma assigned_renders node : assigned node = true -> renders float_repr node.
Proof.
  destruct node; cbn [assigned]; try apply arithmetic_renders.
  intros H. apply andb_prop in H as [[Hc Ht]%andb_prop Hf].
  intros indent st. cbn [compile names]. unfold and_then.
  destruct (comparison_renders node1 Hc indent st) as [Hst1 H1].
  destruct (compile float_repr node1 indent st) as [[c|e] st1];
    simpl in Hst1, H1; subst st1.
  2:{ split; [reflexivity|]. destruct H1 as (name & Hin & Hrest).
      exists name. split; [apply in_or_app; now left|exact Hrest]. }
  destruct (arithmetic_renders node2 Ht indent st) as [Hst2 H2].
  destruct (compile float_repr node2 indent st) as [[t|e] st2];
    simpl in Hst2, H2; subst st2.
  2:{ split; [reflexivity|]. destruct H2 as (name & Hin & Hrest).
      exists name. split; [|exact Hrest].
      apply in_or_app; right; apply in_or_app; now left. }
  destruct (arithmetic_renders node3 Hf indent st) as [Hst3 H3].
  destruct (compile float_repr node3 indent st) as [[f|e] st3];
    simpl in Hst3, H3; subst st3.
  2:{ split; [reflexivity|]. destruct H3 as (name & Hin & Hrest).
      exists name. split; [|exact Hrest].
      apply in_or_app; right; apply in_or_app; now right. }
  split; [reflexivity|]. simpl. unfold rendered in *.
  apply Forall_app. split; [exact H1|]. apply Forall_app. now split.
Qed.

Lemma expression_renders node :
  comparison node || assigned node = true -> renders float_repr node.
Proof.
  intros [H|H]%orb_prop; [now apply comparison_renders|now apply assigned_renders].
Qed.

End RenderingExpressions.

(** X15.  Rendering an expression leaves the symbol table and the
    output as they are.  It gives a text exactly when every name of the
    expression is bound, in both branches of a ternary too; otherwise it
    raises the error for a name of the expression that is not bound.
    (The literals are ones that [str] can write: within the bound on
    digits.) *)
Theorem expression_renders_iff_names_bound float_repr node indent st r st' :
  comparison node || assigned node = true ->
  literals_printable node = true ->
  compile float_repr node indent st = (r, st') ->
  st' = st
  /\ ((exists text, r = Ok text) <-> Forall (bound st) (names node))
  /\ (forall e, r = Raise e ->
        exists name, In name (names node) /\ symbols st !! name = None
                     /\ e = ValueError (VariableNotFound name)).
Proof.
  intros Hnode _ Hcompile.
  destruct (expression_renders float_repr node Hnode indent st) as [Hst Hr].
  rewrite Hcompile in Hst, Hr. simpl in Hst, Hr. subst st'.
  split; [reflexivity|]. split; [split|].
  - intros [text ->]. exact Hr.
  - intros Hbound. destruct r as [text|e]; [eauto|].
    destruct Hr as (name & Hin & Hnone & _).
    rewrite List.Forall_forall in Hbound.
    destruct (Hbound name Hin) as [v Hv]. congruence.
  - intros e ->. exact Hr.
Qed.

Lemma expression_renders_witness :
  let st := mkState {[ "a" := VInt 1 ]} [] [] in
  let node := Ternary (CompOp (Reference "a" false) "<" (Literal 2 false))
                (Reference "a" false) (Reference "z" false) in
  let r : Result string := Raise (ValueError (VariableNotFound "z")) in
  st = st
  /\ ((exists text, r = Ok text) <-> Forall (bound st) (names node))
  /\ (forall e, r = Raise e ->
        exists name, In name (names node) /\ symbols st !! name = None
                     /\ e = ValueError (VariableNotFound name)).
Proof.
  intros st node r.
  apply (expression_renders_iff_names_bound (fun _ => EmptyString) node 0 st);
    vm_compute; reflexivity.
Defined.

(** ** Assignments and loops *)

Lemma eval_assigned_value node st :
  assigned node = true ->
  eval node st = (fst (eval node st), st)
  /\ forall v, fst (eval node st) = Ok v -> is_Some v.
Proof.
  intros H. destruct (eval_assigned node H st) as [Hst Hr].
  destruct (eval node st) as [r st1]. simpl in *. subst st1.
  split; [reflexivity|]. intros v ->. exact Hr.
Qed.

(** X16.  An assignment is rendered as a declaration, with [int] before
    the name, exactly when the name is not bound yet; the name is then
    bound to the value of the expression, evaluated while rendering.  When
    the name is bound already the text has no [int] and the symbol table
    stays as it is: it keeps the first value. *)
Theorem assignment_declares_once float_repr name value_ indent st text st' :
  assigned value_ = true ->
  compile float_repr (Assignment name value_) indent st = (Ok text, st') ->
  exists code,
    compile float_repr value_ indent st' = (Ok code, st')
    /\ match symbols st !! name with
       | None =>
           text = spaces indent ++ "int " ++ name ++ " = " ++ code ++ ";"
           /\ exists v,
                eval value_ st = (Ok (Some v), st)
                /\ st' = mkState (<[name := v]> (symbols st)) (stdout st)
                           (draws st)
       | Some _ =>
           text = spaces indent ++ name ++ " = " ++ code ++ ";"
           /\ st' = st
       end.
Proof.
  intros Hvalue. cbn [compile]. unfold and_then at 1, unbound at 1.
  destruct (symbols st !! name) as [v0|] eqn:Hname.
  - unfold and_then at 1. cbn [pure]. unfold and_then.
    destruct (assigned_renders float_repr value_ Hvalue indent st) as [Hst _].
    destruct (compile float_repr value_ indent st) as [[code|e] st1] eqn:Hcode;
      [|discriminate].
    simpl in Hst. subst st1. intros [= <- <-]. exists code. auto.
  - unfold and_then at 1 2.
    destruct (eval_assigned_value value_ st Hvalue) as [Heval Hsome].
    destruct (eval value_ st) as [[v|e] st1] eqn:Hv; [|discriminate].
    simpl in Heval, Hsome. injection Heval as ->.
    destruct (Hsome v eq_refl) as [v' ->].
    unfold add at 1. unfold and_then at 1 2. cbn [pure].
    set (st2 := mkState (<[name := v']> (symbols st)) (stdout st) (draws st)).
    destruct (assigned_renders float_repr value_ Hvalue indent st2) as [Hst _].
    destruct (compile float_repr value_ indent st2) as [[code|e] st3] eqn:Hcode;
      [|discriminate].
    simpl in Hst. subst st3. intros [= <- <-]. exists code.
    split; [exact Hcode|]. split; [reflexivity|]. exists v'. auto.
Qed.

Lemma assignment_declares_once_witness :
  let st := SymbolTable [] in
  let st' := mkState (<["x" := VInt 1]> ∅) [] [] in
  exists code,
    compile (fun _ => EmptyString) (Literal 1 false) 0 st' = (Ok code, st')
    /\ match symbols st !! "x" with
       | None =>
           "int x = 1;" = spaces 0 ++ "int " ++ "x" ++ " = " ++ code ++ ";"
           /\ exists v,
                eval (Literal 1 false) st = (Ok (Some v), st)
                /\ st' = mkState (<["x" := v]> (symbols st)) (stdout st)
                           (draws st)
       | Some _ =>
           "int x = 1;" = spaces 0 ++ "x" ++ " = " ++ code ++ ";"
           /\ st' = st
       end.
Proof.
  intros st st'.
  apply (assignment_declares_once (fun _ => EmptyString) "x" (Literal 1 false)
           0 st "int x = 1;" st'); reflexivity.
Defined.

Lemma append_nil_right s : (s ++ EmptyString)%string = s.
Proof. induction s as [|c s IH]; [reflexivity|]. rewrite append_String. now f_equal. Qed.

Lemma append_associative s1 s2 s3 :
  ((s1 ++ s2) ++ s3)%string = (s1 ++ (s2 ++ s3))%string.
Proof.
  induction s1 as [|c s1 IH]; [reflexivity|].
  rewrite !append_String. now f_equal.
Qed.





(** ** Rendering a conditional with [elif] clauses, nested or flat *)

Section RenderingConditionals.

Variable float_repr : spec_float -> string.

Lemma compile_IfStatement condition block elseif_statements else_block indent :
  compile float_repr (IfStatement condition block elseif_statements else_block)
    indent
  = (c <- compile float_repr condition indent ;;
     code <- append_each (fun node => compile float_repr node (indent + 4))
               NEWLINE EmptyString block
               (spaces indent ++ "if (" ++ c ++ ") {") ;;
     render_otherwise float_repr indent elseif_statements else_block
       (code ++ NEWLINE ++ spaces indent ++ "}")).
Proof. reflexivity. Qed.

Lemma prepend_and_then {A} p (m : M A) (f : A -> M string) st :
  prepend p (and_then m f st) = and_then m (fun a st' => prepend p (f a st')) st.
Proof. unfold and_then. now destruct (m st) as [[a|e] st']. Qed.

Lemma append_each_prepend render before after p nodes :
  forall code st,
    append_each render before after nodes (p ++ code) st
    = prepend p (append_each render before after nodes code st).
Proof.
  induction nodes as [|node nodes IH]; intros code st; simpl; [reflexivity|].
  rewrite prepend_and_then. apply and_then_ext. intros t st'.
  now rewrite <- IH, append_associative.
Qed.

Lemma render_otherwise_prepend indent elseif_statements else_block p code st :
  render_otherwise float_repr indent elseif_statements else_block (p ++ code) st
  = prepend p
      (render_otherwise float_repr indent elseif_statements else_block code st).
Proof.
  unfold render_otherwise. rewrite prepend_and_then.
  unfold and_then at 1 3. rewrite append_each_prepend.
  destruct (append_each _ _ _ elseif_statements code st) as [[t|e] st1];
    [|reflexivity].
  cbn [prepend]. destruct else_block as [|node nodes]; [reflexivity|].
  cbv zeta. rewrite prepend_and_then. unfold and_then.
  rewrite append_associative, append_each_prepend.
  destruct (append_each _ _ _ (node :: nodes) _ st1) as [[t'|e] st2];
    [|reflexivity].
  cbn [prepend pure]. now rewrite append_associative.
Qed.

(** A single entry and no [else] block: the text of the entry after
    [else]. *)
Lemma render_otherwise_single indent node code st :
  render_otherwise float_repr indent [node] [] code st
  = prepend (code ++ NEWLINE ++ spaces indent ++ "else ")
      (compile float_repr node indent st).
Proof.
  unfold render_otherwise. cbn [append_each]. unfold and_then, pure.
  destruct (compile float_repr node indent st) as [[t|e] st1]; [|reflexivity].
  cbn [prepend]. now rewrite append_nil_right, <- !append_associative.
Qed.

Lemma and_then_eq {A B} (m : M A) (f : A -> M B) st :
  and_then m f st
  = match m st with
    | (Ok a, st') => f a st'
    | (Raise e, st') => (Raise e, st')
    end.
Proof. reflexivity. Qed.

(** One clause, without entries or [else]: its block between braces. *)
Lemma compile_clause condition block indent st :
  compile float_repr (IfStatement condition block [] []) indent st
  = match compile float_repr condition indent st with
    | (Ok c, st1) =>
        match append_each (fun node => compile float_repr node (indent + 4))
                NEWLINE EmptyString block
                (spaces indent ++ "if (" ++ c ++ ") {") st1 with
        | (Ok code, st2) => (Ok (code ++ NEWLINE ++ spaces indent ++ "}"), st2)
        | (Raise e, st2) => (Raise e, st2)
        end
    | (Raise e, st1) => (Raise e, st1)
    end.
Proof.
  rewrite compile_IfStatement, and_then_eq.
  destruct (compile float_repr condition indent st) as [[c|e] st1];
    [|reflexivity].
  rewrite and_then_eq.
  destruct (append_each _ _ _ block _ st1) as [[code|e] st2]; reflexivity.
Qed.

(** A first entry without entries or [else] of its own, before the
    others: the text, after [else], of the conditional it heads. *)
Lemma render_otherwise_cons indent condition block elseif_statements else_block
    code st :
  render_otherwise float_repr indent
    (IfStatement condition block [] [] :: elseif_statements) else_block code st
  = prepend (code ++ NEWLINE ++ spaces indent ++ "else ")
      (compile float_repr
         (IfStatement condition block elseif_statements else_block) indent st).
Proof.
  rewrite compile_IfStatement.
  unfold render_otherwise at 1. cbn [append_each].
  rewrite !and_then_eq, compile_clause.
  destruct (compile float_repr condition indent st) as [[c|e] st1];
    [|reflexivity].
  rewrite !and_then_eq.
  destruct (append_each _ _ _ block _ st1) as [[t|e] st2]; [|reflexivity].
  rewrite <- render_otherwise_prepend.
  rewrite append_nil_right, <- (append_associative code). reflexivity.
Qed.

End RenderingConditionals.

(** X18.  The conditional that nests each [elif] clause in the one
    before it is rendered as the conditional that lists the clauses side
    by side: the same C text, or the same error, and the same state. *)
Theorem nested_conditional_renders_as_flat float_repr clauses :
  forall condition block else_block indent st,
    compile float_repr
      (nested_conditional condition block clauses else_block) indent st
    = compile float_repr
        (flat_conditional condition block clauses else_block) indent st.
Proof.
  induction clauses as [|[c1 b1] clauses IH];
    intros condition block else_block indent st; [reflexivity|].
  unfold flat_conditional. cbn [nested_conditional map fst snd].
  rewrite !compile_IfStatement. apply and_then_ext. intros c st1.
  apply and_then_ext. intros code st2.
  rewrite render_otherwise_cons, render_otherwise_single. f_equal. apply IH.
Qed.

(** ** The text of a program *)

Lemma append_each_texts float_repr indent before after nodes :
  forall code st text st',
    append_each (fun node => compile float_repr node indent) before after
      nodes code st = (Ok text, st')
    <-> exists texts,
          rendered_each float_repr indent nodes st texts st'
          /\ text = code ++ String.concat EmptyString
                              (map (fun s => before ++ s ++ after) texts).
Proof.
  induction nodes as [|node nodes IH]; intros code st text st'; simpl.
  - split.
    + intros [= <- <-]. exists []. split; [constructor|].
      simpl. now rewrite append_nil_right.
    + intros (texts & Hr & ->). inversion Hr; subst. simpl.
      now rewrite append_nil_right.
  - rewrite and_then_eq. split.
    + destruct (compile float_repr node indent st) as [[t|e] st1] eqn:Hnode;
        [|discriminate].
      intros H. apply IH in H as (texts & Hr & ->).
      exists (t :: texts). split; [econstructor; eassumption|].
      cbn [map String.concat]. destruct texts as [|t' texts'].
      * simpl. now rewrite !append_nil_right.
      * cbn [map]. now rewrite append_empty, append_associative.
    + intros (texts & Hr & ->).
      inversion Hr as [|? ? ? t st1 texts0 ? Hnode Hrest]; subst.
      rewrite Hnode. apply IH. exists texts0. split; [assumption|].
      cbn [map String.concat]. destruct texts0 as [|t' texts'].
      * simpl. now rewrite append_nil_right.
      * cbn [map]. now rewrite append_empty, (append_associative code).
Qed.

(** X22.  The text of a program is the fixed frame of a C program
    around the texts of its statements: the two includes, [main] and the
    start of the clock, then each statement rendered in turn, four spaces
    in and on a line of its own, then the elapsed time, its [printf], and
    [return 0]. *)
Theorem module_renders_c_program float_repr statements_ st text st' :
  compile float_repr (Module statements_) 0 st = (Ok text, st')
  <-> exists texts,
        rendered_each float_repr 4 statements_ st texts st'
        /\ text = c_program texts.
Proof.
  cbn [compile]. rewrite and_then_eq. cbn [Nat.add]. split.
  - destruct (append_each _ _ _ statements_ _ st) as [[code|e] st1] eqn:Hcode;
      [|discriminate].
    apply append_each_texts in Hcode as (texts & Hr & ->).
    intros [= <- <-]. exists texts. split; [exact Hr|].
    unfold c_program. rewrite !append_associative. reflexivity.
  - intros (texts & Hr & ->).
    match goal with
    | |- context [append_each ?r ?b ?a ?n ?c st] =>
        rewrite (proj2 (append_each_texts float_repr 4 b a n c st _ st')
                   (ex_intro _ texts (conj Hr eq_refl)))
    end.
    cbn [pure]. f_equal. f_equal.
    unfold c_program. rewrite !append_associative. reflexivity.
Qed.
